(** * Email statistics aggregation: a shallow embedding of
      [src/analyzers/email_analyzer.py] and the properties of its
      [EmailAnalyzer.analyze_emails].

    Conventions of the embedding.
    - A Python [str] is a [string]; the character classes of the regular
      expressions and [str.lower] are the ones Python applies to ASCII
      code points (the embedding does not cover text outside ASCII).
    - A Python [int] is a [Z]; a Python [float] is an exact rational
      ([Qc]), so that statements about float-valued entries hold up to the
      rounding of the floating-point operations.
    - A [dict] that the code returns as a histogram is a [gmap]; a
      [Counter] or [defaultdict] whose iteration order the code observes is
      an association list in insertion order.
    - A timestamp is a naive [datetime] or [None].
    - Code that can raise returns a [result]. *)

From Stdlib Require Import QArith Qcanon.
From stdpp Require Import gmap strings list fin_maps sorting.
From Stdlib Require Import Ascii.

Local Open Scope Z_scope.

(** ** Exceptions *)

Inductive exn : Set :=
  | TypeError.

Inductive result (A : Type) : Type :=
  | Ok (a : A)
  | Raise (e : exn).
Arguments Ok {A} a.
Arguments Raise {A} e.

#[global] Instance result_ret : MRet result := @Ok.
#[global] Instance result_bind : MBind result := fun A B f m =>
  match m with
  | Ok a => f a
  | Raise e => Raise e
  end.

(** ** Strings *)

Abbreviation chars := String.list_ascii_of_string.
Abbreviation str := String.string_of_list_ascii.

Definition code (c : ascii) : Z := Z.of_N (N_of_ascii c).

Definition is_upper (c : ascii) : bool := (65 <=? code c) && (code c <=? 90).
Definition is_lower (c : ascii) : bool := (97 <=? code c) && (code c <=? 122).
Definition is_alpha (c : ascii) : bool := is_upper c || is_lower c.
Definition is_digit (c : ascii) : bool := (48 <=? code c) && (code c <=? 57).
Definition is_alnum (c : ascii) : bool := is_alpha c || is_digit c.

(** [\w] *)
Definition is_word (c : ascii) : bool := is_alnum c || (code c =? 95).

(** [\s]: the code points below 128 for which [str.isspace] holds. *)
Definition is_space (c : ascii) : bool :=
  ((9 <=? code c) && (code c <=? 13)) ||
  ((28 <=? code c) && (code c <=? 31)) ||
  (code c =? 32).

Definition lower_char (c : ascii) : ascii :=
  if is_upper c then ascii_of_N (N_of_ascii c + 32) else c.

(** [s.lower()] *)
Definition lower (s : string) : string := str (map lower_char (chars s)).

(** [len(s)] *)
Definition len (s : string) : Z := Z.of_nat (String.length s).

(** The longest prefix of [l] whose elements satisfy [p], and the rest. *)
Fixpoint span {A} (p : A → bool) (l : list A) : list A * list A :=
  match l with
  | [] => ([], [])
  | x :: l' =>
      if p x then let '(a, b) := span p l' in (x :: a, b) else ([], l)
  end.

(** The maximal runs of elements satisfying [p], left to right.  [cur] is
    the run being read, reversed. *)
Fixpoint runs_acc {A} (p : A → bool) (cur : list A) (l : list A) : list (list A) :=
  match l with
  | [] => match cur with [] => [] | _ => [rev cur] end
  | x :: l' =>
      if p x then runs_acc p (x :: cur) l'
      else match cur with
           | [] => runs_acc p [] l'
           | _ => rev cur :: runs_acc p [] l'
           end
  end.

Definition runs {A} (p : A → bool) (l : list A) : list (list A) := runs_acc p [] l.

(** [re.findall] of [\b\w+\b]: a match starts and ends at a word boundary,
    so the matches are the maximal runs of word characters. *)
Definition findall_words (s : string) : list string :=
  str <$> runs is_word (chars s).

(** [re.findall] of [\b[a-zA-Z]{3,}\b]: a match is a maximal run of word
    characters (both ends are word boundaries) made of at least three
    letters and nothing else. *)
Definition findall_alpha3 (s : string) : list string :=
  str <$> filter (λ r, forallb is_alpha r = true ∧ (3 ≤ length r)%nat)
                 (runs is_word (chars s)).

(** [starts_with_ci p l]: [l] begins with [p] up to the case of letters
    ([p] is in lower case); the result is the rest of [l]. *)
Fixpoint starts_with_ci (p l : list ascii) : option (list ascii) :=
  match p, l with
  | [], _ => Some l
  | a :: p', b :: l' =>
      if bool_decide (lower_char b = a) then starts_with_ci p' l' else None
  | _ :: _, [] => None
  end.

(** The alternatives of [(Re|Fwd|FW|RE|FW):] under [re.IGNORECASE], tried in
    order at the current position. *)
Definition prefixes : list string := ["re:"; "fwd:"; "fw:"; "re:"; "fw:"].

Definition match_prefix (l : list ascii) : option (list ascii) :=
  foldr (λ p alt, match starts_with_ci (chars p) l with
                  | Some rest => Some rest
                  | None => alt
                  end) None prefixes.

(** [re.sub] of the pattern [^(Re|Fwd|FW|RE|FW):\s*] by the empty string,
    with [re.IGNORECASE]: the pattern is anchored, so at most the one match
    at position 0 is replaced: the prefix and the white space after it. *)
Definition strip_prefix (s : string) : string :=
  match match_prefix (chars s) with
  | Some rest => str (span is_space rest).2
  | None => s
  end.

(** The grouping key of [_analyze_threads] and [_analyze_response_times]. *)
Definition thread_key (subject : string) : string := lower (strip_prefix subject).

(** *** Addresses and domains *)

(** [[a-zA-Z0-9._%+-]] *)
Definition is_local (c : ascii) : bool :=
  is_alnum c || bool_decide (c ∈ chars "._%+-").

(** [[a-zA-Z0-9.-]] *)
Definition is_domain (c : ascii) : bool :=
  is_alnum c || bool_decide (c ∈ chars ".-").

(** The candidates of [[a-zA-Z0-9.-]+\.[a-zA-Z]{2,}] inside the run [d] of
    domain characters: a dot with at least one character before it and at
    least two letters after it; the letters are taken greedily.  [pre] is
    what was read before [d], reversed.  The greedy first part keeps the
    last such dot, which is the last candidate met. *)
Fixpoint last_tld (pre d : list ascii) (best : option (list ascii)) : option (list ascii) :=
  match d with
  | [] => best
  | c :: d' =>
      let tld := (span is_alpha d').1 in
      let best' :=
        if bool_decide (c = "."%char ∧ pre ≠ [] ∧ (2 ≤ length tld)%nat)
        then Some (rev pre ++ c :: tld) else best in
      last_tld (c :: pre) d' best'
  end.

(** [[a-zA-Z0-9.-]+\.[a-zA-Z]{2,}] matched at the start of [l]. *)
Definition match_domain (l : list ascii) : option (list ascii) :=
  last_tld [] (span is_domain l).1 None.

(** [[a-zA-Z0-9._%+-]+@[a-zA-Z0-9.-]+\.[a-zA-Z]{2,}] matched at the start
    of [l]: the local part is the whole run of local characters (the
    character after it has to be the at-sign, which is not one of them). *)
Definition match_address (l : list ascii) : option (list ascii) :=
  match span is_local l with
  | ((_ :: _) as loc, "@"%char :: r) =>
      dom ← match_domain r; Some (loc ++ "@"%char :: dom)
  | _ => None
  end.

(** [@([a-zA-Z0-9.-]+\.[a-zA-Z]{2,})] matched at the start of [l]; the
    result is group 1. *)
Definition match_at_domain (l : list ascii) : option (list ascii) :=
  match l with
  | "@"%char :: r => match_domain r
  | _ => None
  end.

(** [re.search]: the match at the leftmost position that has one. *)
Fixpoint search {A} (m : list ascii → option A) (l : list ascii) : option A :=
  match m l with
  | Some x => Some x
  | None => match l with
            | [] => None
            | _ :: l' => search m l'
            end
  end.

Definition search_address (s : string) : option string :=
  str <$> search match_address (chars s).

Definition search_domain (s : string) : option string :=
  str <$> search match_at_domain (chars s).

(** *** File extensions *)

(** What follows the last dot of [l], if [l] has a dot. *)
Fixpoint after_last_dot (l : list ascii) : option (list ascii) :=
  match l with
  | [] => None
  | c :: l' =>
      match after_last_dot l' with
      | Some e => Some e
      | None => if bool_decide (c = "."%char) then Some l' else None
      end
  end.

(** The key of an attachment name in [_analyze_attachments]:
    [attachment.split(".")[-1].lower()] when the name has a dot. *)
Definition extension (attachment : string) : string :=
  match after_last_dot (chars attachment) with
  | Some e => lower (str e)
  | None => "no_extension"
  end.

(** *** Decimal numbers *)

Definition digit_char (d : Z) : ascii := ascii_of_N (Z.to_N (48 + d)).

(** The last [w] decimal digits of [n], with leading zeros. *)
Fixpoint zfill (w : nat) (n : Z) : list ascii :=
  match w with
  | O => []
  | S w' => zfill w' (n `div` 10) ++ [digit_char (n `mod` 10)]
  end.

(** ** Counters and sorting *)

(** A [dict] whose iteration order matters is the list of its items in
    insertion order. *)
Section ordered_dict.
Context {K : Type} `{EqDecision K} {V : Type}.

(** [d.get(k)] *)
Fixpoint assoc (k : K) (d : list (K * V)) : option V :=
  match d with
  | [] => None
  | (k', v) :: d' => if decide (k' = k) then Some v else assoc k d'
  end.

(** [d[k] = f(d.get(k))]: the value of a key that is present is replaced
    in place, a new key goes to the end. *)
Fixpoint upsert (f : option V → V) (k : K) (d : list (K * V)) : list (K * V) :=
  match d with
  | [] => [(k, f None)]
  | (k', v) :: d' =>
      if decide (k' = k) then (k', f (Some v)) :: d' else (k', v) :: upsert f k d'
  end.
End ordered_dict.

Section counter.
Context {K : Type} `{EqDecision K}.

(** [c[k] += 1] on a [Counter], whose missing keys count 0. *)
Definition incr (k : K) (c : list (K * Z)) : list (K * Z) :=
  upsert (λ n, default 0 n + 1) k c.

(** [c.update(ks)] *)
Definition update (ks : list K) (c : list (K * Z)) : list (K * Z) :=
  foldl (λ c k, incr k c) c ks.

(** [groups[k].append(x)] on a [defaultdict(list)]. *)
Definition append_to {V} (k : K) (x : V) (g : list (K * list V)) : list (K * list V) :=
  upsert (λ xs, default [] xs ++ [x]) k g.
End counter.

Section sorting.
Context {A : Type}.

(** A stable sort, as [list.sort] and [sorted] are: [before y x] tells
    whether [y] has to come strictly before [x]; an element is put in
    front of the first one that need not precede it, so elements that
    compare equal keep their order. *)
Fixpoint insert_by (before : A → A → bool) (x : A) (l : list A) : list A :=
  match l with
  | [] => [x]
  | y :: l' => if before y x then y :: insert_by before x l' else x :: y :: l'
  end.

Definition sort_by (before : A → A → bool) (l : list A) : list A :=
  foldr (insert_by before) [] l.

(** The same with a comparison that can raise.  Python's sort compares
    every element of a sequence of two or more with another one, and so
    does this one: sorting raises as soon as one comparison would. *)
Fixpoint insert_byM (before : A → A → result bool) (x : A) (l : list A)
  : result (list A) :=
  match l with
  | [] => Ok [x]
  | y :: l' =>
      b ← before y x;
      if b : bool then l'' ← insert_byM before x l'; Ok (y :: l'')
      else Ok (x :: y :: l')
  end.

Definition sort_byM (before : A → A → result bool) (l : list A) : result (list A) :=
  foldr (λ x acc, s ← acc; insert_byM before x s) (Ok []) l.
End sorting.

(** [Counter.most_common(n)], which is
    [heapq.nlargest(n, items, key=count)]: the first [n] items of the
    stable sort by decreasing count. *)
Definition most_common {K} (n : nat) (c : list (K * Z)) : list (K * Z) :=
  take n (sort_by (λ y x, x.2 <? y.2) c).

(** [dict(items)] *)
Definition dict `{Countable K} {V} (items : list (K * V)) : gmap K V :=
  foldl (λ m kv, <[kv.1 := kv.2]> m) ∅ items.

(** [d[k] += 1] on a [defaultdict(int)] returned as a [dict]. *)
Definition bump `{Countable K} (k : K) (m : gmap K Z) : gmap K Z :=
  <[k := default 0 (m !! k) + 1]> m.

(** [d.get(k, 0)] *)
Definition get0 `{Countable K} (k : K) (m : gmap K Z) : Z := default 0 (m !! k).

(** [float(n)] *)
Definition float (n : Z) : Qc := Q2Qc (inject_Z n).

(** [a / b] on integers, for a divisor that is not zero. *)
Definition pydiv (a b : Z) : Qc := (float a / float b)%Qc.

(** [min] and [max] keep the first element and replace it by each later
    one that is better: [select better x l] for the sequence [x :: l]. *)
Definition select {A} (better : A → A → bool) (x : A) (l : list A) : A :=
  foldl (λ best y, if better y best then y else best) x l.

(** [sum], [max] and [min] of a sequence; [max] and [min] are only applied
    to sequences that are not empty. *)
Definition sumZ (l : list Z) : Z := foldl Z.add 0 l.

Definition maxZ (l : list Z) : Z :=
  match l with
  | [] => 0
  | x :: l' => select (λ y best, best <? y) x l'
  end.

Definition minZ (l : list Z) : Z :=
  match l with
  | [] => 0
  | x :: l' => select (λ y best, y <? best) x l'
  end.

(** ** Timestamps *)

Record datetime : Set := {
  year : Z; month : Z; day : Z;
  hour : Z; minute : Z; second : Z; microsecond : Z
}.

#[global] Instance datetime_eq_dec : EqDecision datetime.
Proof. solve_decision. Defined.

(** The tuple two naive [datetime]s are compared by. *)
Definition datetime_key (d : datetime) : list Z :=
  [year d; month d; day d; hour d; minute d; second d; microsecond d].

Fixpoint lex_ltb (a b : list Z) : bool :=
  match a, b with
  | x :: a', y :: b' => (x <? y) || ((x =? y) && lex_ltb a' b')
  | [], _ :: _ => true
  | _, [] => false
  end.

(** [d1 < d2] *)
Definition datetime_ltb (d1 d2 : datetime) : bool :=
  lex_ltb (datetime_key d1) (datetime_key d2).

Definition is_leap (y : Z) : bool :=
  (y `mod` 4 =? 0) && (negb (y `mod` 100 =? 0) || (y `mod` 400 =? 0)).

(** The days of the year before the first of month [m]. *)
Definition days_before_month (y m : Z) : Z :=
  nth (Z.to_nat m) [0; 0; 31; 59; 90; 120; 151; 181; 212; 243; 273; 304; 334] 0
  + (if (2 <? m) && is_leap y then 1 else 0).

Definition days_before_year (y : Z) : Z :=
  (y - 1) * 365 + (y - 1) `div` 4 - (y - 1) `div` 100 + (y - 1) `div` 400.

(** [d.toordinal()] *)
Definition toordinal (d : datetime) : Z :=
  days_before_year (year d) + days_before_month (year d) (month d) + day d.

(** [d.weekday()]: Monday is 0. *)
Definition weekday (d : datetime) : Z := (toordinal d + 6) `mod` 7.

(** [(d1 - d2).total_seconds() * 10**6], an integer. *)
Definition microseconds_between (d1 d2 : datetime) : Z :=
  ((toordinal d1 - toordinal d2) * 86400
   + ((second d1 + minute d1 * 60 + hour d1 * 3600)
      - (second d2 + minute d2 * 60 + hour d2 * 3600))) * 1000000
  + (microsecond d1 - microsecond d2).

(** [d.strftime('%Y-%m-%d')], with the year on four digits. *)
Definition strftime_ymd (d : datetime) : string :=
  str (zfill 4 (year d) ++ chars "-" ++ zfill 2 (month d) ++ chars "-" ++ zfill 2 (day d)).

(** ** Messages *)

(** The fields of [core.email_manager.EmailMessage] that the analyzer reads.
    An empty [subject], [sender] or [body] is a missing one; [date] is
    [None] when the timestamp is missing. *)
Record EmailMessage : Set := {
  subject : string;
  sender : string;
  date : option datetime;
  body : string;
  attachments : list string;
  size : Z
}.

#[global] Instance EmailMessage_eq_dec : EqDecision EmailMessage.
Proof. solve_decision. Defined.

(** [if s:] on a string *)
Definition truthy (s : string) : bool := bool_decide (s ≠ EmptyString).

(** ** The sub-statistics of [EmailAnalyzer] *)

(** [min(dates)] and [max(dates)] of a sequence that starts with [d0]. *)
Definition min_date (d0 : datetime) (ds : list datetime) : datetime :=
  select (λ d best, datetime_ltb d best) d0 ds.

Definition max_date (d0 : datetime) (ds : list datetime) : datetime :=
  select (λ d best, datetime_ltb best d) d0 ds.

Definition _get_date_range (emails : list EmailMessage) : string :=
  match emails with
  | [] => "No emails"
  | _ =>
      match omap date emails with
      | [] => "No valid dates"
      | d0 :: ds =>
          strftime_ymd (min_date d0 ds) +:+ " to " +:+ strftime_ymd (max_date d0 ds)
      end
  end.

Definition _calculate_total_size (emails : list EmailMessage) : Qc :=
  let total_bytes := sumZ (size <$> emails) in
  pydiv total_bytes (1024 * 1024).

(** *** Senders *)

Definition sender_key (sender : string) : string :=
  match search_address sender with
  | Some address => address
  | None => sender
  end.

Definition sender_counter (emails : list EmailMessage) : list (string * Z) :=
  foldl (λ counter email,
           if truthy (sender email) then incr (sender_key (sender email)) counter
           else counter)
        [] emails.

Definition _analyze_senders (emails : list EmailMessage) : list (string * Z) :=
  most_common 20 (sender_counter emails).

(** *** Activity histograms *)

(** The band of an hour in [_analyze_time_activity]. *)
Definition time_band (hour : Z) : string :=
  if (6 <=? hour) && (hour <? 12) then "Morning (6-12)"
  else if (12 <=? hour) && (hour <? 17) then "Afternoon (12-17)"
  else if (17 <=? hour) && (hour <? 22) then "Evening (17-22)"
  else "Night (22-6)".

Definition _analyze_time_activity (emails : list EmailMessage) : gmap string Z :=
  foldl (λ activity email,
           match date email with
           | Some d => bump (time_band (hour d)) activity
           | None => activity
           end)
        ∅ emails.

Definition day_names : list string :=
  ["Monday"; "Tuesday"; "Wednesday"; "Thursday"; "Friday"; "Saturday"; "Sunday"].

Definition _analyze_daily_activity (emails : list EmailMessage) : gmap string Z :=
  foldl (λ daily_activity email,
           match date email with
           | Some d => bump (nth (Z.to_nat (weekday d)) day_names EmptyString) daily_activity
           | None => daily_activity
           end)
        ∅ emails.

Definition _analyze_hourly_activity (emails : list EmailMessage) : gmap Z Z :=
  foldl (λ hourly_activity email,
           match date email with
           | Some d => bump (hour d) hourly_activity
           | None => hourly_activity
           end)
        ∅ emails.

(** *** Subjects *)

Record subject_stats : Type := {
  avg_length : Qc;
  max_length : Z;
  min_length : Z;
  common_words : list (string * Z);
  total_words : Z
}.

(** The three accumulators of the loop of [_analyze_subjects]. *)
Definition subjects_loop (emails : list EmailMessage)
  : list Z * list string * list (string * Z) :=
  foldl (λ '(subject_lengths, subject_words, counter) email,
           if truthy (subject email) then
             let words := findall_words (lower (subject email)) in
             (subject_lengths ++ [len (subject email)],
              subject_words ++ words,
              update words counter)
           else (subject_lengths, subject_words, counter))
        ([], [], []) emails.

Definition _analyze_subjects (emails : list EmailMessage) : subject_stats :=
  let '(subject_lengths, subject_words, counter) := subjects_loop emails in
  {| avg_length :=
       match subject_lengths with
       | [] => 0%Qc
       | _ => pydiv (sumZ subject_lengths) (Z.of_nat (length subject_lengths))
       end;
     max_length := match subject_lengths with [] => 0 | _ => maxZ subject_lengths end;
     min_length := match subject_lengths with [] => 0 | _ => minZ subject_lengths end;
     common_words := most_common 20 counter;
     total_words := Z.of_nat (length subject_words) |}.

(** *** Attachments *)

Record attachment_stats : Type := {
  emails_with_attachments : Z;
  total_attachments : Z;
  attachment_types : gmap string Z;
  attachment_rate : Qc
}.

(** The three accumulators of the loop of [_analyze_attachments]. *)
Definition attachments_loop (emails : list EmailMessage) : list (string * Z) * Z * Z :=
  foldl (λ '(types, with_attachments, total) email,
           match attachments email with
           | [] => (types, with_attachments, total)
           | names =>
               (foldl (λ types attachment, incr (extension attachment) types) types names,
                with_attachments + 1,
                total + Z.of_nat (length names))
           end)
        ([], 0, 0) emails.

Definition _analyze_attachments (emails : list EmailMessage) : attachment_stats :=
  let '(types, with_attachments, total) := attachments_loop emails in
  {| emails_with_attachments := with_attachments;
     total_attachments := total;
     attachment_types := dict (most_common 10 types);
     attachment_rate :=
       match emails with
       | [] => 0%Qc
       | _ => (pydiv with_attachments (Z.of_nat (length emails)) * float 100)%Qc
       end |}.

(** *** Sizes *)

Record size_stats : Type := {
  size_ranges : gmap string Z;
  avg_size : Qc;
  max_size : Z;
  min_size : Z
}.

(** The band of a size in [_analyze_size_distribution]. *)
Definition size_band (size : Z) : string :=
  if size <? 1024 then "Small (< 1KB)"
  else if size <? 10 * 1024 then "Medium (1KB - 10KB)"
  else if size <? 100 * 1024 then "Large (10KB - 100KB)"
  else "Very Large (> 100KB)".

Definition size_ranges0 : gmap string Z :=
  dict [("Small (< 1KB)", 0); ("Medium (1KB - 10KB)", 0);
        ("Large (10KB - 100KB)", 0); ("Very Large (> 100KB)", 0)].

(** The result is [None] for the empty dict the code returns when there is
    no size. *)
Definition _analyze_size_distribution (emails : list EmailMessage) : option size_stats :=
  let sizes := size <$> emails in
  match sizes with
  | [] => None
  | _ =>
      Some {| size_ranges := foldl (λ ranges size, bump (size_band size) ranges) size_ranges0 sizes;
              avg_size := pydiv (sumZ sizes) (Z.of_nat (length sizes));
              max_size := maxZ sizes;
              min_size := minZ sizes |}
  end.

(** *** Threads *)

Record thread_stat : Type := {
  thread_subject : string;
  count : Z;
  thread_date_range : string
}.

Record thread_stats : Type := {
  total_threads : Z;
  largest_thread : option thread_stat;
  avg_thread_size : Qc;
  top_threads : list thread_stat
}.

(** The [defaultdict(list)] that [_analyze_threads] and
    [_analyze_response_times] both build. *)
Definition thread_groups (emails : list EmailMessage) : list (string * list EmailMessage) :=
  foldl (λ groups email,
           if truthy (subject email)
           then append_to (thread_key (subject email)) email groups
           else groups)
        [] emails.

(** What a group adds to [thread_stats]. *)
Definition thread_entry (subject : string) (thread_emails : list EmailMessage)
  : option thread_stat :=
  if 1 <? Z.of_nat (length thread_emails)
  then Some {| thread_subject := subject;
               count := Z.of_nat (length thread_emails);
               thread_date_range := _get_date_range thread_emails |}
  else None.

(** [thread_stats] before it is sorted. *)
Definition thread_entries (emails : list EmailMessage) : list thread_stat :=
  omap (λ group, thread_entry group.1 group.2) (thread_groups emails).

(** [thread_stats] after [sort(key=count, reverse=True)]. *)
Definition sorted_threads (emails : list EmailMessage) : list thread_stat :=
  sort_by (λ y x, count x <? count y) (thread_entries emails).

Definition _analyze_threads (emails : list EmailMessage) : thread_stats :=
  let stats := sorted_threads emails in
  {| total_threads := Z.of_nat (length (filter (λ t, 1 < count t) stats));
     largest_thread := head stats;
     avg_thread_size :=
       match stats with
       | [] => 0%Qc
       | _ => pydiv (sumZ (count <$> stats)) (Z.of_nat (length stats))
       end;
     top_threads := take 10 stats |}.

(** *** Domains *)

Record domain_stats : Type := {
  top_domains : list (string * Z);
  total_domains : Z;
  domain_diversity : Qc
}.

Definition domain_counter (emails : list EmailMessage) : list (string * Z) :=
  foldl (λ counter email,
           if truthy (sender email) then
             match search_domain (sender email) with
             | Some domain => incr domain counter
             | None => counter
             end
           else counter)
        [] emails.

Definition _analyze_domains (emails : list EmailMessage) : domain_stats :=
  let counter := domain_counter emails in
  {| top_domains := most_common 20 counter;
     total_domains := Z.of_nat (length counter);
     domain_diversity :=
       match emails with
       | [] => 0%Qc
       | _ => pydiv (Z.of_nat (length counter)) (Z.of_nat (length emails))
       end |}.

(** *** Sentiment *)

Record sentiment_stats : Type := {
  positive : Z;
  negative : Z;
  neutral : Z;
  positive_percentage : Qc;
  negative_percentage : Qc;
  neutral_percentage : Qc
}.

Definition positive_words : gset string :=
  list_to_set
    ["good"; "great"; "excellent"; "amazing"; "wonderful"; "fantastic";
     "awesome"; "perfect"; "love"; "like"; "happy"; "pleased"; "satisfied";
     "thank"; "thanks"; "appreciate"].

Definition negative_words : gset string :=
  list_to_set
    ["bad"; "terrible"; "awful"; "horrible"; "disappointed"; "angry";
     "frustrated"; "hate"; "dislike"; "upset"; "sad"; "sorry"; "apologize";
     "problem"; "issue"; "error"].

(** The text both [_analyze_sentiment] and [_analyze_keywords] read. *)
Definition text_of (email : EmailMessage) : string :=
  lower (subject email +:+ " " +:+ body email).

Inductive sentiment : Set := Positive | Negative | Neutral.

Definition classify (email : EmailMessage) : sentiment :=
  let words : gset string := list_to_set (findall_words (text_of email)) in
  let positive_matches := Z.of_nat (base.size (words ∩ positive_words)) in
  let negative_matches := Z.of_nat (base.size (words ∩ negative_words)) in
  if negative_matches <? positive_matches then Positive
  else if positive_matches <? negative_matches then Negative
  else Neutral.

(** The three counters of the loop of [_analyze_sentiment]. *)
Definition sentiment_loop (emails : list EmailMessage) : Z * Z * Z :=
  foldl (λ '(positive_count, negative_count, neutral_count) email,
           match classify email with
           | Positive => (positive_count + 1, negative_count, neutral_count)
           | Negative => (positive_count, negative_count + 1, neutral_count)
           | Neutral => (positive_count, negative_count, neutral_count + 1)
           end)
        (0, 0, 0) emails.

Definition percentage (n total : Z) : Qc :=
  if 0 <? total then (pydiv n total * float 100)%Qc else 0%Qc.

Definition _analyze_sentiment (emails : list EmailMessage) : sentiment_stats :=
  let '(positive_count, negative_count, neutral_count) := sentiment_loop emails in
  let total := Z.of_nat (length emails) in
  {| positive := positive_count;
     negative := negative_count;
     neutral := neutral_count;
     positive_percentage := percentage positive_count total;
     negative_percentage := percentage negative_count total;
     neutral_percentage := percentage neutral_count total |}.

(** *** Keywords *)

Record keyword_stats : Type := {
  top_keywords : list (string * Z);
  total_unique_words : Z;
  most_common_word : option (string * Z)
}.

Definition stop_words : gset string :=
  list_to_set
    ["the"; "a"; "an"; "and"; "or"; "but"; "in"; "on"; "at"; "to"; "for";
     "of"; "with"; "by"; "is"; "are"; "was"; "were"; "be"; "been"; "have";
     "has"; "had"; "do"; "does"; "did"; "will"; "would"; "could"; "should";
     "may"; "might"; "can"; "this"; "that"; "these"; "those"; "i"; "you";
     "he"; "she"; "it"; "we"; "they"; "me"; "him"; "her"; "us"; "them";
     "my"; "your"; "his"; "her"; "its"; "our"; "their"].

Definition filtered_words (email : EmailMessage) : list string :=
  filter (λ word, word ∉ stop_words) (findall_alpha3 (text_of email)).

Definition word_counter (emails : list EmailMessage) : list (string * Z) :=
  foldl (λ counter email, update (filtered_words email) counter) [] emails.

Definition _analyze_keywords (emails : list EmailMessage) : keyword_stats :=
  let counter := word_counter emails in
  {| top_keywords := most_common 50 counter;
     total_unique_words := Z.of_nat (length counter);
     most_common_word := head (most_common 1 counter) |}.

(** *** Response times *)

Record response_stats : Type := {
  avg_response_time_hours : Qc;
  min_response_time_hours : Qc;
  max_response_time_hours : Qc;
  response_time_samples : Z
}.

(** [y.date < x.date], the comparison [sorted(..., key=lambda x: x.date)]
    makes: [None] is not ordered, neither with a [datetime] nor with
    [None]. *)
Definition date_lt (y x : EmailMessage) : result bool :=
  match date y, date x with
  | Some a, Some b => Ok (datetime_ltb a b)
  | _, _ => Raise TypeError
  end.

(** [(a - b).total_seconds() / 3600] *)
Definition hours_between (a b : option datetime) : result Qc :=
  match a, b with
  | Some d1, Some d2 =>
      Ok (Q2Qc (inject_Z (microseconds_between d1 d2) / inject_Z 1000000) / float 3600)%Qc
  | _, _ => Raise TypeError
  end.

(** The inner loop over [range(1, len(sorted_emails))]. *)
Fixpoint deltas (sorted_emails : list EmailMessage) : result (list Qc) :=
  match sorted_emails with
  | previous :: ((current :: _) as rest) =>
      time_diff ← hours_between (date current) (date previous);
      more ← deltas rest;
      Ok (time_diff :: more)
  | _ => Ok []
  end.

(** What one thread adds to [response_times]. *)
Definition thread_deltas (thread_emails : list EmailMessage) : result (list Qc) :=
  if 1 <? Z.of_nat (length thread_emails)
  then sorted_emails ← sort_byM date_lt thread_emails; deltas sorted_emails
  else Ok [].

(** [response_times] after the loop over [thread_groups.values()]. *)
Definition response_times (emails : list EmailMessage) : result (list Qc) :=
  foldl (λ acc group,
           times ← acc;
           more ← thread_deltas group.2;
           Ok (times ++ more))
        (Ok []) (thread_groups emails).

Definition sumQ (l : list Qc) : Qc := foldl Qcplus 0%Qc l.

Definition minQ (l : list Qc) : Qc :=
  match l with
  | [] => 0%Qc
  | x :: l' => select (λ y best, bool_decide (y < best)%Qc) x l'
  end.

Definition maxQ (l : list Qc) : Qc :=
  match l with
  | [] => 0%Qc
  | x :: l' => select (λ y best, bool_decide (best < y)%Qc) x l'
  end.

Definition response_stats_of (times : list Qc) : response_stats :=
  match times with
  | [] =>
      {| avg_response_time_hours := 0%Qc;
         min_response_time_hours := 0%Qc;
         max_response_time_hours := 0%Qc;
         response_time_samples := 0 |}
  | _ =>
      {| avg_response_time_hours := (sumQ times / float (Z.of_nat (length times)))%Qc;
         min_response_time_hours := minQ times;
         max_response_time_hours := maxQ times;
         response_time_samples := Z.of_nat (length times) |}
  end.

Definition _analyze_response_times (emails : list EmailMessage) : result response_stats :=
  times ← response_times emails;
  Ok (response_stats_of times).

(** ** The aggregator *)

(** The dict [analyze_emails] returns.  An entry whose value is a dict with
    fixed keys is [None] when that dict is the empty one. *)
Record results : Type := {
  total_emails : Z;
  date_range : string;
  total_size_mb : Qc;
  top_senders : list (string * Z);
  activity_by_time : gmap string Z;
  activity_by_day : gmap string Z;
  activity_by_hour : gmap Z Z;
  subject_analysis : option subject_stats;
  attachment_analysis : option attachment_stats;
  email_size_distribution : option size_stats;
  thread_analysis : option thread_stats;
  domain_analysis : option domain_stats;
  sentiment_analysis : option sentiment_stats;
  keyword_analysis : option keyword_stats;
  response_time_analysis : option response_stats
}.

Definition _empty_results : results :=
  {| total_emails := 0;
     date_range := "No emails";
     total_size_mb := 0%Qc;
     top_senders := [];
     activity_by_time := ∅;
     activity_by_day := ∅;
     activity_by_hour := ∅;
     subject_analysis := None;
     attachment_analysis := None;
     email_size_distribution := None;
     thread_analysis := None;
     domain_analysis := None;
     sentiment_analysis := None;
     keyword_analysis := None;
     response_time_analysis := None |}.

(** [analyze_emails] has no handler: the entries are evaluated in the order
    of the dict display, and an exception raised by one of them leaves the
    function. *)
Definition analyze_emails (emails : list EmailMessage) : result results :=
  match emails with
  | [] => Ok _empty_results
  | _ =>
      let total := Z.of_nat (length emails) in
      let range := _get_date_range emails in
      let total_size := _calculate_total_size emails in
      let senders := _analyze_senders emails in
      let by_time := _analyze_time_activity emails in
      let by_day := _analyze_daily_activity emails in
      let by_hour := _analyze_hourly_activity emails in
      let subjects := _analyze_subjects emails in
      let attachment := _analyze_attachments emails in
      let sizes := _analyze_size_distribution emails in
      let threads := _analyze_threads emails in
      let domains := _analyze_domains emails in
      let sentiments := _analyze_sentiment emails in
      let keywords := _analyze_keywords emails in
      response ← _analyze_response_times emails;
      Ok {| total_emails := total;
            date_range := range;
            total_size_mb := total_size;
            top_senders := senders;
            activity_by_time := by_time;
            activity_by_day := by_day;
            activity_by_hour := by_hour;
            subject_analysis := Some subjects;
            attachment_analysis := Some attachment;
            email_size_distribution := sizes;
            thread_analysis := Some threads;
            domain_analysis := Some domains;
            sentiment_analysis := Some sentiments;
            keyword_analysis := Some keywords;
            response_time_analysis := Some response |}
  end.

(** ** Vocabulary of the statements *)

(** The records of [emails] that have a timestamp in band [band]. *)
Definition in_time_band (band : string) (email : EmailMessage) : bool :=
  match date email with
  | Some d => bool_decide (time_band (hour d) = band)
  | None => false
  end.

Definition in_size_band (band : string) (email : EmailMessage) : bool :=
  bool_decide (size_band (size email) = band).

Definition time_bands : list string :=
  ["Morning (6-12)"; "Afternoon (12-17)"; "Evening (17-22)"; "Night (22-6)"].

Definition size_bands : list string :=
  ["Small (< 1KB)"; "Medium (1KB - 10KB)"; "Large (10KB - 100KB)";
   "Very Large (> 100KB)"].

(** The record has a timestamp. *)
Definition dated (email : EmailMessage) : bool :=
  match date email with
  | Some _ => true
  | None => false
  end.

(** [date_lt] on records that have a timestamp. *)
Definition email_before (y x : EmailMessage) : bool :=
  match date y, date x with
  | Some a, Some b => datetime_ltb a b
  | _, _ => false
  end.

(** A thread whose chronological sort fails: two members or more, one of
    them without a timestamp. *)
Definition unsortable (thread_emails : list EmailMessage) : bool :=
  (1 <? Z.of_nat (length thread_emails)) && negb (forallb dated thread_emails).

(** The hours from [d2] to [d1]. *)
Definition hours (d1 d2 : datetime) : Qc :=
  (Q2Qc (inject_Z (microseconds_between d1 d2) / inject_Z 1000000) / float 3600)%Qc.

(** The hours between consecutive timestamps. *)
Fixpoint gaps (ds : list datetime) : list Qc :=
  match ds with
  | previous :: ((current :: _) as rest) => hours current previous :: gaps rest
  | _ => []
  end.

(** The response times of a thread all of whose members have a
    timestamp. *)
Definition thread_gaps (thread_emails : list EmailMessage) : list Qc :=
  if 1 <? Z.of_nat (length thread_emails)
  then gaps (omap date (sort_by email_before thread_emails))
  else [].

(** What the response-time analysis gets from a group: whether its sort
    fails and, if not, its response times. *)
Definition thread_outcome (key : string) (thread_emails : list EmailMessage)
  : bool * list Qc :=
  (unsortable thread_emails,
   if unsortable thread_emails then [] else thread_gaps thread_emails).

(** Some thread of [emails] is [unsortable]. *)
Definition has_unsortable_thread (emails : list EmailMessage) : bool :=
  existsb (λ group, unsortable group.2) (thread_groups emails).

(** The [Counter] of the loop of [_analyze_subjects] and that of
    [_analyze_attachments]. *)
Definition subject_word_counter (emails : list EmailMessage) : list (string * Z) :=
  (subjects_loop emails).2.

Definition attachment_type_counter (emails : list EmailMessage) : list (string * Z) :=
  (attachments_loop emails).1.1.

(** The keys each record gives to the counters. *)
Definition sender_keys (email : EmailMessage) : list string :=
  if truthy (sender email) then [sender_key (sender email)] else [].

Definition domain_keys (email : EmailMessage) : list string :=
  if truthy (sender email)
  then match search_domain (sender email) with Some domain => [domain] | None => [] end
  else [].

Definition subject_words (email : EmailMessage) : list string :=
  if truthy (subject email) then findall_words (lower (subject email)) else [].

Definition subject_length (email : EmailMessage) : list Z :=
  if truthy (subject email) then [len (subject email)] else [].

Definition extensions (email : EmailMessage) : list string :=
  extension <$> attachments email.

(** No two keys of the counter have the same count. *)
Definition no_ties {K} (counter : list (K * Z)) : Prop := NoDup counter.*2.

(** The thread a record goes to: none when it has no subject. *)
Definition thread_of (email : EmailMessage) : option string :=
  if truthy (subject email) then Some (thread_key (subject email)) else None.

(** The records of [emails] that go to thread [key], in their order. *)
Definition thread_members (key : string) (emails : list EmailMessage)
  : list EmailMessage :=
  filter (λ email, thread_of email = Some key) emails.

(** Grouping as the specification words it: two records whose subjects
    become equal after stripping and lowering are in one group. *)
Definition groups_equal_keys (emails : list EmailMessage) : Prop :=
  ∀ e1 e2, e1 ∈ emails → e2 ∈ emails →
    thread_key (subject e1) = thread_key (subject e2) →
    ∃ key group, (key, group) ∈ thread_groups emails ∧ e1 ∈ group ∧ e2 ∈ group.

(** A group of two members or more. *)
Definition is_thread (group : string * list EmailMessage) : bool :=
  1 <? Z.of_nat (length group.2).

(** A reply or forward tag, in any case: what the prefix pattern accepts
    before the colon. *)
Definition is_tag (p : string) : Prop := lower p ∈ ["re"; "fwd"; "fw"].

(** A string of white space only. *)
Definition is_blank (ws : string) : Prop := forallb is_space (chars ws) = true.

(** The sum of the counts a histogram has under the keys [bands]. *)
Definition band_total (bands : list string) (histogram : gmap string Z) : Z :=
  foldr (λ band total, get0 band histogram + total) 0 bands.

(** The number of elements of [l] that satisfy [p]. *)
Definition count_if {A} (p : A → bool) (l : list A) : Z :=
  Z.of_nat (length (filter (λ x, p x = true) l)).

(** ** Sample inputs *)

Definition at_time (y m d h mi : Z) : datetime :=
  {| year := y; month := m; day := d; hour := h; minute := mi;
     second := 0; microsecond := 0 |}.

Definition message (subject sender : string) (date : option datetime) (size : Z)
  : EmailMessage :=
  {| subject := subject; sender := sender; date := date; body := EmptyString;
     attachments := []; size := size |}.

(** The three records of the end-to-end example. *)
Definition hello_thread : list EmailMessage :=
  [message "Hello" "a@x.com" (Some (at_time 2024 1 1 9 0)) 500;
   message "Re: Hello" "b@x.com" (Some (at_time 2024 1 1 15 0)) 2000;
   message "Re: Hello" "a@x.com" (Some (at_time 2024 1 2 9 0)) 50000].

(** The end-to-end example in another order. *)
Definition hello_shuffled : list EmailMessage := reverse hello_thread.

(** Two records of one thread, neither with a timestamp. *)
Definition undated_thread : list EmailMessage :=
  [message "Hello" "a@x.com" None 10; message "Re: Hello" "b@x.com" None 20].

(** A thread of two records, the reply without a timestamp. *)
Definition half_dated_thread : list EmailMessage :=
  [message "Budget Q1" "a@x.com" (Some (at_time 2024 3 4 10 30)) 1500;
   message "RE: budget q1" "b@x.com" None 2500].

(** Records with missing fields and no thread of two members. *)
Definition sparse_inbox : list EmailMessage :=
  [message EmptyString EmptyString None 700;
   message "Hello" EmptyString (Some (at_time 2024 1 1 5 0)) 1024;
   message "Re: Fwd: Hello" "Bob <bob@mail.example.org>" None 102400].

(** A record whose subject is nothing but a tag, and one without a
    subject: stripping and lowering gives the empty string for both. *)
Definition bare_reply : list EmailMessage :=
  [message "Re:" "a@x.com" (Some (at_time 2024 5 6 8 0)) 100;
   message EmptyString "b@x.com" (Some (at_time 2024 5 6 9 0)) 200].

(** The three subjects of the specification and a message of its own. *)
Definition budget_reply : EmailMessage :=
  message "Re: Budget Q1" "a@x.com" (Some (at_time 2024 3 4 10 30)) 1500.

Definition budget_shout : EmailMessage :=
  message "RE: budget q1" "b@x.com" (Some (at_time 2024 3 5 9 0)) 2500.

Definition budget_inbox : list EmailMessage :=
  [budget_reply;
   message "Lunch" "c@x.com" (Some (at_time 2024 3 4 12 0)) 300;
   budget_shout;
   message "Budget Q1" "a@x.com" (Some (at_time 2024 3 1 9 0)) 900].

(** What [analyze_emails] returns on an input on which it returns. *)
Definition returned (emails : list EmailMessage) : results :=
  match analyze_emails emails with
  | Ok r => r
  | Raise _ => _empty_results
  end.

(** The dict display of [analyze_emails], given its last entry. *)
Definition results_of (emails : list EmailMessage) (response : option response_stats)
  : results :=
  {| total_emails := Z.of_nat (length emails);
     date_range := _get_date_range emails;
     total_size_mb := _calculate_total_size emails;
     top_senders := _analyze_senders emails;
     activity_by_time := _analyze_time_activity emails;
     activity_by_day := _analyze_daily_activity emails;
     activity_by_hour := _analyze_hourly_activity emails;
     subject_analysis := Some (_analyze_subjects emails);
     attachment_analysis := Some (_analyze_attachments emails);
     email_size_distribution := _analyze_size_distribution emails;
     thread_analysis := Some (_analyze_threads emails);
     domain_analysis := Some (_analyze_domains emails);
     sentiment_analysis := Some (_analyze_sentiment emails);
     keyword_analysis := Some (_analyze_keywords emails);
     response_time_analysis := response |}.

(** The isolation of faults the specification asks for, for the one
    sub-statistic that can raise: when the response-time analysis raises,
    [analyze_emails] still returns, with the empty form in the place of the
    response times and the other entries computed. *)
Definition fault_isolated (emails : list EmailMessage) : Prop :=
  ∀ e, _analyze_response_times emails = Raise e →
       analyze_emails emails = Ok (results_of emails None).

(** ** Fetching the messages: [core.email_manager.EmailManager] *)

(** [re.findall]: the matches met from left to right, each search resuming
    where the last match ended (one character further after an empty
    match).  [skip] is the number of characters still covered by the last
    match. *)
Fixpoint findall (m : list ascii → option (list ascii)) (skip : nat) (l : list ascii)
  : list (list ascii) :=
  match skip, l with
  | S skip', _ :: l' => findall m skip' l'
  | S _, [] => []
  | O, [] => match m [] with Some x => [x] | None => [] end
  | O, _ :: l' =>
      match m l with
      | Some x => x :: findall m (pred (length x)) l'
      | None => findall m O l'
      end
  end.

Definition _parse_addresses (addresses : string) : list string :=
  if truthy addresses then str <$> findall match_address O (chars addresses) else [].

(** The index a slice bound [i] stands for in a sequence of length [n]. *)
Definition slice_index (n i : Z) : Z :=
  if i <? 0 then Z.max (n + i) 0 else Z.min i n.

(** [l[a:b]] *)
Definition slice {A} (l : list A) (a b : Z) : list A :=
  let n := Z.of_nat (length l) in
  let start := slice_index n a in
  let stop := slice_index n b in
  take (Z.to_nat (stop - start)) (drop (Z.to_nat start) l).

(** The window of [fetch_emails]: [uids] is the answer of the search. *)
Definition target_uids {U} (uids : list U) (limit offset : Z) : list U :=
  let start_idx := Z.max 0 (Z.of_nat (length uids) - offset - limit) in
  let end_idx := Z.of_nat (length uids) - offset in
  slice uids start_idx end_idx.

(** [fetch_emails] once the folder is selected and searched.  [fetch] is
    [_fetch_single_email], with [None] both for the [None] it returns and
    for an exception, which the loop catches: in either case the message
    is skipped. *)
Definition fetch_emails {U} (fetch : U → option EmailMessage) (uids : list U)
    (limit offset : Z) : list EmailMessage :=
  omap fetch (target_uids uids limit offset).

(** ** The charts: [visualizers.chart_manager.ChartManager] *)

(** What the chart functions compute from the bundle and hand over to the
    plotting library: the series of each chart, or [None] when the function
    returns without drawing because its entry of the bundle is empty. *)

(** The heights of the bars of [_create_daily_activity_chart]. *)
Definition daily_counts (results : results) : option (list Z) :=
  let daily_data := activity_by_day results in
  if decide (daily_data = ∅) then None
  else
    let days := ["Monday"; "Tuesday"; "Wednesday"; "Thursday"; "Friday";
                 "Saturday"; "Sunday"] in
    Some ((λ day, get0 day daily_data) <$> days).

(** The heights of the bars of [_create_hourly_activity_chart]. *)
Definition hourly_counts (results : results) : option (list Z) :=
  let hourly_data := activity_by_hour results in
  if decide (hourly_data = ∅) then None
  else
    let hours := seqZ 0 24 in
    Some ((λ hour, get0 hour hourly_data) <$> hours).

(** The bars of [_create_top_senders_chart]. *)
Definition top_10 (results : results) : option (list (string * Z)) :=
  match top_senders results with
  | [] => None
  | top => Some (take 10 top)
  end.

(** The two slices of the pie of [_create_attachment_chart]. *)
Definition attachment_sizes (results : results) : option (list Z) :=
  match attachment_analysis results with
  | None => None
  | Some attachment_data =>
      Some [emails_with_attachments attachment_data;
            total_emails results - emails_with_attachments attachment_data]
  end.

(** The heights of the three bars of [_create_sentiment_chart]. *)
Definition sentiment_counts (results : results) : option (list Z) :=
  match sentiment_analysis results with
  | None => None
  | Some sentiment_data =>
      Some [positive sentiment_data; negative sentiment_data; neutral sentiment_data]
  end.

(** ** Vocabulary of the further properties *)

(** The number of days of month [m] of year [y]. *)
Definition days_in_month (y m : Z) : Z :=
  if m =? 2 then (if is_leap y then 29 else 28)
  else if (m =? 4) || (m =? 6) || (m =? 9) || (m =? 11) then 30
  else 31.

(** What the constructor of [datetime] checks. *)
Definition valid_datetime (d : datetime) : Prop :=
  1 ≤ year d ≤ 9999 ∧ 1 ≤ month d ≤ 12 ∧
  1 ≤ day d ≤ days_in_month (year d) (month d) ∧
  0 ≤ hour d < 24 ∧ 0 ≤ minute d < 60 ∧ 0 ≤ second d < 60 ∧
  0 ≤ microsecond d < 1000000.

(** The timestamps of [emails] are [datetime] objects. *)
Definition valid_dates (emails : list EmailMessage) : Prop :=
  Forall (λ e, match date e with Some d => valid_datetime d | None => True end) emails.

(** The sum of the counts a histogram has under the keys [ks]. *)
Definition key_total `{Countable K} (ks : list K) (histogram : gmap K Z) : Z :=
  foldr (λ k total, get0 k histogram + total) 0 ks.

(** The record has a timestamp that falls on [day]. *)
Definition on_day (day : string) (email : EmailMessage) : bool :=
  match date email with
  | Some d => bool_decide (nth (Z.to_nat (weekday d)) day_names EmptyString = day)
  | None => false
  end.

(** The record has a timestamp at hour [h]. *)
Definition at_hour (h : Z) (email : EmailMessage) : bool :=
  match date email with
  | Some d => bool_decide (hour d = h)
  | None => false
  end.

(** The hours of a day that are in [band]. *)
Definition band_hours (band : string) : list Z :=
  filter (λ h, time_band h = band) (seqZ 0 24).

(** The record has a sender that is counted under [k]: the key is the
    first address in the sender string and, without one, the string. *)
Definition sent_by (k : string) (email : EmailMessage) : bool :=
  truthy (sender email) && bool_decide (sender_key (sender email) = k).

(** The record has a sender in which a domain is found, and the first one
    found is [k]. *)
Definition from_domain (k : string) (email : EmailMessage) : bool :=
  truthy (sender email) && bool_decide (search_domain (sender email) = Some k).

(** The record has a sender in which a domain is found. *)
Definition has_domain (email : EmailMessage) : bool :=
  truthy (sender email) && bool_decide (is_Some (search_domain (sender email))).

(** The record has an attachment. *)
Definition has_attachments (email : EmailMessage) : bool :=
  bool_decide (attachments email ≠ []).

(** The record is classified as [s]. *)
Definition classified (s : sentiment) (email : EmailMessage) : bool :=
  match classify email, s with
  | Positive, Positive | Negative, Negative | Neutral, Neutral => true
  | _, _ => false
  end.

(** * Properties *)

(** ** Histograms *)

(** The index into [day_names] is in range. *)
Lemma weekday_range (d : datetime) : 0 ≤ weekday d < 7.
Proof. unfold weekday. apply Z.mod_pos_bound. lia. Qed.

Lemma count_if_cons {A} (p : A → bool) (x : A) (l : list A) :
  count_if p (x :: l) = (if p x then 1 else 0) + count_if p l.
Proof.
  unfold count_if. rewrite filter_cons.
  destruct (p x); case_decide; try done; simpl; lia.
Qed.

Lemma count_if_ext {A} (p q : A → bool) (l : list A) :
  (∀ x, p x = q x) → count_if p l = count_if q l.
Proof.
  intros Hpq. induction l as [|x l IH]; [done|].
  by rewrite !count_if_cons, IH, Hpq.
Qed.

Lemma count_if_nonneg {A} (p : A → bool) (l : list A) : 0 ≤ count_if p l.
Proof. unfold count_if. lia. Qed.

Section histogram.
Context `{Countable K} {A : Type}.
Variable key : A → option K.
Variable step : gmap K Z → A → gmap K Z.
Hypothesis step_bump :
  ∀ m x, step m x = match key x with Some k => bump k m | None => m end.

Lemma get0_bump (k k' : K) (m : gmap K Z) :
  get0 k (bump k' m) = get0 k m + (if decide (k' = k) then 1 else 0).
Proof.
  unfold get0, bump. destruct (decide (k' = k)) as [->|Hne].
  - by rewrite lookup_insert_eq.
  - rewrite lookup_insert_ne by done. lia.
Qed.

(** A loop that bumps the key of each element counts, under each key, the
    elements that have it. *)
Lemma histogram_get0 (k : K) (l : list A) (m : gmap K Z) :
  get0 k (foldl step m l)
  = get0 k m + count_if (λ x, bool_decide (key x = Some k)) l.
Proof.
  revert m. induction l as [|x l IH]; intros m; simpl.
  - unfold count_if. simpl. lia.
  - rewrite IH, count_if_cons, step_bump.
    destruct (key x) as [k'|]; simpl.
    + rewrite get0_bump. destruct (decide (k' = k)) as [->|Hne].
      * rewrite bool_decide_eq_true_2 by done. lia.
      * rewrite bool_decide_eq_false_2 by congruence. lia.
    + lia.
Qed.

Lemma histogram_keys (P : K → Prop) (l : list A) (m : gmap K Z) :
  (∀ x k, key x = Some k → P k) →
  (∀ k, is_Some (m !! k) → P k) →
  ∀ k, is_Some (foldl step m l !! k) → P k.
Proof.
  intros Hkey. revert m. induction l as [|x l IH]; intros m Hm; [done|].
  simpl. apply IH. intros k. rewrite step_bump.
  destruct (key x) as [k'|] eqn:Hx; [|by apply Hm].
  unfold bump. rewrite lookup_insert. case_decide; subst; eauto.
Qed.

Lemma histogram_keeps_keys (k : K) (l : list A) (m : gmap K Z) :
  is_Some (m !! k) → is_Some (foldl step m l !! k).
Proof.
  revert m. induction l as [|x l IH]; intros m Hm; [done|].
  simpl. apply IH. rewrite step_bump.
  destruct (key x) as [k'|]; [|done].
  unfold bump. rewrite lookup_insert. case_decide; eauto.
Qed.
End histogram.

Lemma time_activity_get0 (band : string) (emails : list EmailMessage) :
  get0 band (_analyze_time_activity emails) = count_if (in_time_band band) emails.
Proof.
  unfold _analyze_time_activity.
  rewrite (histogram_get0 (λ e, (λ d, time_band (hour d)) <$> date e)).
  - unfold get0. rewrite lookup_empty. simpl.
    apply count_if_ext. intros e. unfold in_time_band.
    destruct (date e) as [d|]; simpl; [|done].
    apply bool_decide_ext. split; congruence.
  - intros m e. by destruct (date e).
Qed.

Lemma size_ranges0_keys (band : string) :
  is_Some (size_ranges0 !! band) ↔ band ∈ size_bands.
Proof.
  unfold size_ranges0, dict, size_bands. simpl.
  rewrite !elem_of_cons, elem_of_nil.
  repeat (rewrite lookup_insert; case_decide; [subst; split; [tauto|eauto]|]).
  rewrite lookup_empty. split; [by intros [? ?]|intros; exfalso; intuition congruence].
Qed.

Lemma size_ranges0_get0 (band : string) : get0 band size_ranges0 = 0.
Proof.
  unfold get0, size_ranges0, dict. simpl.
  repeat (rewrite lookup_insert; case_decide; [done|]).
  by rewrite lookup_empty.
Qed.

Lemma count_if_fmap {A B} (f : A → B) (p : B → bool) (l : list A) :
  count_if p (f <$> l) = count_if (λ x, p (f x)) l.
Proof.
  induction l as [|x l IH]; [done|].
  by rewrite fmap_cons, !count_if_cons, IH.
Qed.

Lemma size_ranges_get0 (band : string) (emails : list EmailMessage) :
  get0 band (foldl (λ ranges size, bump (size_band size) ranges)
                   size_ranges0 (size <$> emails))
  = count_if (in_size_band band) emails.
Proof.
  rewrite (histogram_get0 (λ s, Some (size_band s))) by done.
  rewrite size_ranges0_get0, count_if_fmap, Z.add_0_l.
  apply count_if_ext. intros e. unfold in_size_band.
  apply bool_decide_ext. split; congruence.
Qed.

Lemma size_band_cases (n : Z) :
  (n < 1024 ∧ size_band n = "Small (< 1KB)") ∨
  (1024 ≤ n < 10240 ∧ size_band n = "Medium (1KB - 10KB)") ∨
  (10240 ≤ n < 102400 ∧ size_band n = "Large (10KB - 100KB)") ∨
  (102400 ≤ n ∧ size_band n = "Very Large (> 100KB)").
Proof.
  unfold size_band.
  destruct (Z.ltb_spec n 1024), (Z.ltb_spec n (10 * 1024)),
    (Z.ltb_spec n (100 * 1024)); simpl;
    first [lia | by (left; split; [lia|]) | by (right; left; split; [lia|])
          | by (right; right; left; split; [lia|])
          | by (right; right; right; split; [lia|])].
Qed.

Lemma size_ranges_keys (band : string) (emails : list EmailMessage) :
  is_Some (foldl (λ ranges size, bump (size_band size) ranges)
                 size_ranges0 (size <$> emails) !! band)
  ↔ band ∈ size_bands.
Proof.
  split.
  - revert band.
    apply (histogram_keys (λ s, Some (size_band s))); [done| |].
    + intros s k [= <-]. unfold size_bands. rewrite !elem_of_cons.
      destruct (size_band_cases s) as [[_ ->]|[[_ ->]|[[_ ->]|[_ ->]]]]; tauto.
    + intros k. apply size_ranges0_keys.
  - intros Hband.
    apply (histogram_keeps_keys (λ s, Some (size_band s))); [done|].
    by apply size_ranges0_keys.
Qed.

Lemma time_band_cases (h : Z) :
  (6 ≤ h < 12 ∧ time_band h = "Morning (6-12)") ∨
  (12 ≤ h < 17 ∧ time_band h = "Afternoon (12-17)") ∨
  (17 ≤ h < 22 ∧ time_band h = "Evening (17-22)") ∨
  ((h < 6 ∨ 22 ≤ h) ∧ time_band h = "Night (22-6)").
Proof.
  unfold time_band.
  destruct (Z.leb_spec 6 h), (Z.ltb_spec h 12), (Z.leb_spec 12 h),
    (Z.ltb_spec h 17), (Z.leb_spec 17 h), (Z.ltb_spec h 22); simpl;
    first [lia | by (left; split; [lia|]) | by (right; left; split; [lia|])
          | by (right; right; left; split; [lia|])
          | by (right; right; right; split; [lia|])].
Qed.

(** C6.  Time-of-day activity counts, under each of the four band names,
    the records whose timestamp has its hour in that band: Morning is
    [6,12), Afternoon [12,17), Evening [17,22) and Night every other hour,
    which for the hours of a day is [22,24) and [0,6); the result has no
    other key.  Hours 5, 6, 11 and 12 fall in Night, Morning, Morning and
    Afternoon. *)
Theorem time_of_day_bands (emails : list EmailMessage) (h : Z) :
  (∀ band, get0 band (_analyze_time_activity emails)
           = count_if (in_time_band band) emails) ∧
  (∀ band, is_Some (_analyze_time_activity emails !! band) → band ∈ time_bands) ∧
  (time_band h = "Morning (6-12)" ↔ 6 ≤ h < 12) ∧
  (time_band h = "Afternoon (12-17)" ↔ 12 ≤ h < 17) ∧
  (time_band h = "Evening (17-22)" ↔ 17 ≤ h < 22) ∧
  (time_band h = "Night (22-6)" ↔ h < 6 ∨ 22 ≤ h) ∧
  time_band 5 = "Night (22-6)" ∧ time_band 6 = "Morning (6-12)" ∧
  time_band 11 = "Morning (6-12)" ∧ time_band 12 = "Afternoon (12-17)".
Proof.
  split; [intros band; apply time_activity_get0|].
  split.
  { unfold _analyze_time_activity.
    apply (histogram_keys (λ e, (λ d, time_band (hour d)) <$> date e)).
    - intros m e. by destruct (date e).
    - intros e k. destruct (date e) as [d|]; [|done]. intros [= <-].
      unfold time_bands.
      rewrite !elem_of_cons.
      destruct (time_band_cases (hour d)) as [[_ ->]|[[_ ->]|[[_ ->]|[_ ->]]]];
        tauto.
    - intros k. rewrite lookup_empty. by intros [? ?]. }
  split_and!; try done;
    destruct (time_band_cases h) as [[? Hb]|[[? Hb]|[[? Hb]|[? Hb]]]];
    rewrite Hb; (split; [intros ?; first [lia | done] | intros ?; first [done | lia]]).
Qed.

(** C7.  The size distribution counts, under each of the four band names,
    the records whose size is in that band: Small below 1024, Medium
    [1024,10240), Large [10240,102400) and Very Large from 102400 on.  Size
    1024 is Medium and size 102400 is Very Large. *)
Theorem size_bands_fixed (emails : list EmailMessage) (n : Z) :
  match emails with
  | [] => _analyze_size_distribution emails = None
  | _ =>
      ∃ stats, _analyze_size_distribution emails = Some stats ∧
        (∀ band, get0 band (size_ranges stats) = count_if (in_size_band band) emails) ∧
        (∀ band, is_Some (size_ranges stats !! band) ↔ band ∈ size_bands)
  end ∧
  (size_band n = "Small (< 1KB)" ↔ n < 1024) ∧
  (size_band n = "Medium (1KB - 10KB)" ↔ 1024 ≤ n < 10240) ∧
  (size_band n = "Large (10KB - 100KB)" ↔ 10240 ≤ n < 102400) ∧
  (size_band n = "Very Large (> 100KB)" ↔ 102400 ≤ n) ∧
  size_band 1024 = "Medium (1KB - 10KB)" ∧
  size_band 102400 = "Very Large (> 100KB)".
Proof.
  split.
  { destruct emails as [|e emails]; [done|].
    eexists. split; [reflexivity|]. split; intros band.
    - apply (size_ranges_get0 band (e :: emails)).
    - apply (size_ranges_keys band (e :: emails)). }
  split_and!; try done;
    destruct (size_band_cases n) as [[? Hb]|[[? Hb]|[[? Hb]|[? Hb]]]];
    rewrite Hb; (split; [intros ?; first [lia | done] | intros ?; first [done | lia]]).
Qed.

(** ** Exceptions of the response-time analysis *)

Lemma bind_Ok {A B} (f : A → result B) (a : A) : (Ok a ≫= f) = f a.
Proof. done. Qed.

Lemma insert_by_Permutation {A} (before : A → A → bool) (x : A) (l : list A) :
  insert_by before x l ≡ₚ x :: l.
Proof.
  induction l as [|y l IH]; simpl; [done|].
  destruct (before y x); [|done].
  rewrite IH. apply Permutation_swap.
Qed.

Lemma sort_by_Permutation {A} (before : A → A → bool) (l : list A) :
  sort_by before l ≡ₚ l.
Proof.
  induction l as [|x l IH]; simpl; [done|].
  unfold sort_by in *. by rewrite insert_by_Permutation, IH.
Qed.

Lemma forallb_Permutation {A} (p : A → bool) (l l' : list A) :
  l ≡ₚ l' → forallb p l = forallb p l'.
Proof.
  induction 1 as [|x l l' _ IH|x y l|l l' l'' _ IH1 _ IH2]; simpl;
    [done|by rewrite IH|by destruct (p x), (p y)|congruence].
Qed.

Lemma insert_byM_dated (x : EmailMessage) (l : list EmailMessage) :
  dated x = true → forallb dated l = true →
  insert_byM date_lt x l = Ok (insert_by email_before x l).
Proof.
  intros Hx. induction l as [|y l IH]; simpl; [done|].
  intros [Hy Hl]%andb_prop.
  assert (date_lt y x = Ok (email_before y x)) as ->.
  { unfold date_lt, email_before, dated in *. by destruct (date y), (date x). }
  rewrite bind_Ok. destruct (email_before y x); [|done].
  by rewrite IH.
Qed.

Lemma insert_byM_undated (x y : EmailMessage) (l : list EmailMessage) :
  dated x && dated y = false → insert_byM date_lt x (y :: l) = Raise TypeError.
Proof.
  simpl. unfold date_lt, dated. by destruct (date y), (date x).
Qed.

(** The chronological sort of a thread: it raises exactly on the threads
    that are [unsortable]. *)
Lemma sort_byM_date (l : list EmailMessage) :
  sort_byM date_lt l =
    if unsortable l then Raise TypeError
    else if forallb dated l then Ok (sort_by email_before l) else Ok l.
Proof.
  induction l as [|x l IH]; [done|].
  unfold sort_byM in *. simpl foldr. rewrite IH. clear IH.
  destruct l as [|y l]; [simpl; by destruct (dated x)|].
  unfold unsortable.
  replace (1 <? Z.of_nat (length (x :: y :: l))) with true
    by (symmetry; apply Z.ltb_lt; simpl; lia).
  destruct l as [|z l].
  - change (1 <? Z.of_nat (length [y])) with false.
    change (sort_by email_before [y]) with [y].
    change (sort_by email_before [x; y]) with (insert_by email_before x [y]).
    simpl forallb.
    destruct (dated x) eqn:Hx, (dated y) eqn:Hy; cbn [andb negb]; rewrite bind_Ok;
      first [ apply insert_byM_dated; simpl; by rewrite ?Hx, ?Hy
            | apply insert_byM_undated; by rewrite Hx, Hy ].
  - replace (1 <? Z.of_nat (length (y :: z :: l))) with true
      by (symmetry; apply Z.ltb_lt; simpl; lia).
    rewrite !andb_true_l.
    change (forallb dated (x :: y :: z :: l))
      with (dated x && forallb dated (y :: z :: l)).
    destruct (forallb dated (y :: z :: l)) eqn:Hl; simpl negb.
    + cbv iota. rewrite bind_Ok, andb_true_r.
      destruct (dated x) eqn:Hx; simpl negb; cbv iota.
      * apply insert_byM_dated; [done|].
        by rewrite (forallb_Permutation _ _ _ (sort_by_Permutation _ _)).
      * destruct (sort_by email_before (y :: z :: l)) as [|w s] eqn:Hs.
        { apply (f_equal length) in Hs.
          rewrite (Permutation_length (sort_by_Permutation _ _)) in Hs. done. }
        apply insert_byM_undated. by rewrite Hx.
    + rewrite andb_false_r. done.
Qed.

Lemma deltas_dated (l : list EmailMessage) :
  forallb dated l = true → deltas l = Ok (gaps (omap date l)).
Proof.
  induction l as [|x l IH]; [done|].
  destruct l as [|y l]; simpl.
  { unfold dated. by destruct (date x). }
  intros [Hx [Hy Hl]%andb_prop]%andb_prop. unfold dated in Hx, Hy.
  destruct (date x) as [dx|] eqn:Ex; [|done].
  destruct (date y) as [dy|] eqn:Ey; [|done].
  simpl in IH. rewrite Ey in IH. unfold dated in IH at 1. rewrite Ey in IH.
  rewrite IH by done. done.
Qed.

Lemma thread_deltas_eq (thread_emails : list EmailMessage) :
  thread_deltas thread_emails =
    if unsortable thread_emails then Raise TypeError
    else Ok (thread_gaps thread_emails).
Proof.
  unfold thread_deltas, thread_gaps, unsortable.
  destruct (1 <? Z.of_nat (length thread_emails)) eqn:Hlen; [|done].
  rewrite sort_byM_date. unfold unsortable. rewrite Hlen. simpl.
  destruct (forallb dated thread_emails) eqn:Hdated; simpl; [|done].
  apply deltas_dated.
  by rewrite (forallb_Permutation _ _ _ (sort_by_Permutation _ _)).
Qed.

Lemma response_times_foldl (groups : list (string * list EmailMessage)) (acc : list Qc) :
  foldl (λ acc group,
           times ← acc; more ← thread_deltas group.2; Ok (times ++ more))
        (Ok acc) groups =
    if existsb (λ group, unsortable group.2) groups then Raise TypeError
    else Ok (acc ++ concat ((λ group, thread_gaps group.2) <$> groups)).
Proof.
  revert acc. induction groups as [|g groups IH]; intros acc; simpl.
  { by rewrite app_nil_r. }
  rewrite thread_deltas_eq.
  destruct (unsortable g.2); simpl.
  - clear IH. induction groups as [|g' groups IH]; [done|]. by simpl.
  - by rewrite IH, app_assoc.
Qed.

(** The response-time analysis raises exactly when some thread is
    unsortable; otherwise its samples are the gaps of the threads, in the
    order of the threads. *)
Lemma response_times_eq (emails : list EmailMessage) :
  response_times emails =
    if has_unsortable_thread emails then Raise TypeError
    else Ok (concat ((λ group, thread_gaps group.2) <$> thread_groups emails)).
Proof. unfold response_times. by rewrite response_times_foldl. Qed.

(** ** The aggregator *)

Lemma analyze_emails_eq (emails : list EmailMessage) :
  analyze_emails emails =
    match emails with
    | [] => Ok _empty_results
    | _ => response ← _analyze_response_times emails; Ok (results_of emails (Some response))
    end.
Proof. by destruct emails. Qed.

Lemma _analyze_response_times_eq (emails : list EmailMessage) :
  _analyze_response_times emails =
    if has_unsortable_thread emails then Raise TypeError
    else Ok (response_stats_of
               (concat ((λ group, thread_gaps group.2) <$> thread_groups emails))).
Proof.
  unfold _analyze_response_times. rewrite response_times_eq.
  by destruct (has_unsortable_thread emails).
Qed.

(** [analyze_emails] raises exactly on the inputs that have an unsortable
    thread. *)
Lemma analyze_emails_cases (emails : list EmailMessage) :
  analyze_emails emails =
    if has_unsortable_thread emails then Raise TypeError
    else Ok (returned emails).
Proof.
  unfold returned. rewrite analyze_emails_eq.
  destruct emails as [|e emails]; [done|].
  rewrite _analyze_response_times_eq.
  by destruct (has_unsortable_thread (e :: emails)).
Qed.

Lemma foldl_add (a : Z) (l : list Z) : foldl Z.add a l = a + foldr Z.add 0 l.
Proof.
  revert a. induction l as [|x l IH]; intros a; simpl; [lia|].
  rewrite IH. lia.
Qed.

Lemma sumZ_foldr (l : list Z) : sumZ l = foldr Z.add 0 l.
Proof. unfold sumZ. by rewrite foldl_add. Qed.

Lemma zero_mb : pydiv 0 (1024 * 1024) = 0%Qc.
Proof. by apply Qc_is_canon. Qed.



(** C2.  A record without a timestamp in a thread of two members makes
    [analyze_emails] raise [TypeError]: the chronological sort of the
    response-time analysis compares [None] with a [datetime]. *)
Theorem missing_timestamp_in_thread_raises :
  has_unsortable_thread half_dated_thread = true ∧
  _get_date_range half_dated_thread = "2024-03-04 to 2024-03-04" ∧
  _analyze_response_times half_dated_thread = Raise TypeError ∧
  analyze_emails half_dated_thread = Raise TypeError.
Proof. by vm_compute. Qed.

(** C3, in the form that holds.  On the empty input [analyze_emails] returns the
    empty bundle: [total_emails] is 0, [date_range] is the string
    No emails, [total_size_mb] is 0, [top_senders] is the empty list and
    each of the eleven other entries is the empty dict; the entry
    [sentiment_analysis] in particular holds no percentage. *)
Theorem empty_input_bundle :
  ∃ r, analyze_emails [] = Ok r ∧
    total_emails r = 0 ∧ date_range r = "No emails" ∧
    total_size_mb r = 0%Qc ∧ top_senders r = [] ∧
    activity_by_time r = ∅ ∧ activity_by_day r = ∅ ∧ activity_by_hour r = ∅ ∧
    subject_analysis r = None ∧ attachment_analysis r = None ∧
    email_size_distribution r = None ∧ thread_analysis r = None ∧
    domain_analysis r = None ∧ sentiment_analysis r = None ∧
    keyword_analysis r = None ∧ response_time_analysis r = None ∧
    positive_percentage <$> sentiment_analysis r = None ∧
    negative_percentage <$> sentiment_analysis r = None ∧
    neutral_percentage <$> sentiment_analysis r = None.
Proof. exists _empty_results. by split_and!. Qed.

(** C3, the counterexample: the bundle of the empty input has no sentiment
    percentage equal to 0, its [sentiment_analysis] being the empty dict. *)
Lemma empty_input_has_no_percentage :
  ¬ ∃ r, analyze_emails [] = Ok r ∧
         positive_percentage <$> sentiment_analysis r = Some 0%Qc ∧
         negative_percentage <$> sentiment_analysis r = Some 0%Qc ∧
         neutral_percentage <$> sentiment_analysis r = Some 0%Qc.
Proof. intros (r & [= <-] & Hpositive & _). discriminate Hpositive. Qed.

(** C4.  In the bundle [analyze_emails] returns, [total_emails] is the
    number of input records and [total_size_mb] is the sum of their sizes
    divided by 1,048,576, whatever the other fields of the records are. *)
Theorem total_count_and_size (emails : list EmailMessage) (r : results) :
  analyze_emails emails = Ok r →
  total_emails r = Z.of_nat (length emails) ∧
  total_size_mb r = (float (foldr Z.add 0%Z (size <$> emails)) / float 1048576)%Qc.
Proof.
  rewrite analyze_emails_eq. destruct emails as [|e emails].
  - intros [= <-]. split; [done|]. symmetry. apply zero_mb.
  - destruct (_analyze_response_times (e :: emails)) as [response|]; [|done].
    intros [= <-]. split; [done|].
    cbn [total_size_mb results_of]. unfold _calculate_total_size.
    by rewrite sumZ_foldr.
Qed.

Lemma total_count_and_size_witness :
  analyze_emails sparse_inbox = Ok (returned sparse_inbox) ∧
  total_emails (returned sparse_inbox) = 3 ∧
  total_size_mb (returned sparse_inbox)
  = (float (700 + 1024 + 102400)%Z / float 1048576)%Qc.
Proof.
  assert (analyze_emails sparse_inbox = Ok (returned sparse_inbox)) as Hreturned
    by (vm_compute; reflexivity).
  split; [exact Hreturned|].
  exact (total_count_and_size sparse_inbox (returned sparse_inbox) Hreturned).
Defined.

(** ** Band totals *)

Lemma size_band_partition (emails : list EmailMessage) :
  foldr (λ band total, count_if (in_size_band band) emails + total) 0 size_bands
  = Z.of_nat (length emails).
Proof.
  induction emails as [|e emails IH]; [done|].
  simpl in *. rewrite !count_if_cons. unfold in_size_band at 1 3 5 7.
  destruct (size_band_cases (size e)) as [[_ ->]|[[_ ->]|[[_ ->]|[_ ->]]]];
    simpl; lia.
Qed.

Lemma time_band_partition (emails : list EmailMessage) :
  foldr (λ band total, count_if (in_time_band band) emails + total) 0 time_bands
  = count_if dated emails.
Proof.
  induction emails as [|e emails IH]; [done|].
  simpl in *. rewrite !count_if_cons. unfold in_time_band at 1 3 5 7, dated at 1.
  destruct (date e) as [d|]; [|lia].
  destruct (time_band_cases (hour d)) as [[_ ->]|[[_ ->]|[[_ ->]|[_ ->]]]];
    simpl; lia.
Qed.

(** C9.  For an input that is not empty, the counts of the four size bands
    add up to [total_emails], and the counts of the four time-of-day bands
    add up to the number of records that have a timestamp. *)
Theorem band_counts_add_up (emails : list EmailMessage) (r : results) :
  emails ≠ [] → analyze_emails emails = Ok r →
  (∃ stats, email_size_distribution r = Some stats ∧
            band_total size_bands (size_ranges stats) = total_emails r) ∧
  band_total time_bands (activity_by_time r) = count_if dated emails.
Proof.
  intros Hne. rewrite analyze_emails_eq.
  destruct emails as [|e emails]; [done|].
  destruct (_analyze_response_times (e :: emails)) as [response|]; [|done].
  intros [= <-]. cbn [email_size_distribution activity_by_time total_emails results_of].
  split.
  - eexists. split; [reflexivity|]. cbn [size_ranges].
    unfold band_total, size_bands. cbn [foldr].
    rewrite !(size_ranges_get0 _ (e :: emails)).
    apply (size_band_partition (e :: emails)).
  - unfold band_total, time_bands. cbn [foldr].
    rewrite !time_activity_get0.
    apply (time_band_partition (e :: emails)).
Qed.

Lemma band_counts_add_up_witness :
  sparse_inbox ≠ [] ∧
  analyze_emails sparse_inbox = Ok (returned sparse_inbox) ∧
  (∃ stats, email_size_distribution (returned sparse_inbox) = Some stats ∧
            band_total size_bands (size_ranges stats) = 3) ∧
  band_total time_bands (activity_by_time (returned sparse_inbox)) = 1.
Proof.
  assert (sparse_inbox ≠ []) as Hne by done.
  assert (analyze_emails sparse_inbox = Ok (returned sparse_inbox)) as Hreturned
    by (vm_compute; reflexivity).
  split; [exact Hne|]. split; [exact Hreturned|].
  exact (band_counts_add_up sparse_inbox (returned sparse_inbox) Hne Hreturned).
Defined.

(** ** Thread keys *)

Lemma chars_app (a b : string) : chars (a +:+ b) = chars a ++ chars b.
Proof. induction a as [|c a IH]; [done|]. simpl. by rewrite <-IH. Qed.

Lemma chars_str (l : list ascii) : chars (str l) = l.
Proof. apply String.list_ascii_of_string_of_list_ascii. Qed.

Lemma str_chars (s : string) : str (chars s) = s.
Proof. apply String.string_of_list_ascii_of_string. Qed.

Lemma chars_length (s : string) : length (chars s) = String.length s.
Proof. induction s as [|c s IH]; [done|]. simpl. by rewrite IH. Qed.

Lemma lower_length (s : string) : String.length (lower s) = String.length s.
Proof.
  unfold lower. by rewrite <-!chars_length, chars_str, length_map.
Qed.

Lemma lower_char_r (c : ascii) :
  lower_char c = "r"%char → c = "r"%char ∨ c = "R"%char.
Proof. destruct c as [[] [] [] [] [] [] [] []]; vm_compute; intros [=]; auto. Qed.

Lemma lower_char_f (c : ascii) :
  lower_char c = "f"%char → c = "f"%char ∨ c = "F"%char.
Proof. destruct c as [[] [] [] [] [] [] [] []]; vm_compute; intros [=]; auto. Qed.

(** The characters of a tag: their number and the first of them. *)
Lemma is_tag_chars (p : string) :
  is_tag p →
  ∃ c l, chars p = c :: l ∧ is_space c = false ∧
         (map lower_char (c :: l) = chars "re" ∨
          map lower_char (c :: l) = chars "fwd" ∨
          map lower_char (c :: l) = chars "fw").
Proof.
  unfold is_tag, lower. rewrite !elem_of_cons, elem_of_nil.
  intros Htag.
  assert (map lower_char (chars p) = chars "re" ∨
          map lower_char (chars p) = chars "fwd" ∨
          map lower_char (chars p) = chars "fw") as Hmap.
  { destruct Htag as [Ht|[Ht|[Ht|[]]]]; apply (f_equal chars) in Ht;
      rewrite chars_str in Ht; auto. }
  destruct (chars p) as [|c l]; [by destruct Hmap as [?|[?|?]]|].
  exists c, l. split; [done|]. split; [|done].
  destruct Hmap as [Hm|[Hm|Hm]]; injection Hm as Hc _;
    [apply lower_char_r in Hc|apply lower_char_f in Hc|apply lower_char_f in Hc];
    by destruct Hc as [->| ->].
Qed.

Lemma match_prefix_tag (p : list ascii) (tail : list ascii) :
  map lower_char p = chars "re" ∨ map lower_char p = chars "fwd" ∨
  map lower_char p = chars "fw" →
  match_prefix (p ++ ":"%char :: tail) = Some tail.
Proof.
  intros [Hp|[Hp|Hp]].
  - destruct p as [|c1 [|c2 [|? ?]]]; try done.
    injection Hp as H1 H2. unfold match_prefix. simpl.
    by rewrite !bool_decide_eq_true_2.
  - destruct p as [|c1 [|c2 [|c3 [|? ?]]]]; try done.
    injection Hp as H1 H2 H3. unfold match_prefix. simpl.
    rewrite (bool_decide_eq_false_2 (lower_char c1 = "r"%char)) by (by rewrite H1).
    by rewrite !bool_decide_eq_true_2.
  - destruct p as [|c1 [|c2 [|? ?]]]; try done.
    injection Hp as H1 H2. unfold match_prefix. simpl.
    rewrite (bool_decide_eq_false_2 (lower_char c1 = "r"%char)) by (by rewrite H1).
    rewrite (bool_decide_eq_true_2 (lower_char c1 = "f"%char)) by done.
    rewrite (bool_decide_eq_true_2 (lower_char c2 = "w"%char)) by done.
    by rewrite ?bool_decide_eq_true_2.
Qed.

Lemma span_blank (ws l : list ascii) (c : ascii) :
  forallb is_space ws = true → is_space c = false →
  span is_space (ws ++ c :: l) = (ws, c :: l).
Proof.
  intros Hws Hc. induction ws as [|w ws IH]; simpl.
  - by rewrite Hc.
  - simpl in Hws. apply andb_prop in Hws as [-> Hws]. by rewrite IH.
Qed.

Lemma span_length {A} (p : A → bool) (l : list A) :
  (length (span p l).2 ≤ length l)%nat.
Proof.
  induction l as [|x l IH]; simpl; [done|].
  destruct (p x); [|simpl; lia]. destruct (span p l). simpl in *. lia.
Qed.

Lemma starts_with_ci_length (p l rest : list ascii) :
  starts_with_ci p l = Some rest → (length rest ≤ length l)%nat.
Proof.
  revert l. induction p as [|a p IH]; intros [|b l]; simpl; try done.
  - by intros [= <-].
  - by intros [= <-].
  - case_bool_decide; [|done]. intros Hrest%IH. lia.
Qed.

Lemma match_prefix_length (l rest : list ascii) :
  match_prefix l = Some rest → (length rest ≤ length l)%nat.
Proof.
  unfold match_prefix. generalize prefixes. intros ps.
  induction ps as [|p ps IH]; simpl; [done|].
  destruct (starts_with_ci (chars p) l) eqn:Hp; [|done].
  intros [= <-]. by eapply starts_with_ci_length.
Qed.

Lemma strip_prefix_length (s : string) :
  (String.length (strip_prefix s) ≤ String.length s)%nat.
Proof.
  unfold strip_prefix. destruct (match_prefix (chars s)) as [rest|] eqn:Hm; [|done].
  rewrite <-!chars_length, chars_str.
  etrans; [apply span_length|]. by apply match_prefix_length.
Qed.

(** The key of a subject with a tag in front: the tag, its colon and the
    white space after it are gone, and nothing else. *)
Lemma thread_key_tagged (p ws rest : string) (c : ascii) :
  is_tag p → is_blank ws → is_space c = false →
  thread_key (p +:+ ":" +:+ ws +:+ String c rest) = lower (String c rest).
Proof.
  intros (c1 & l1 & Hp & _ & Hmap)%is_tag_chars Hws Hc.
  unfold thread_key, strip_prefix.
  rewrite chars_app. change (chars (":" +:+ ?x)) with (":"%char :: chars x).
  rewrite match_prefix_tag by (by rewrite Hp).
  rewrite chars_app. change (chars (String c rest)) with (c :: chars rest).
  rewrite span_blank by done. simpl. by rewrite str_chars.
Qed.

(** ** Ordered dicts *)

Section ordered_dict_facts.
Context {K : Type} `{EqDecision K} {V : Type}.
Implicit Types (d : list (K * V)) (k : K) (f : option V → V).

Lemma assoc_upsert f k k' d :
  assoc k' (upsert f k d) = if decide (k = k') then Some (f (assoc k d)) else assoc k' d.
Proof.
  induction d as [|[k0 v] d IH]; simpl.
  - done.
  - destruct (decide (k0 = k)) as [->|Hne]; simpl.
    + by destruct (decide (k = k')).
    + rewrite IH. destruct (decide (k0 = k')) as [->|]; [|done].
      by rewrite decide_False.
Qed.

Lemma assoc_None k d : assoc k d = None ↔ k ∉ d.*1.
Proof.
  induction d as [|[k0 v] d IH]; simpl.
  - split; [intros _; apply not_elem_of_nil|done].
  - rewrite not_elem_of_cons. case_decide; subst; [split; [done|tauto]|].
    rewrite IH. split; [auto|tauto].
Qed.

Lemma assoc_Some k v d : NoDup d.*1 → assoc k d = Some v ↔ (k, v) ∈ d.
Proof.
  induction d as [|[k0 v0] d IH]; simpl.
  - intros _. split; [done|]. by intros ?%elem_of_nil.
  - intros [Hk0 Hd]%NoDup_cons. rewrite elem_of_cons. case_decide; subst.
    + split; [intros [= ->]; by left|].
      intros [[= ->]|Hin]; [done|].
      destruct Hk0. apply list_elem_of_fmap. by exists (k, v).
    + rewrite IH by done. split; [auto|]. intros [[= -> ->]|?]; done.
Qed.

Lemma upsert_keys f k d :
  (upsert f k d).*1 = if decide (k ∈ d.*1) then d.*1 else d.*1 ++ [k].
Proof.
  induction d as [|[k0 v] d IH]; [done|].
  change (((k0, v) :: d).*1) with (k0 :: d.*1). cbn [upsert].
  destruct (decide (k0 = k)) as [->|Hne].
  - rewrite decide_True by left. done.
  - rewrite fmap_cons, IH. cbn [fst].
    destruct (decide (k ∈ d.*1)) as [Hin|Hnin].
    + rewrite decide_True by (by right). done.
    + rewrite decide_False; [done|]. rewrite elem_of_cons. intros [?|?]; congruence.
Qed.

Lemma upsert_NoDup f k d : NoDup d.*1 → NoDup (upsert f k d).*1.
Proof.
  intros Hd. rewrite upsert_keys. case_decide as Hin; [done|].
  apply NoDup_app. split_and!; [done| |apply NoDup_singleton].
  intros k' Hk' ->%list_elem_of_singleton. done.
Qed.

Lemma NoDup_keys d : NoDup d.*1 → NoDup d.
Proof. apply NoDup_fmap_1. Qed.

(** Two dicts with the same lookups have the same items. *)
Lemma same_assoc_Permutation d d' :
  NoDup d.*1 → NoDup d'.*1 → (∀ k, assoc k d = assoc k d') → d ≡ₚ d'.
Proof.
  intros Hd Hd' Hassoc. apply NoDup_Permutation; [by apply NoDup_keys..|].
  intros [k v]. by rewrite <-!assoc_Some, Hassoc.
Qed.
End ordered_dict_facts.

(** ** Grouping loops *)

Section grouping.
Context {K : Type} `{EqDecision K} {A : Type}.
Variable key : A → option K.
Variable step : list (K * list A) → A → list (K * list A).
Hypothesis step_append :
  ∀ g x, step g x = match key x with Some k => append_to k x g | None => g end.

Lemma grouping_assoc (k : K) (l : list A) (g : list (K * list A)) :
  assoc k (foldl step g l) =
    match assoc k g with
    | Some xs => Some (xs ++ filter (λ x, key x = Some k) l)
    | None => match filter (λ x, key x = Some k) l with [] => None | ms => Some ms end
    end.
Proof.
  revert g. induction l as [|x l IH]; intros g; simpl.
  { destruct (assoc k g); [by rewrite app_nil_r|done]. }
  rewrite IH, step_append. rewrite filter_cons.
  destruct (key x) as [k'|] eqn:Hx.
  - unfold append_to. rewrite assoc_upsert.
    destruct (decide (k' = k)) as [->|Hne].
    + rewrite decide_True by done.
      destruct (assoc k g); simpl; [by rewrite <-app_assoc|done].
    + rewrite decide_False by congruence. done.
  - rewrite decide_False by done. done.
Qed.

Lemma grouping_NoDup (l : list A) (g : list (K * list A)) :
  NoDup g.*1 → NoDup (foldl step g l).*1.
Proof.
  revert g. induction l as [|x l IH]; intros g Hg; simpl; [done|].
  apply IH. rewrite step_append. destruct (key x); [|done].
  by apply upsert_NoDup.
Qed.
End grouping.

Lemma thread_groups_assoc (key : string) (emails : list EmailMessage) :
  assoc key (thread_groups emails) =
    match thread_members key emails with
    | [] => None
    | group => Some group
    end.
Proof.
  unfold thread_groups. rewrite (grouping_assoc thread_of); [done|].
  intros g e. unfold thread_of. by destruct (truthy (subject e)).
Qed.

Lemma thread_groups_NoDup (emails : list EmailMessage) :
  NoDup (thread_groups emails).*1.
Proof.
  unfold thread_groups. apply (grouping_NoDup thread_of); [|constructor].
  intros g e. unfold thread_of. by destruct (truthy (subject e)).
Qed.

(** The groups of [thread_groups]: under each key that some record has,
    the records that have it. *)
Lemma elem_of_thread_groups (key : string) (group : list EmailMessage)
    (emails : list EmailMessage) :
  (key, group) ∈ thread_groups emails ↔
  group = thread_members key emails ∧ group ≠ [].
Proof.
  rewrite <-assoc_Some by apply thread_groups_NoDup.
  rewrite thread_groups_assoc.
  destruct (thread_members key emails) as [|e l].
  - split; [done|]. by intros [-> Hne].
  - split; [by intros [= <-]|by intros [-> _]].
Qed.

Lemma elem_of_thread_members (key : string) (e : EmailMessage)
    (emails : list EmailMessage) :
  e ∈ thread_members key emails ↔ e ∈ emails ∧ thread_of e = Some key.
Proof. unfold thread_members. rewrite list_elem_of_filter. tauto. Qed.

Lemma elem_of_thread_entries (t : thread_stat) (emails : list EmailMessage) :
  t ∈ thread_entries emails ↔
  ∃ key group, (key, group) ∈ thread_groups emails ∧
    1 < Z.of_nat (length group) ∧
    t = {| thread_subject := key; count := Z.of_nat (length group);
           thread_date_range := _get_date_range group |}.
Proof.
  unfold thread_entries. rewrite list_elem_of_omap. split.
  - intros ([key group] & Hin & Ht). exists key, group. split; [done|].
    unfold thread_entry in Ht. simpl in Ht.
    destruct (Z.ltb_spec 1 (Z.of_nat (length group))); [|done].
    split; [done|]. by injection Ht as <-.
  - intros (key & group & Hin & Hlen & ->). exists (key, group). split; [done|].
    unfold thread_entry. simpl. by rewrite (proj2 (Z.ltb_lt _ _) Hlen).
Qed.

Lemma thread_entries_length (emails : list EmailMessage) :
  Z.of_nat (length (thread_entries emails)) = count_if is_thread (thread_groups emails).
Proof.
  unfold thread_entries.
  induction (thread_groups emails) as [|[key group] gs IH]; [done|].
  rewrite count_if_cons, <-IH. unfold is_thread. csimpl. unfold thread_entry.
  destruct (1 <? Z.of_nat (length group)); cbn [length]; lia.
Qed.

Lemma filter_all {A} (P : A → Prop) `{∀ x, Decision (P x)} (l : list A) :
  Forall P l → filter P l = l.
Proof.
  induction 1 as [|x l Hx _ IH]; [done|].
  by rewrite filter_cons, decide_True, IH.
Qed.

Lemma sorted_threads_Permutation (emails : list EmailMessage) :
  sorted_threads emails ≡ₚ thread_entries emails.
Proof. apply sort_by_Permutation. Qed.

Lemma _analyze_threads_total (emails : list EmailMessage) :
  total_threads (_analyze_threads emails) = count_if is_thread (thread_groups emails).
Proof.
  unfold _analyze_threads. cbn [total_threads].
  rewrite <-thread_entries_length, <-(Permutation_length (sorted_threads_Permutation emails)).
  f_equal. f_equal. apply filter_all, Forall_forall. intros t Ht.
  rewrite sorted_threads_Permutation in Ht.
  apply elem_of_thread_entries in Ht as (key & group & _ & Hlen & ->). done.
Qed.

Lemma elem_of_top_threads (t : thread_stat) (emails : list EmailMessage) :
  t ∈ top_threads (_analyze_threads emails) →
  ∃ group, (thread_subject t, group) ∈ thread_groups emails ∧
           count t = Z.of_nat (length group) ∧ 2 ≤ count t.
Proof.
  unfold _analyze_threads. cbn [top_threads]. intros Ht%elem_of_take.
  destruct Ht as (i & Ht%list_elem_of_lookup_2 & _).
  rewrite sorted_threads_Permutation in Ht.
  apply elem_of_thread_entries in Ht as (key & group & Hin & Hlen & ->).
  exists group. simpl. split_and!; [done|done|lia].
Qed.




Lemma String_length_app (a b : string) :
  String.length (a +:+ b) = (String.length a + String.length b)%nat.
Proof. by rewrite <-!chars_length, chars_app, length_app. Qed.

Lemma thread_of_Some (e : EmailMessage) (key : string) :
  thread_of e = Some key → key = thread_key (subject e).
Proof. unfold thread_of. destruct (truthy (subject e)); by intros [= <-]. Qed.



(** ** Order-insensitivity *)

(** A loop whose steps commute gives the same result in any order. *)
Lemma foldl_commute {A B} (step : B → A → B) (l l' : list A) :
  (∀ b x y, step (step b x) y = step (step b y) x) →
  l ≡ₚ l' → ∀ b, foldl step b l = foldl step b l'.
Proof.
  intros Hstep.
  induction 1 as [|x l l' _ IH|x y l|l l' l'' _ IH1 _ IH2]; intros b; simpl.
  - done.
  - apply IH.
  - by rewrite Hstep.
  - by rewrite IH1, IH2.
Qed.

Section select.
Context {A : Type} (better : A → A → bool).
Hypothesis better_irrefl : ∀ x, better x x = false.
Hypothesis better_trans :
  ∀ x y z, better x y = true → better y z = true → better x z = true.
Hypothesis better_total :
  ∀ x y, better x y = false → better y x = false → x = y.

Lemma select_elem_of (x : A) (l : list A) : select better x l ∈ x :: l.
Proof.
  unfold select. revert x. induction l as [|y l IH]; intros x; simpl.
  - apply elem_of_cons. by left.
  - destruct (better y x).
    + apply elem_of_cons. right. apply IH.
    + specialize (IH x). apply elem_of_cons in IH as [->|IH].
      * apply elem_of_cons. by left.
      * apply elem_of_cons. right. apply elem_of_cons. by right.
Qed.

Lemma select_keeps (x z : A) (l : list A) :
  better z x = false → better z (select better x l) = false.
Proof.
  unfold select. revert x. induction l as [|w l IH]; intros x Hz; simpl; [done|].
  apply IH. destruct (better w x) eqn:Hw; [|done].
  destruct (better z w) eqn:Hzw; [|done].
  by rewrite (better_trans z w x) in Hz.
Qed.

Lemma select_cons (x w : A) (l : list A) :
  select better x (w :: l) = select better (if better w x then w else x) l.
Proof. done. Qed.

Lemma select_best (x : A) (l : list A) (y : A) :
  y ∈ x :: l → better y (select better x l) = false.
Proof.
  revert x. induction l as [|w l IH]; intros x.
  - intros ->%list_elem_of_singleton. apply better_irrefl.
  - rewrite select_cons, !elem_of_cons. intros [->|[->|Hy]].
    + apply select_keeps. destruct (better w x) eqn:Hw; [|apply better_irrefl].
      destruct (better x w) eqn:Hxw; [|done].
      pose proof (better_trans x w x Hxw Hw) as Hxx.
      by rewrite better_irrefl in Hxx.
    + apply select_keeps. destruct (better w x) eqn:Hw; [apply better_irrefl|done].
    + apply IH. apply elem_of_cons. by right.
Qed.

(** The selected element does not depend on the order of the sequence. *)
Lemma select_Permutation (x x' : A) (l l' : list A) :
  x :: l ≡ₚ x' :: l' → select better x l = select better x' l'.
Proof.
  intros Hperm. apply better_total.
  - apply select_best. rewrite <-Hperm. apply select_elem_of.
  - apply select_best. rewrite Hperm. apply select_elem_of.
Qed.
End select.

Section sort_facts.
Context {A : Type} (before : A → A → bool).
Hypothesis before_asym : ∀ x y, before x y = true → before y x = false.
Hypothesis before_negtrans :
  ∀ x y z, before z y = false → before y x = false → before z x = false.

Lemma insert_by_sorted (x : A) (l : list A) :
  StronglySorted (λ a b, before b a = false) l →
  StronglySorted (λ a b, before b a = false) (insert_by before x l).
Proof.
  induction 1 as [|y l Hl IH Hy]; simpl.
  - repeat constructor.
  - destruct (before y x) eqn:Hyx.
    + constructor; [done|].
      rewrite insert_by_Permutation. constructor; [by apply before_asym|done].
    + constructor; [by constructor|]. constructor; [done|].
      eapply Forall_impl; [exact Hy|]. intros z Hz. simpl in *.
      exact (before_negtrans x y z Hz Hyx).
Qed.

Lemma sort_by_sorted (l : list A) :
  StronglySorted (λ a b, before b a = false) (sort_by before l).
Proof.
  induction l as [|x l IH]; [constructor|].
  by apply insert_by_sorted.
Qed.

(** The sort of a sequence in which no two elements compare equal does not
    depend on the order of the sequence. *)
Lemma sort_by_unique (l l' : list A) :
  l ≡ₚ l' →
  (∀ x1 x2, x1 ∈ l → x2 ∈ l → before x2 x1 = false → before x1 x2 = false → x1 = x2) →
  sort_by before l = sort_by before l'.
Proof.
  intros Hperm Hties.
  apply (StronglySorted_unique_strong (λ a b, before b a = false));
    [|apply sort_by_sorted..|by rewrite !sort_by_Permutation].
  intros x1 x2. rewrite !sort_by_Permutation, <-Hperm. auto.
Qed.
End sort_facts.

Lemma NoDup_fmap_inj {A B} (f : A → B) (l : list A) (x y : A) :
  NoDup (f <$> l) → x ∈ l → y ∈ l → f x = f y → x = y.
Proof.
  induction l as [|z l IH]; simpl.
  - by intros _ ?%elem_of_nil.
  - intros [Hz Hl]%NoDup_cons. rewrite !elem_of_cons.
    intros [->|Hx] [->|Hy] Hf; [done| | |by apply IH].
    + destruct Hz. rewrite Hf. by apply list_elem_of_fmap_2.
    + destruct Hz. rewrite <-Hf. by apply list_elem_of_fmap_2.
Qed.

(** Sorting by decreasing count, when no two counts are equal. *)
Lemma sort_by_count_unique {A} (count : A → Z) (l l' : list A) :
  l ≡ₚ l' → NoDup (count <$> l) →
  sort_by (λ y x, count x <? count y) l = sort_by (λ y x, count x <? count y) l'.
Proof.
  intros Hperm Hties. apply sort_by_unique; [| |done|].
  - intros x y Hxy%Z.ltb_lt. apply Z.ltb_ge. lia.
  - intros x y z Hzy%Z.ltb_ge Hyx%Z.ltb_ge. apply Z.ltb_ge. lia.
  - intros x1 x2 H1 H2 Ha%Z.ltb_ge Hb%Z.ltb_ge.
    apply (NoDup_fmap_inj count l); [done..|lia].
Qed.

Lemma most_common_Permutation {K} (n : nat) (c c' : list (K * Z)) :
  c ≡ₚ c' → no_ties c → most_common n c = most_common n c'.
Proof.
  intros Hperm Hties. unfold most_common. f_equal.
  by apply (sort_by_count_unique snd).
Qed.

Lemma count_if_Permutation {A} (p : A → bool) (l l' : list A) :
  l ≡ₚ l' → count_if p l = count_if p l'.
Proof. intros Hperm. unfold count_if. by rewrite Hperm. Qed.

Section counter_facts.
Context {K : Type} `{EqDecision K}.
Implicit Types (c : list (K * Z)) (k : K) (ks : list K).

Lemma update_app ks ks' c : update (ks ++ ks') c = update ks' (update ks c).
Proof. apply foldl_app. Qed.

Lemma update_NoDup ks c : NoDup c.*1 → NoDup (update ks c).*1.
Proof.
  revert c. induction ks as [|k ks IH]; intros c Hc; [done|].
  apply IH. by apply upsert_NoDup.
Qed.

(** The count of a key after [update]: what it was plus the number of
    occurrences of the key. *)
Lemma update_assoc k ks c :
  assoc k (update ks c) =
    if count_if (λ x, bool_decide (x = k)) ks =? 0 then assoc k c
    else Some (default 0 (assoc k c) + count_if (λ x, bool_decide (x = k)) ks).
Proof.
  revert c. induction ks as [|x ks IH]; intros c; [done|].
  change (update (x :: ks) c) with (update ks (incr x c)).
  rewrite IH, count_if_cons. unfold incr. rewrite assoc_upsert.
  pose proof (count_if_nonneg (λ x, bool_decide (x = k)) ks) as Hks.
  destruct (decide (x = k)) as [->|Hne].
  - rewrite bool_decide_eq_true_2 by done.
    destruct (Z.eqb_spec (1 + count_if (λ x, bool_decide (x = k)) ks) 0); [lia|].
    destruct (Z.eqb_spec (count_if (λ x, bool_decide (x = k)) ks) 0) as [->|_];
      simpl; f_equal; lia.
  - rewrite bool_decide_eq_false_2 by done. done.
Qed.

Lemma update_Permutation ks ks' :
  ks ≡ₚ ks' → update ks [] ≡ₚ update ks' [].
Proof.
  intros Hperm.
  apply same_assoc_Permutation; [apply update_NoDup; constructor..|].
  intros k. by rewrite !update_assoc, (count_if_Permutation _ _ _ Hperm).
Qed.
End counter_facts.

(** A loop that updates a counter with the keys of each element. *)
Section counting.
Context {K : Type} `{EqDecision K} {A : Type}.
Variable keys : A → list K.
Variable step : list (K * Z) → A → list (K * Z).
Hypothesis step_update : ∀ c x, step c x = update (keys x) c.

Lemma counting_update (l : list A) (c : list (K * Z)) :
  foldl step c l = update (l ≫= keys) c.
Proof.
  revert c. induction l as [|x l IH]; intros c; [done|].
  simpl. by rewrite IH, step_update, update_app.
Qed.

Lemma counting_Permutation (l l' : list A) :
  l ≡ₚ l' → foldl step [] l ≡ₚ foldl step [] l'.
Proof.
  intros Hperm. rewrite !counting_update.
  apply update_Permutation. by rewrite Hperm.
Qed.
End counting.

(** *** Numbers *)

Lemma sumZ_Permutation (l l' : list Z) : l ≡ₚ l' → sumZ l = sumZ l'.
Proof. intros Hperm. unfold sumZ. apply foldl_commute; [intros; lia|done]. Qed.

Lemma maxZ_Permutation (l l' : list Z) : l ≡ₚ l' → maxZ l = maxZ l'.
Proof.
  intros Hperm. destruct l as [|x l], l' as [|x' l']; [done| | |].
  - by apply Permutation_nil_cons in Hperm.
  - symmetry in Hperm. by apply Permutation_nil_cons in Hperm.
  - apply select_Permutation; [| | |done].
    + intros z. apply Z.ltb_irrefl.
    + intros a b c Hab%Z.ltb_lt Hbc%Z.ltb_lt. apply Z.ltb_lt. lia.
    + intros a b Hab%Z.ltb_ge Hba%Z.ltb_ge. lia.
Qed.

Lemma minZ_Permutation (l l' : list Z) : l ≡ₚ l' → minZ l = minZ l'.
Proof.
  intros Hperm. destruct l as [|x l], l' as [|x' l']; [done| | |].
  - by apply Permutation_nil_cons in Hperm.
  - symmetry in Hperm. by apply Permutation_nil_cons in Hperm.
  - apply select_Permutation; [| | |done].
    + intros z. apply Z.ltb_irrefl.
    + intros a b c Hab%Z.ltb_lt Hbc%Z.ltb_lt. apply Z.ltb_lt. lia.
    + intros a b Hab%Z.ltb_ge Hba%Z.ltb_ge. lia.
Qed.

(** A [match] on the emptiness of a sequence only depends on its length. *)
Lemma match_nil_Permutation {A B} (l l' : list A) (a b : B) :
  l ≡ₚ l' →
  match l with [] => a | _ => b end = match l' with [] => a | _ => b end.
Proof.
  intros Hperm%Permutation_length. by destruct l, l'.
Qed.

(** *** Counters *)

Lemma sender_counter_Permutation (emails emails' : list EmailMessage) :
  emails ≡ₚ emails' → sender_counter emails ≡ₚ sender_counter emails'.
Proof.
  apply (counting_Permutation sender_keys).
  intros c e. unfold sender_keys. by destruct (truthy (sender e)).
Qed.

Lemma domain_counter_Permutation (emails emails' : list EmailMessage) :
  emails ≡ₚ emails' → domain_counter emails ≡ₚ domain_counter emails'.
Proof.
  apply (counting_Permutation domain_keys).
  intros c e. unfold domain_keys.
  by destruct (truthy (sender e)), (search_domain (sender e)).
Qed.

Lemma word_counter_Permutation (emails emails' : list EmailMessage) :
  emails ≡ₚ emails' → word_counter emails ≡ₚ word_counter emails'.
Proof. by apply (counting_Permutation filtered_words). Qed.

Lemma subjects_loop_eq (emails : list EmailMessage) :
  subjects_loop emails
  = (emails ≫= subject_length, emails ≫= subject_words,
     update (emails ≫= subject_words) []).
Proof.
  unfold subjects_loop.
  enough (∀ a b c,
    foldl (λ '(subject_lengths, subject_words, counter) email,
             if truthy (subject email) then
               let words := findall_words (lower (subject email)) in
               (subject_lengths ++ [len (subject email)],
                subject_words ++ words,
                update words counter)
             else (subject_lengths, subject_words, counter))
          (a, b, c) emails
    = (a ++ (emails ≫= subject_length), b ++ (emails ≫= subject_words),
       update (emails ≫= subject_words) c)) as Hloop by apply Hloop.
  induction emails as [|e emails IH]; intros a b c; simpl.
  { by rewrite !app_nil_r. }
  unfold subject_length at 1, subject_words at 1 3.
  destruct (truthy (subject e)); rewrite IH; simpl.
  - by rewrite <-!app_assoc, update_app.
  - done.
Qed.

Lemma extensions_update (names : list string) (types : list (string * Z)) :
  foldl (λ types attachment, incr (extension attachment) types) types names
  = update (extension <$> names) types.
Proof.
  revert types. induction names as [|a names IH]; intros types; [done|].
  simpl. by rewrite IH.
Qed.

Lemma attachments_loop_eq (emails : list EmailMessage) :
  attachments_loop emails
  = (update (emails ≫= extensions) [],
     foldl (λ n e, n + match attachments e with [] => 0 | _ => 1 end) 0 emails,
     foldl (λ n e, n + Z.of_nat (length (attachments e))) 0 emails).
Proof.
  unfold attachments_loop.
  enough (∀ c n m,
    foldl (λ '(types, with_attachments, total) email,
             match attachments email with
             | [] => (types, with_attachments, total)
             | names =>
                 (foldl (λ types attachment, incr (extension attachment) types) types names,
                  with_attachments + 1,
                  total + Z.of_nat (length names))
             end)
          (c, n, m) emails
    = (update (emails ≫= extensions) c,
       foldl (λ n e, n + match attachments e with [] => 0 | _ => 1 end) n emails,
       foldl (λ n e, n + Z.of_nat (length (attachments e))) m emails)) as Hloop
    by apply Hloop.
  induction emails as [|e emails IH]; intros c n m; [done|].
  simpl. unfold extensions at 1.
  destruct (attachments e) as [|a names] eqn:Hnames; rewrite IH.
  - by rewrite !Z.add_0_r.
  - by rewrite extensions_update, update_app.
Qed.

Lemma attachment_type_counter_Permutation (emails emails' : list EmailMessage) :
  emails ≡ₚ emails' →
  attachment_type_counter emails ≡ₚ attachment_type_counter emails'.
Proof.
  intros Hperm. unfold attachment_type_counter. rewrite !attachments_loop_eq.
  apply update_Permutation. by rewrite Hperm.
Qed.

Lemma subject_word_counter_Permutation (emails emails' : list EmailMessage) :
  emails ≡ₚ emails' →
  subject_word_counter emails ≡ₚ subject_word_counter emails'.
Proof.
  intros Hperm. unfold subject_word_counter. rewrite !subjects_loop_eq.
  apply update_Permutation. by rewrite Hperm.
Qed.

(** *** Sub-statistics that count *)

Lemma _analyze_senders_Permutation (emails emails' : list EmailMessage) :
  emails ≡ₚ emails' → no_ties (sender_counter emails) →
  _analyze_senders emails = _analyze_senders emails'.
Proof.
  intros Hperm Hties. apply most_common_Permutation; [|done].
  by apply sender_counter_Permutation.
Qed.

Lemma _analyze_domains_Permutation (emails emails' : list EmailMessage) :
  emails ≡ₚ emails' → no_ties (domain_counter emails) →
  _analyze_domains emails = _analyze_domains emails'.
Proof.
  intros Hperm Hties. unfold _analyze_domains.
  pose proof (domain_counter_Permutation _ _ Hperm) as Hcounter.
  rewrite (most_common_Permutation 20 _ _ Hcounter Hties).
  rewrite (Permutation_length Hcounter), (Permutation_length Hperm).
  by rewrite (match_nil_Permutation _ _ _ _ Hperm).
Qed.

Lemma _analyze_keywords_Permutation (emails emails' : list EmailMessage) :
  emails ≡ₚ emails' → no_ties (word_counter emails) →
  _analyze_keywords emails = _analyze_keywords emails'.
Proof.
  intros Hperm Hties. unfold _analyze_keywords.
  pose proof (word_counter_Permutation _ _ Hperm) as Hcounter.
  rewrite (most_common_Permutation 50 _ _ Hcounter Hties).
  rewrite (most_common_Permutation 1 _ _ Hcounter Hties).
  by rewrite (Permutation_length Hcounter).
Qed.

Lemma _analyze_subjects_Permutation (emails emails' : list EmailMessage) :
  emails ≡ₚ emails' → no_ties (subject_word_counter emails) →
  _analyze_subjects emails = _analyze_subjects emails'.
Proof.
  intros Hperm Hties. unfold _analyze_subjects.
  pose proof (subject_word_counter_Permutation _ _ Hperm) as Hcounter.
  unfold subject_word_counter in *. rewrite !subjects_loop_eq in *. simpl in *.
  assert (emails ≫= subject_length ≡ₚ emails' ≫= subject_length) as Hlengths
    by (by rewrite Hperm).
  assert (emails ≫= subject_words ≡ₚ emails' ≫= subject_words) as Hwords
    by (by rewrite Hperm).
  rewrite (most_common_Permutation 20 _ _ Hcounter Hties).
  rewrite (Permutation_length Hwords).
  rewrite <-(maxZ_Permutation _ _ Hlengths), <-(minZ_Permutation _ _ Hlengths).
  rewrite <-(sumZ_Permutation _ _ Hlengths), <-(Permutation_length Hlengths).
  by rewrite !(match_nil_Permutation _ _ _ _ Hlengths).
Qed.

Lemma _analyze_attachments_Permutation (emails emails' : list EmailMessage) :
  emails ≡ₚ emails' → no_ties (attachment_type_counter emails) →
  _analyze_attachments emails = _analyze_attachments emails'.
Proof.
  intros Hperm Hties. unfold _analyze_attachments.
  pose proof (attachment_type_counter_Permutation _ _ Hperm) as Hcounter.
  unfold attachment_type_counter in *. rewrite !attachments_loop_eq in *. simpl in *.
  rewrite (most_common_Permutation 10 _ _ Hcounter Hties).
  assert (∀ f : EmailMessage → Z,
            foldl (λ n e, n + f e) 0 emails = foldl (λ n e, n + f e) 0 emails') as Hsum.
  { intros f. apply foldl_commute; [intros; lia|done]. }
  rewrite (Hsum (λ e, match attachments e with [] => 0 | _ => 1 end)).
  rewrite (Hsum (λ e, Z.of_nat (length (attachments e)))).
  rewrite (Permutation_length Hperm).
  by rewrite (match_nil_Permutation _ _ _ _ Hperm).
Qed.

(** *** Histograms *)

Lemma bump_commute `{Countable K} (k1 k2 : K) (m : gmap K Z) :
  bump k1 (bump k2 m) = bump k2 (bump k1 m).
Proof.
  unfold bump. destruct (decide (k1 = k2)) as [->|Hne]; [done|].
  rewrite !lookup_insert_ne by done. by apply insert_insert_ne.
Qed.

Lemma histogram_Permutation `{Countable K} {A} (key : A → option K)
    (step : gmap K Z → A → gmap K Z) (l l' : list A) (m : gmap K Z) :
  (∀ m x, step m x = match key x with Some k => bump k m | None => m end) →
  l ≡ₚ l' → foldl step m l = foldl step m l'.
Proof.
  intros Hstep Hperm. apply foldl_commute; [|done].
  intros b x y. rewrite !Hstep.
  destruct (key x), (key y); try done. apply bump_commute.
Qed.

Lemma _analyze_time_activity_Permutation (emails emails' : list EmailMessage) :
  emails ≡ₚ emails' → _analyze_time_activity emails = _analyze_time_activity emails'.
Proof.
  apply (histogram_Permutation (λ e, (λ d, time_band (hour d)) <$> date e)).
  intros m e. by destruct (date e).
Qed.

Lemma _analyze_daily_activity_Permutation (emails emails' : list EmailMessage) :
  emails ≡ₚ emails' → _analyze_daily_activity emails = _analyze_daily_activity emails'.
Proof.
  apply (histogram_Permutation
           (λ e, (λ d, nth (Z.to_nat (weekday d)) day_names EmptyString) <$> date e)).
  intros m e. by destruct (date e).
Qed.

Lemma _analyze_hourly_activity_Permutation (emails emails' : list EmailMessage) :
  emails ≡ₚ emails' → _analyze_hourly_activity emails = _analyze_hourly_activity emails'.
Proof.
  apply (histogram_Permutation (λ e, hour <$> date e)).
  intros m e. by destruct (date e).
Qed.

Lemma _analyze_size_distribution_Permutation (emails emails' : list EmailMessage) :
  emails ≡ₚ emails' →
  _analyze_size_distribution emails = _analyze_size_distribution emails'.
Proof.
  intros Hperm. unfold _analyze_size_distribution.
  assert (size <$> emails ≡ₚ size <$> emails') as Hsizes by (by rewrite Hperm).
  rewrite (histogram_Permutation (λ s, Some (size_band s)) _ _ _ _ (λ _ _, eq_refl) Hsizes).
  rewrite (sumZ_Permutation _ _ Hsizes), (maxZ_Permutation _ _ Hsizes).
  rewrite (minZ_Permutation _ _ Hsizes), (Permutation_length Hsizes).
  by rewrite (match_nil_Permutation _ _ _ _ Hsizes).
Qed.

Lemma _calculate_total_size_Permutation (emails emails' : list EmailMessage) :
  emails ≡ₚ emails' → _calculate_total_size emails = _calculate_total_size emails'.
Proof.
  intros Hperm. unfold _calculate_total_size.
  by rewrite (sumZ_Permutation (size <$> emails) (size <$> emails')) by (by rewrite Hperm).
Qed.

Lemma _analyze_sentiment_Permutation (emails emails' : list EmailMessage) :
  emails ≡ₚ emails' → _analyze_sentiment emails = _analyze_sentiment emails'.
Proof.
  intros Hperm. unfold _analyze_sentiment, sentiment_loop.
  rewrite (Permutation_length Hperm).
  rewrite (foldl_commute _ emails emails'); [done| |done].
  intros [[a b] c] x y. simpl.
  destruct (classify x) eqn:Hx, (classify y) eqn:Hy; simpl; by rewrite ?Hx, ?Hy.
Qed.

(** *** Timestamps *)

Lemma lex_ltb_irrefl (a : list Z) : lex_ltb a a = false.
Proof.
  induction a as [|x a IH]; [done|]. simpl.
  by rewrite Z.ltb_irrefl, Z.eqb_refl, IH.
Qed.

Lemma lex_ltb_trans (a b c : list Z) :
  lex_ltb a b = true → lex_ltb b c = true → lex_ltb a c = true.
Proof.
  revert b c. induction a as [|x a IH]; intros [|y b] [|z c]; simpl; try done.
  intros Hab Hbc.
  destruct (Z.ltb_spec x y), (Z.eqb_spec x y), (Z.ltb_spec y z), (Z.eqb_spec y z),
    (Z.ltb_spec x z), (Z.eqb_spec x z); simpl in *; try done; try lia.
  by apply (IH b c).
Qed.

Lemma lex_ltb_total (a b : list Z) :
  length a = length b → lex_ltb a b = false → lex_ltb b a = false → a = b.
Proof.
  revert b. induction a as [|x a IH]; intros [|y b]; simpl; try done.
  intros [= Hlen] Hab Hba.
  destruct (Z.ltb_spec x y), (Z.eqb_spec x y), (Z.ltb_spec y x), (Z.eqb_spec y x);
    simpl in *; try done; try lia.
  subst. f_equal. by apply IH.
Qed.

Lemma datetime_ltb_irrefl (d : datetime) : datetime_ltb d d = false.
Proof. apply lex_ltb_irrefl. Qed.

Lemma datetime_ltb_trans (a b c : datetime) :
  datetime_ltb a b = true → datetime_ltb b c = true → datetime_ltb a c = true.
Proof. apply lex_ltb_trans. Qed.

Lemma datetime_ltb_total (a b : datetime) :
  datetime_ltb a b = false → datetime_ltb b a = false → a = b.
Proof.
  intros Hab Hba.
  assert (datetime_key a = datetime_key b) as Hkey by (by apply lex_ltb_total).
  destruct a, b. by injection Hkey as -> -> -> -> -> -> ->.
Qed.

Lemma _get_date_range_Permutation (emails emails' : list EmailMessage) :
  emails ≡ₚ emails' → _get_date_range emails = _get_date_range emails'.
Proof.
  intros Hperm. unfold _get_date_range.
  assert (omap date emails ≡ₚ omap date emails') as Hdates by (by rewrite Hperm).
  destruct (omap date emails) as [|d ds], (omap date emails') as [|d' ds'].
  - by apply match_nil_Permutation.
  - by apply Permutation_nil_cons in Hdates.
  - symmetry in Hdates. by apply Permutation_nil_cons in Hdates.
  - assert (min_date d ds = min_date d' ds') as ->.
    { apply select_Permutation; [| | |done].
      - apply datetime_ltb_irrefl.
      - apply datetime_ltb_trans.
      - apply datetime_ltb_total. }
    assert (max_date d ds = max_date d' ds') as ->.
    { apply select_Permutation; [| | |done].
      - apply datetime_ltb_irrefl.
      - intros a b c Hab Hbc. by apply (datetime_ltb_trans c b a).
      - intros a b Hab Hba. by apply datetime_ltb_total. }
    by apply match_nil_Permutation.
Qed.

(** The sort by a strict total order does not depend on the order of the
    sequence. *)
Section total_sort.
Context {A : Type} (before : A → A → bool).
Hypothesis before_irrefl : ∀ x, before x x = false.
Hypothesis before_trans :
  ∀ x y z, before x y = true → before y z = true → before x z = true.
Hypothesis before_total :
  ∀ x y, before x y = false → before y x = false → x = y.

Lemma total_asym (x y : A) : before x y = true → before y x = false.
Proof.
  intros Hxy. destruct (before y x) eqn:Hyx; [|done].
  by rewrite <-(before_irrefl x), (before_trans x y x).
Qed.

Lemma total_negtrans (x y z : A) :
  before z y = false → before y x = false → before z x = false.
Proof.
  intros Hzy Hyx. destruct (before z x) eqn:Hzx; [|done].
  destruct (before y z) eqn:Hyz.
  - by rewrite (before_trans y z x) in Hyx.
  - assert (z = y) as -> by (by apply before_total). congruence.
Qed.

Lemma sort_by_total (l l' : list A) :
  l ≡ₚ l' → sort_by before l = sort_by before l'.
Proof.
  intros Hperm. apply sort_by_unique; [apply total_asym|apply total_negtrans|done|].
  intros x1 x2 _ _ H21 H12. by apply before_total.
Qed.
End total_sort.

(** *** Threads *)

Lemma thread_members_Permutation (key : string) (emails emails' : list EmailMessage) :
  emails ≡ₚ emails' → thread_members key emails ≡ₚ thread_members key emails'.
Proof. intros Hperm. unfold thread_members. by rewrite Hperm. Qed.

Lemma assoc_fmap {K} `{EqDecision K} {V W} (f : K → V → W) (k : K) (d : list (K * V)) :
  assoc k ((λ kv, (kv.1, f kv.1 kv.2)) <$> d) = f k <$> assoc k d.
Proof.
  induction d as [|[k' v] d IH]; [done|]. simpl.
  destruct (decide (k' = k)) as [->|]; [done|]. apply IH.
Qed.

(** A quantity computed from each group, when it does not depend on the
    order inside the group, is the same for the groups of a permuted
    input, up to the order of the groups. *)
Lemma thread_groups_image {W} (f : string → list EmailMessage → W)
    (emails emails' : list EmailMessage) :
  (∀ key group group', group ≡ₚ group' → f key group = f key group') →
  emails ≡ₚ emails' →
  (λ kv, f kv.1 kv.2) <$> thread_groups emails
  ≡ₚ (λ kv, f kv.1 kv.2) <$> thread_groups emails'.
Proof.
  intros Hf Hperm.
  assert (∀ l : list (string * list EmailMessage),
            (λ kv, f kv.1 kv.2) <$> l = ((λ kv, (kv.1, f kv.1 kv.2)) <$> l).*2) as Hsnd.
  { intros l. rewrite <-list_fmap_compose. done. }
  rewrite !Hsnd. apply fmap_Permutation.
  assert (∀ l : list (string * list EmailMessage),
            ((λ kv, (kv.1, f kv.1 kv.2)) <$> l).*1 = l.*1) as Hfst.
  { intros l. rewrite <-list_fmap_compose. done. }
  apply same_assoc_Permutation.
  - rewrite Hfst. apply thread_groups_NoDup.
  - rewrite Hfst. apply thread_groups_NoDup.
  - intros key. rewrite !assoc_fmap, !thread_groups_assoc.
    pose proof (thread_members_Permutation key _ _ Hperm) as Hmembers.
    destruct (thread_members key emails) as [|e g],
             (thread_members key emails') as [|e' g']; simpl.
    + done.
    + by apply Permutation_nil_cons in Hmembers.
    + symmetry in Hmembers. by apply Permutation_nil_cons in Hmembers.
    + f_equal. by apply Hf.
Qed.

Lemma omap_fmap_id {A B} (f : A → option B) (l : list A) :
  omap f l = omap id (f <$> l).
Proof.
  induction l as [|x l IH]; [done|]. csimpl. rewrite IH. by destruct (f x).
Qed.

Lemma thread_entry_Permutation (key : string) (group group' : list EmailMessage) :
  group ≡ₚ group' → thread_entry key group = thread_entry key group'.
Proof.
  intros Hgroup. unfold thread_entry.
  rewrite (Permutation_length Hgroup).
  by rewrite (_get_date_range_Permutation group group' Hgroup).
Qed.

Lemma thread_entries_Permutation (emails emails' : list EmailMessage) :
  emails ≡ₚ emails' → thread_entries emails ≡ₚ thread_entries emails'.
Proof.
  intros Hperm. unfold thread_entries.
  rewrite (omap_fmap_id _ (thread_groups emails)).
  rewrite (omap_fmap_id _ (thread_groups emails')).
  apply omap_Permutation.
  exact (thread_groups_image thread_entry emails emails'
           thread_entry_Permutation Hperm).
Qed.

Lemma _analyze_threads_Permutation (emails emails' : list EmailMessage) :
  emails ≡ₚ emails' → NoDup (count <$> thread_entries emails) →
  _analyze_threads emails = _analyze_threads emails'.
Proof.
  intros Hperm Hties. unfold _analyze_threads, sorted_threads.
  by rewrite (sort_by_count_unique count _ _ (thread_entries_Permutation _ _ Hperm) Hties).
Qed.

(** *** Response times *)

Lemma existsb_Permutation {A} (p : A → bool) (l l' : list A) :
  l ≡ₚ l' → existsb p l = existsb p l'.
Proof.
  induction 1 as [|x l l' _ IH|x y l|l l' l'' _ IH1 _ IH2]; simpl;
    [done|by rewrite IH|by destruct (p x), (p y)|congruence].
Qed.

Lemma concat_Permutation {A} (l l' : list (list A)) :
  l ≡ₚ l' → concat l ≡ₚ concat l'.
Proof.
  induction 1 as [|x l l' _ IH|x y l|l l' l'' _ IH1 _ IH2]; simpl.
  - done.
  - by rewrite IH.
  - rewrite !app_assoc. by rewrite (Permutation_app_comm x y).
  - by rewrite IH1.
Qed.

Lemma unsortable_Permutation (group group' : list EmailMessage) :
  group ≡ₚ group' → unsortable group = unsortable group'.
Proof.
  intros Hgroup. unfold unsortable.
  by rewrite (Permutation_length Hgroup), (forallb_Permutation _ _ _ Hgroup).
Qed.

Lemma insert_by_dates (x : EmailMessage) (d : datetime) (l : list EmailMessage) :
  date x = Some d → forallb dated l = true →
  omap date (insert_by email_before x l) = insert_by datetime_ltb d (omap date l).
Proof.
  intros Hx. induction l as [|y l IH]; csimpl.
  { by rewrite Hx. }
  intros [Hy Hl]%andb_prop. unfold dated in Hy. unfold email_before at 1.
  destruct (date y) as [dy|] eqn:Ey; [|done]. rewrite Hx. csimpl.
  destruct (datetime_ltb dy d); csimpl.
  - by rewrite Ey, IH.
  - by rewrite Hx, Ey.
Qed.

(** The timestamps of a sorted thread are the sorted timestamps. *)
Lemma sort_by_dates (l : list EmailMessage) :
  forallb dated l = true →
  omap date (sort_by email_before l) = sort_by datetime_ltb (omap date l).
Proof.
  induction l as [|x l IH]; [done|]. csimpl.
  intros [Hx Hl]%andb_prop. unfold dated in Hx.
  destruct (date x) as [d|] eqn:Ex; [|done].
  unfold sort_by in *. csimpl. rewrite <-IH by done.
  apply insert_by_dates; [done|].
  by rewrite (forallb_Permutation _ _ _ (sort_by_Permutation email_before l)).
Qed.

Lemma thread_gaps_Permutation (group group' : list EmailMessage) :
  group ≡ₚ group' → unsortable group = false →
  thread_gaps group = thread_gaps group'.
Proof.
  intros Hgroup Hsortable. unfold thread_gaps.
  rewrite <-(Permutation_length Hgroup).
  unfold unsortable in Hsortable.
  destruct (1 <? Z.of_nat (length group)); [|done].
  simpl in Hsortable. apply negb_false_iff in Hsortable.
  rewrite !sort_by_dates; [|by rewrite <-(forallb_Permutation _ _ _ Hgroup)|done].
  f_equal.
  apply sort_by_total;
    [apply datetime_ltb_irrefl|apply datetime_ltb_trans|apply datetime_ltb_total|].
  by rewrite Hgroup.
Qed.

Lemma thread_outcome_Permutation (key : string) (group group' : list EmailMessage) :
  group ≡ₚ group' → thread_outcome key group = thread_outcome key group'.
Proof.
  intros Hgroup. unfold thread_outcome.
  rewrite <-(unsortable_Permutation _ _ Hgroup).
  destruct (unsortable group) eqn:Hsortable; [done|].
  by rewrite (thread_gaps_Permutation _ _ Hgroup Hsortable).
Qed.

Lemma has_unsortable_thread_outcome (emails : list EmailMessage) :
  has_unsortable_thread emails
  = existsb fst ((λ kv, thread_outcome kv.1 kv.2) <$> thread_groups emails).
Proof.
  unfold has_unsortable_thread.
  induction (thread_groups emails) as [|[key group] gs IH]; [done|].
  simpl. by rewrite IH.
Qed.

Lemma gaps_outcome (emails : list EmailMessage) :
  has_unsortable_thread emails = false →
  concat ((λ group, thread_gaps group.2) <$> thread_groups emails)
  = concat (snd <$> ((λ kv, thread_outcome kv.1 kv.2) <$> thread_groups emails)).
Proof.
  unfold has_unsortable_thread.
  induction (thread_groups emails) as [|[key group] gs IH]; [done|].
  simpl. intros [Hgroup Hgs]%orb_false_elim.
  rewrite Hgroup. f_equal. by apply IH.
Qed.

Lemma has_unsortable_thread_Permutation (emails emails' : list EmailMessage) :
  emails ≡ₚ emails' → has_unsortable_thread emails = has_unsortable_thread emails'.
Proof.
  intros Hperm. rewrite !has_unsortable_thread_outcome.
  apply existsb_Permutation.
  exact (thread_groups_image thread_outcome emails emails'
           thread_outcome_Permutation Hperm).
Qed.

Lemma all_gaps_Permutation (emails emails' : list EmailMessage) :
  emails ≡ₚ emails' → has_unsortable_thread emails = false →
  concat ((λ group, thread_gaps group.2) <$> thread_groups emails)
  ≡ₚ concat ((λ group, thread_gaps group.2) <$> thread_groups emails').
Proof.
  intros Hperm Hsortable.
  rewrite !gaps_outcome;
    [|by rewrite <-(has_unsortable_thread_Permutation _ _ Hperm)|done].
  apply concat_Permutation, fmap_Permutation.
  exact (thread_groups_image thread_outcome emails emails'
           thread_outcome_Permutation Hperm).
Qed.

Lemma sumQ_Permutation (l l' : list Qc) : l ≡ₚ l' → sumQ l = sumQ l'.
Proof.
  intros Hperm. unfold sumQ. apply foldl_commute; [|done].
  intros b x y. by rewrite <-!Qcplus_assoc, (Qcplus_comm x y).
Qed.

Lemma minQ_Permutation (l l' : list Qc) : l ≡ₚ l' → minQ l = minQ l'.
Proof.
  intros Hperm. destruct l as [|x l], l' as [|x' l']; [done| | |].
  - by apply Permutation_nil_cons in Hperm.
  - symmetry in Hperm. by apply Permutation_nil_cons in Hperm.
  - apply select_Permutation; [| | |done].
    + intros z. apply bool_decide_eq_false_2. intros Hz. by apply Qclt_not_eq in Hz.
    + intros a b c Hab%bool_decide_eq_true_1 Hbc%bool_decide_eq_true_1.
      apply bool_decide_eq_true_2. by apply (Qclt_trans _ b).
    + intros a b Hab%bool_decide_eq_false_1 Hba%bool_decide_eq_false_1.
      apply Qcle_antisym; by apply Qcnot_lt_le.
Qed.

Lemma maxQ_Permutation (l l' : list Qc) : l ≡ₚ l' → maxQ l = maxQ l'.
Proof.
  intros Hperm. destruct l as [|x l], l' as [|x' l']; [done| | |].
  - by apply Permutation_nil_cons in Hperm.
  - symmetry in Hperm. by apply Permutation_nil_cons in Hperm.
  - apply select_Permutation; [| | |done].
    + intros z. apply bool_decide_eq_false_2. intros Hz. by apply Qclt_not_eq in Hz.
    + intros a b c Hab%bool_decide_eq_true_1 Hbc%bool_decide_eq_true_1.
      apply bool_decide_eq_true_2. by apply (Qclt_trans _ b).
    + intros a b Hab%bool_decide_eq_false_1 Hba%bool_decide_eq_false_1.
      apply Qcle_antisym; by apply Qcnot_lt_le.
Qed.

Lemma response_stats_of_Permutation (times times' : list Qc) :
  times ≡ₚ times' → response_stats_of times = response_stats_of times'.
Proof.
  intros Hperm. unfold response_stats_of.
  rewrite (sumQ_Permutation _ _ Hperm), (minQ_Permutation _ _ Hperm).
  rewrite (maxQ_Permutation _ _ Hperm), (Permutation_length Hperm).
  by apply match_nil_Permutation.
Qed.

Lemma _analyze_response_times_Permutation (emails emails' : list EmailMessage) :
  emails ≡ₚ emails' →
  _analyze_response_times emails = _analyze_response_times emails'.
Proof.
  intros Hperm. rewrite !_analyze_response_times_eq.
  rewrite <-(has_unsortable_thread_Permutation _ _ Hperm).
  destruct (has_unsortable_thread emails) eqn:Hsortable; [done|].
  f_equal. by apply response_stats_of_Permutation, all_gaps_Permutation.
Qed.

(** *** The bundle *)

Lemma results_of_Permutation (emails emails' : list EmailMessage)
    (response : option response_stats) :
  emails ≡ₚ emails' →
  no_ties (sender_counter emails) →
  no_ties (domain_counter emails) →
  no_ties (subject_word_counter emails) →
  no_ties (word_counter emails) →
  no_ties (attachment_type_counter emails) →
  NoDup (count <$> thread_entries emails) →
  results_of emails response = results_of emails' response.
Proof.
  intros Hperm Hsenders Hdomains Hsubjects Hwords Hattachments Hthreads.
  unfold results_of.
  rewrite (Permutation_length Hperm).
  rewrite (_get_date_range_Permutation _ _ Hperm).
  rewrite (_calculate_total_size_Permutation _ _ Hperm).
  rewrite (_analyze_senders_Permutation _ _ Hperm Hsenders).
  rewrite (_analyze_time_activity_Permutation _ _ Hperm).
  rewrite (_analyze_daily_activity_Permutation _ _ Hperm).
  rewrite (_analyze_hourly_activity_Permutation _ _ Hperm).
  rewrite (_analyze_subjects_Permutation _ _ Hperm Hsubjects).
  rewrite (_analyze_attachments_Permutation _ _ Hperm Hattachments).
  rewrite (_analyze_size_distribution_Permutation _ _ Hperm).
  rewrite (_analyze_threads_Permutation _ _ Hperm Hthreads).
  rewrite (_analyze_domains_Permutation _ _ Hperm Hdomains).
  rewrite (_analyze_sentiment_Permutation _ _ Hperm).
  rewrite (_analyze_keywords_Permutation _ _ Hperm Hwords).
  done.
Qed.



(** * Further properties of the sub-statistics *)

(** ** Date range *)

(** X1.  [_get_date_range] gives No emails exactly for the empty input and
    No valid dates exactly when there are records but none has a
    timestamp; otherwise it prints the timestamps of two records, no
    record being earlier than the first or later than the second. *)
Theorem date_range_bounds (emails : list EmailMessage) :
  match emails with
  | [] => _get_date_range emails = "No emails"
  | _ =>
      if forallb (λ e, negb (dated e)) emails
      then _get_date_range emails = "No valid dates"
      else ∃ e_min e_max d_min d_max,
          e_min ∈ emails ∧ e_max ∈ emails ∧
          date e_min = Some d_min ∧ date e_max = Some d_max ∧
          _get_date_range emails
          = strftime_ymd d_min +:+ " to " +:+ strftime_ymd d_max ∧
          ∀ e d, e ∈ emails → date e = Some d →
                 datetime_ltb d d_min = false ∧ datetime_ltb d_max d = false
  end.
Proof.
  destruct emails as [|e0 emails0]; [done|].
  set (emails := e0 :: emails0).
  assert (omap date emails = [] ↔ forallb (λ e, negb (dated e)) emails = true) as Hnone.
  { clearbody emails. induction emails as [|e l IH]; [done|].
    csimpl. unfold dated at 1. destruct (date e); simpl; [split; done|apply IH]. }
  unfold _get_date_range. fold emails.
  destruct (forallb (λ e, negb (dated e)) emails) eqn:Hall.
  { by rewrite (proj2 Hnone eq_refl). }
  destruct (omap date emails) as [|d0 ds] eqn:Hdates.
  { discriminate (proj1 Hnone eq_refl). }
  assert (∀ d, d ∈ d0 :: ds ↔ ∃ e, e ∈ emails ∧ date e = Some d) as Hin.
  { intros d. by rewrite <-Hdates, list_elem_of_omap. }
  destruct (proj1 (Hin (min_date d0 ds))) as (e_min & Hmin & Hdmin).
  { apply select_elem_of. }
  destruct (proj1 (Hin (max_date d0 ds))) as (e_max & Hmax & Hdmax).
  { apply select_elem_of. }
  exists e_min, e_max, (min_date d0 ds), (max_date d0 ds).
  split_and!; [done..|].
  intros e d He Hd. assert (d ∈ d0 :: ds) as Hd' by (apply Hin; eauto).
  split.
  - apply (select_best (λ d best, datetime_ltb d best)); [|apply datetime_ltb_trans|done].
    apply datetime_ltb_irrefl.
  - apply (select_best (λ d best, datetime_ltb best d)); [| |done].
    + apply datetime_ltb_irrefl.
    + intros a b c Hab Hbc. by apply (datetime_ltb_trans c b a).
Qed.

(** ** Daily and hourly activity *)

Lemma count_if_split {A} (p q : A → bool) (l : list A) :
  (∀ x, p x && q x = false) →
  count_if p l + count_if q l = count_if (λ x, p x || q x) l.
Proof.
  intros Hpq. induction l as [|x l IH]; [done|].
  rewrite !count_if_cons, <-IH. specialize (Hpq x).
  destruct (p x), (q x); simpl in *; try done; lia.
Qed.

Lemma count_if_none {A} (p : A → bool) (l : list A) :
  (∀ x, p x = false) → count_if p l = 0.
Proof.
  intros Hp. induction l as [|x l IH]; [done|].
  by rewrite count_if_cons, IH, Hp.
Qed.

(** The counts under a set of keys add up to the number of elements whose
    key is in the set. *)
Lemma histogram_total `{Countable K} {A} (key : A → option K)
    (step : gmap K Z → A → gmap K Z) (ks : list K) (l : list A) :
  (∀ m x, step m x = match key x with Some k => bump k m | None => m end) →
  NoDup ks →
  key_total ks (foldl step ∅ l)
  = count_if (λ x, match key x with
                   | Some k => bool_decide (k ∈ ks)
                   | None => false
                   end) l.
Proof.
  intros Hstep. induction 1 as [|k ks Hk Hks IH]; simpl.
  - symmetry. apply count_if_none. intros x. by destruct (key x).
  - rewrite IH, (histogram_get0 key step Hstep).
    unfold get0 at 1. rewrite lookup_empty. simpl. rewrite Z.add_0_l.
    rewrite count_if_split.
    + apply count_if_ext. intros x. destruct (key x) as [k'|]; [|done].
      destruct (decide (k' = k)) as [->|Hne].
      * rewrite (bool_decide_eq_true_2 (Some k = Some k)) by done.
        by rewrite (bool_decide_eq_true_2 (k ∈ k :: ks)) by left.
      * rewrite (bool_decide_eq_false_2 (Some k' = Some k)) by congruence.
        simpl. apply bool_decide_ext. rewrite elem_of_cons. tauto.
    + intros x. destruct (key x) as [k'|]; [|done].
      destruct (decide (k' = k)) as [->|Hne].
      * by rewrite (bool_decide_eq_false_2 (k ∈ ks)), andb_false_r.
      * by rewrite (bool_decide_eq_false_2 (Some k' = Some k)) by congruence.
Qed.

Lemma day_name_elem_of (d : datetime) :
  nth (Z.to_nat (weekday d)) day_names EmptyString ∈ day_names.
Proof.
  pose proof (weekday_range d) as Hrange.
  assert (Z.to_nat (weekday d) < 7)%nat as Hlt by lia.
  destruct (Z.to_nat (weekday d)) as [|[|[|[|[|[|[|n]]]]]]]; [| | | | | | |lia];
    unfold day_names; simpl; rewrite !elem_of_cons; tauto.
Qed.

(** No record with a timestamp is left out of the daily activity. *)
Lemma daily_activity_total (emails : list EmailMessage) :
  key_total day_names (_analyze_daily_activity emails) = count_if dated emails.
Proof.
  pose (key := λ e : EmailMessage,
          (λ d, nth (Z.to_nat (weekday d)) day_names EmptyString) <$> date e).
  unfold _analyze_daily_activity.
  rewrite (histogram_total key _ day_names emails).
  - apply count_if_ext. intros e. unfold key, dated.
    destruct (date e) as [d|]; simpl; [|done].
    apply bool_decide_eq_true_2, day_name_elem_of.
  - intros m e. unfold key. by destruct (date e).
  - assert (bool_decide (NoDup day_names) = true) as Hnodup by (by vm_compute).
    by apply bool_decide_eq_true_1 in Hnodup.
Qed.

(** X2.  The daily activity counts, under each day name, the records whose
    timestamp falls on that day; it has no key but the seven day names (the
    index into the names is always in range), and the seven counts add up
    to the number of records that have a timestamp. *)
Theorem daily_activity_counts (emails : list EmailMessage) :
  (∀ day, get0 day (_analyze_daily_activity emails) = count_if (on_day day) emails) ∧
  (∀ day, is_Some (_analyze_daily_activity emails !! day) → day ∈ day_names) ∧
  key_total day_names (_analyze_daily_activity emails) = count_if dated emails.
Proof.
  pose (key := λ e : EmailMessage,
          (λ d, nth (Z.to_nat (weekday d)) day_names EmptyString) <$> date e).
  assert (∀ m e, match date e with
                 | Some d => bump (nth (Z.to_nat (weekday d)) day_names EmptyString) m
                 | None => m
                 end = match key e with Some k => bump k m | None => m end) as Hstep.
  { intros m e. unfold key. by destruct (date e). }
  unfold _analyze_daily_activity. split_and!.
  - intros day. rewrite (histogram_get0 key _ Hstep).
    unfold get0 at 1. rewrite lookup_empty. simpl.
    apply count_if_ext. intros e. unfold on_day, key.
    destruct (date e) as [d|]; simpl; [|done].
    apply bool_decide_ext. split; congruence.
  - apply (histogram_keys key _ Hstep).
    + intros e k. unfold key. destruct (date e) as [d|]; [|done].
      intros [= <-]. apply day_name_elem_of.
    + intros k. rewrite lookup_empty. by intros [? ?].
  - apply daily_activity_total.
Qed.

Lemma count_if_ext_in {A} (p q : A → bool) (l : list A) :
  (∀ x, x ∈ l → p x = q x) → count_if p l = count_if q l.
Proof.
  induction l as [|x l IH]; intros Hpq; [done|].
  rewrite !count_if_cons, IH, (Hpq x); [done|by left|].
  intros y Hy. apply Hpq. by right.
Qed.

Lemma valid_dates_hour (emails : list EmailMessage) (e : EmailMessage) (d : datetime) :
  valid_dates emails → e ∈ emails → date e = Some d → 0 ≤ hour d < 24.
Proof.
  intros Hvalid He Hd. unfold valid_dates in Hvalid.
  rewrite Forall_forall in Hvalid. specialize (Hvalid e He).
  rewrite Hd in Hvalid. unfold valid_datetime in Hvalid. tauto.
Qed.

Lemma elem_of_band_hours (band : string) (h : Z) :
  h ∈ band_hours band ↔ 0 ≤ h < 24 ∧ time_band h = band.
Proof.
  unfold band_hours. rewrite list_elem_of_filter, elem_of_seqZ. split.
  - intros [? ?]. split; [lia|done].
  - intros [? ?]. split; [done|lia].
Qed.

Lemma histogram_keys_in `{Countable K} {A} (key : A → option K)
    (step : gmap K Z → A → gmap K Z) (P : K → Prop) (l : list A) (m : gmap K Z) :
  (∀ m x, step m x = match key x with Some k => bump k m | None => m end) →
  (∀ x k, x ∈ l → key x = Some k → P k) →
  (∀ k, is_Some (m !! k) → P k) →
  ∀ k, is_Some (foldl step m l !! k) → P k.
Proof.
  intros Hstep. revert m. induction l as [|x l IH]; intros m Hkey Hm; [done|].
  simpl. apply IH.
  - intros y k Hy. apply Hkey. by right.
  - intros k. rewrite Hstep. destruct (key x) as [k'|] eqn:Hx; [|by apply Hm].
    unfold bump. rewrite lookup_insert. case_decide; subst; [|by apply Hm].
    intros _. apply (Hkey x); [by left|done].
Qed.

Lemma hourly_activity_key_total (emails : list EmailMessage) (ks : list Z) :
  NoDup ks →
  key_total ks (_analyze_hourly_activity emails)
  = count_if (λ e, match date e with
                   | Some d => bool_decide (hour d ∈ ks)
                   | None => false
                   end) emails.
Proof.
  intros Hks. unfold _analyze_hourly_activity.
  rewrite (histogram_total (λ e : EmailMessage, hour <$> date e) _ ks emails); [|
    intros m e; by destruct (date e)|done].
  apply count_if_ext. intros e. by destruct (date e).
Qed.

(** No record with a timestamp is left out of the 24 hours. *)
Lemma hourly_activity_total (emails : list EmailMessage) :
  valid_dates emails →
  key_total (seqZ 0 24) (_analyze_hourly_activity emails) = count_if dated emails.
Proof.
  intros Hvalid. rewrite hourly_activity_key_total by apply NoDup_seqZ.
  apply count_if_ext_in. intros e He. unfold dated.
  destruct (date e) as [d|] eqn:Hd; [|done].
  apply bool_decide_eq_true_2, elem_of_seqZ.
  pose proof (valid_dates_hour emails e d Hvalid He Hd). lia.
Qed.

(** X3.  For records whose timestamps are [datetime] objects, the hourly
    activity counts under each hour the records sent at that hour, it has
    no key outside 0..23, its 24 counts add up to the number of records
    with a timestamp, and the count of each time-of-day band is the sum of
    the hourly counts over the hours of the band. *)
Theorem hourly_activity_counts (emails : list EmailMessage) :
  valid_dates emails →
  (∀ h, get0 h (_analyze_hourly_activity emails) = count_if (at_hour h) emails) ∧
  (∀ h, is_Some (_analyze_hourly_activity emails !! h) → 0 ≤ h < 24) ∧
  key_total (seqZ 0 24) (_analyze_hourly_activity emails) = count_if dated emails ∧
  (∀ band, get0 band (_analyze_time_activity emails)
           = key_total (band_hours band) (_analyze_hourly_activity emails)).
Proof.
  intros Hvalid.
  pose (key := λ e : EmailMessage, hour <$> date e).
  assert (∀ (m : gmap Z Z) e, match date e with
                 | Some d => bump (hour d) m
                 | None => m
                 end = match key e with Some k => bump k m | None => m end) as Hstep.
  { intros m e. unfold key. by destruct (date e). }
  pose proof (hourly_activity_key_total emails) as Htotal.
  split_and!.
  - intros h. unfold _analyze_hourly_activity.
    rewrite (histogram_get0 key _ Hstep).
    unfold get0 at 1. rewrite lookup_empty. simpl.
    apply count_if_ext. intros e. unfold at_hour, key.
    destruct (date e) as [d|]; simpl; [|done].
    apply bool_decide_ext. split; congruence.
  - unfold _analyze_hourly_activity.
    apply (histogram_keys_in key _ (λ h, 0 ≤ h < 24) emails ∅ Hstep).
    + intros e h He. unfold key. destruct (date e) as [d|] eqn:Hd; [|done].
      intros [= <-]. by apply (valid_dates_hour emails e).
    + intros h. rewrite lookup_empty. by intros [? ?].
  - by apply hourly_activity_total.
  - intros band. rewrite time_activity_get0.
    rewrite Htotal by (apply NoDup_filter, NoDup_seqZ).
    apply count_if_ext_in. intros e He. unfold in_time_band.
    destruct (date e) as [d|] eqn:Hd; [|done].
    apply bool_decide_ext. rewrite elem_of_band_hours.
    pose proof (valid_dates_hour emails e d Hvalid He Hd). tauto.
Qed.

(** Checks [valid_dates] on a literal list. *)
Ltac valid_dates :=
  unfold valid_dates;
  repeat (constructor;
          [first [exact I
                 |unfold valid_datetime; simpl;
                  repeat match goal with
                    | |- context [days_in_month ?y ?m] =>
                        let v := eval vm_compute in (days_in_month y m) in
                        change (days_in_month y m) with v
                    end; lia]|]);
  constructor.

Lemma hello_thread_valid : valid_dates hello_thread.
Proof. unfold hello_thread. valid_dates. Qed.

Lemma hourly_activity_counts_witness :
  valid_dates hello_thread ∧
  get0 9 (_analyze_hourly_activity hello_thread) = 2 ∧
  get0 "Morning (6-12)" (_analyze_time_activity hello_thread)
  = key_total (band_hours "Morning (6-12)") (_analyze_hourly_activity hello_thread).
Proof.
  pose proof hello_thread_valid as Hvalid.
  destruct (hourly_activity_counts hello_thread Hvalid) as (Hget & _ & _ & Hband).
  split_and!; [exact Hvalid| |apply Hband].
  rewrite Hget. by vm_compute.
Defined.

(** ** Integers as floats *)

Lemma float_add (a b : Z) : float (a + b) = (float a + float b)%Qc.
Proof.
  apply Qc_is_canon. unfold float. simpl.
  rewrite !Qred_correct, inject_Z_plus. reflexivity.
Qed.

Lemma float_mul (a b : Z) : float (a * b) = (float a * float b)%Qc.
Proof.
  apply Qc_is_canon. unfold float. simpl.
  rewrite !Qred_correct, inject_Z_mult. reflexivity.
Qed.

Lemma float_le (a b : Z) : a ≤ b ↔ (float a <= float b)%Qc.
Proof.
  unfold float, Qcle. simpl. rewrite !Qred_correct. by rewrite <-Zle_Qle.
Qed.

Lemma float_lt (a b : Z) : a < b ↔ (float a < float b)%Qc.
Proof.
  unfold float, Qclt. simpl. rewrite !Qred_correct. by rewrite <-Zlt_Qlt.
Qed.

Lemma float_inj (a b : Z) : float a = float b → a = b.
Proof.
  intros Hab. apply Z.le_antisymm; apply (proj2 (float_le _ _)); rewrite Hab; apply Qcle_refl.
Qed.

Lemma float_ne_0 (b : Z) : b ≠ 0 → float b ≠ 0%Qc.
Proof. intros Hb Hf. apply Hb. by apply float_inj. Qed.

(** [a / b * b] is [a]. *)
Lemma pydiv_mul (a b : Z) : b ≠ 0 → (pydiv a b * float b)%Qc = float a.
Proof.
  intros Hb. unfold pydiv. rewrite Qcmult_comm.
  apply Qcmult_div_r. by apply float_ne_0.
Qed.

Lemma pydiv_le (a b c : Z) : 0 < b → a ≤ c * b → (pydiv a b <= float c)%Qc.
Proof.
  intros Hb Hac. apply (Qcmult_lt_0_le_reg_r _ _ (float b)).
  - by apply (proj1 (float_lt 0 b)).
  - rewrite pydiv_mul by lia. rewrite <-float_mul. by apply (proj1 (float_le a (c * b))).
Qed.

Lemma pydiv_ge (a b c : Z) : 0 < b → c * b ≤ a → (float c <= pydiv a b)%Qc.
Proof.
  intros Hb Hac. apply (Qcmult_lt_0_le_reg_r _ _ (float b)).
  - by apply (proj1 (float_lt 0 b)).
  - rewrite pydiv_mul by lia. rewrite <-float_mul. by apply (proj1 (float_le (c * b) a)).
Qed.

(** ** Sizes *)

Lemma maxZ_elem_of (l : list Z) : l ≠ [] → maxZ l ∈ l.
Proof. destruct l as [|x l]; [done|]. intros _. apply select_elem_of. Qed.

Lemma minZ_elem_of (l : list Z) : l ≠ [] → minZ l ∈ l.
Proof. destruct l as [|x l]; [done|]. intros _. apply select_elem_of. Qed.

Lemma maxZ_ge (l : list Z) (x : Z) : x ∈ l → x ≤ maxZ l.
Proof.
  destruct l as [|x0 l]; [by intros ?%elem_of_nil|]. intros Hx.
  apply Z.ltb_ge. apply (select_best (λ y best, best <? y)); [| |done].
  - intros z. apply Z.ltb_irrefl.
  - intros a b c Hab%Z.ltb_lt Hbc%Z.ltb_lt. apply Z.ltb_lt. lia.
Qed.

Lemma minZ_le (l : list Z) (x : Z) : x ∈ l → minZ l ≤ x.
Proof.
  destruct l as [|x0 l]; [by intros ?%elem_of_nil|]. intros Hx.
  apply Z.ltb_ge. apply (select_best (λ y best, y <? best)); [| |done].
  - intros z. apply Z.ltb_irrefl.
  - intros a b c Hab%Z.ltb_lt Hbc%Z.ltb_lt. apply Z.ltb_lt. lia.
Qed.

Lemma sumZ_bounds (l : list Z) (a b : Z) :
  (∀ x, x ∈ l → a ≤ x ≤ b) →
  a * Z.of_nat (length l) ≤ sumZ l ≤ b * Z.of_nat (length l).
Proof.
  rewrite sumZ_foldr. induction l as [|x l IH]; intros Hl; simpl; [lia|].
  assert (a ≤ x ≤ b) by (apply Hl; by left).
  assert (∀ y, y ∈ l → a ≤ y ≤ b) as Hl' by (intros y Hy; apply Hl; by right).
  specialize (IH Hl'). lia.
Qed.

(** The average of a sequence that is not empty lies between its least and
    its greatest element. *)
Lemma average_bounds (l : list Z) :
  l ≠ [] →
  (float (minZ l) <= pydiv (sumZ l) (Z.of_nat (length l)))%Qc ∧
  (pydiv (sumZ l) (Z.of_nat (length l)) <= float (maxZ l))%Qc.
Proof.
  intros Hl.
  assert (0 < Z.of_nat (length l)) as Hlen by (destruct l; [done|simpl; lia]).
  destruct (sumZ_bounds l (minZ l) (maxZ l)) as [Hmin Hmax].
  { intros x Hx. split; [by apply minZ_le|by apply maxZ_ge]. }
  split; [by apply pydiv_ge|by apply pydiv_le].
Qed.



(** ** Counters and their most common items *)

Lemma count_if_app {A} (p : A → bool) (l l' : list A) :
  count_if p (l ++ l') = count_if p l + count_if p l'.
Proof. unfold count_if. rewrite filter_app, length_app. lia. Qed.

Lemma count_if_le {A} (p : A → bool) (l : list A) :
  count_if p l ≤ Z.of_nat (length l).
Proof. unfold count_if. pose proof (length_filter (λ x, p x = true) l). lia. Qed.

(** Counting among the keys of the elements, when each element has its key
    at most once. *)
Lemma count_if_bind {A B} (p : B → bool) (q : A → bool) (f : A → list B) (l : list A) :
  (∀ x, count_if p (f x) = if q x then 1 else 0) →
  count_if p (l ≫= f) = count_if q l.
Proof.
  intros Hf. induction l as [|x l IH]; [done|].
  csimpl. by rewrite count_if_app, count_if_cons, IH, Hf.
Qed.

Lemma StronglySorted_weaken {A} (R R' : A → A → Prop) (l : list A) :
  (∀ a b, R a b → R' a b) → StronglySorted R l → StronglySorted R' l.
Proof.
  intros HR. induction 1 as [|x l _ IH Hx]; constructor; [done|].
  eapply Forall_impl; [exact Hx|]. intros y. apply HR.
Qed.

Section counter_items.
Context {K : Type} `{EqDecision K}.
Implicit Types (c : list (K * Z)) (k : K) (ks : list K).

(** The items of a counter filled by [update]: each key that occurs, with
    the number of its occurrences. *)
Lemma elem_of_update ks k (n : Z) :
  (k, n) ∈ update ks [] ↔ n = count_if (λ x, bool_decide (x = k)) ks ∧ 0 < n.
Proof.
  rewrite <-assoc_Some by (apply update_NoDup; constructor).
  rewrite update_assoc. simpl.
  pose proof (count_if_nonneg (λ x, bool_decide (x = k)) ks).
  destruct (Z.eqb_spec (count_if (λ x, bool_decide (x = k)) ks) 0) as [Hz|Hnz].
  - split; [done|lia].
  - split; [intros [= <-]; lia|intros [-> _]; f_equal; lia].
Qed.

Lemma most_common_length (n : nat) c : (length (most_common n c) ≤ n)%nat.
Proof. unfold most_common. rewrite length_take. lia. Qed.

Lemma most_common_subseteq (n : nat) c : most_common n c ⊆ c.
Proof.
  unfold most_common. intros kv Hkv%subseteq_take.
  by rewrite sort_by_Permutation in Hkv.
Qed.

Lemma counts_sorted c :
  StronglySorted (λ a b : K * Z, b.2 ≤ a.2) (sort_by (λ y x, x.2 <? y.2) c).
Proof.
  apply (StronglySorted_weaken (λ a b : K * Z, (a.2 <? b.2) = false)).
  - intros a b Hab%Z.ltb_ge. done.
  - apply (sort_by_sorted (λ y x : K * Z, x.2 <? y.2)).
    + intros x y Hxy%Z.ltb_lt. apply Z.ltb_ge. lia.
    + intros x y z Hzy%Z.ltb_ge Hyx%Z.ltb_ge. apply Z.ltb_ge. lia.
Qed.

Lemma most_common_sorted (n : nat) c :
  StronglySorted (λ a b : K * Z, b.2 ≤ a.2) (most_common n c).
Proof.
  pose proof (counts_sorted c) as Hsorted.
  rewrite <-(take_drop n (sort_by (λ y x, x.2 <? y.2) c)) in Hsorted.
  by apply StronglySorted_app in Hsorted as (_ & Htake & _).
Qed.

Lemma most_common_NoDup (n : nat) c : NoDup c.*1 → NoDup (most_common n c).*1.
Proof.
  intros Hc. unfold most_common. rewrite fmap_take.
  eapply sublist_NoDup; [|apply sublist_take].
  by rewrite sort_by_Permutation.
Qed.

(** An item that is left out: the list is full, and no listed item has a
    smaller count. *)
Lemma most_common_left_out (n : nat) c (kv : K * Z) :
  kv ∈ c → kv ∉ most_common n c →
  length (most_common n c) = n ∧ ∀ kv', kv' ∈ most_common n c → kv.2 ≤ kv'.2.
Proof.
  unfold most_common. intros Hin Hout.
  pose proof (counts_sorted c) as Hsorted.
  rewrite <-(sort_by_Permutation (λ y x, x.2 <? y.2) c) in Hin.
  set (s := sort_by (λ y x, x.2 <? y.2) c) in *.
  rewrite <-(take_drop n s) in Hin, Hsorted.
  apply elem_of_app in Hin as [Hin|Hin]; [done|].
  split.
  - rewrite length_take. apply list_elem_of_lookup in Hin as [i Hi].
    apply lookup_lt_Some in Hi. rewrite length_drop in Hi. lia.
  - intros kv' Hkv'. apply StronglySorted_app in Hsorted as (Hle & _ & _).
    by apply Hle.
Qed.
End counter_items.

Lemma sender_counter_update (emails : list EmailMessage) :
  sender_counter emails = update (emails ≫= sender_keys) [].
Proof.
  unfold sender_counter. apply (counting_update sender_keys).
  intros c e. unfold sender_keys. by destruct (truthy (sender e)).
Qed.

Lemma elem_of_sender_counter (k : string) (n : Z) (emails : list EmailMessage) :
  (k, n) ∈ sender_counter emails ↔ n = count_if (sent_by k) emails ∧ 0 < n.
Proof.
  rewrite sender_counter_update, elem_of_update.
  rewrite (count_if_bind _ (sent_by k)); [done|].
  intros e. unfold sender_keys, sent_by. destruct (truthy (sender e)); [|done].
  rewrite count_if_cons. simpl.
  destruct (bool_decide (sender_key (sender e) = k)); done.
Qed.

(** X5.  [top_senders] has at most 20 entries with distinct keys, in
    non-increasing order of count; the count of an entry is the number of
    records with a sender that are counted under its key, and it is at
    least 1; a key that is counted and is not listed has a count no
    greater than that of any listed key, and then the list is full. *)
Theorem top_senders_ranked (emails : list EmailMessage) :
  let top := _analyze_senders emails in
  (length top ≤ 20)%nat ∧ NoDup top.*1 ∧
  StronglySorted (λ a b, b.2 ≤ a.2) top ∧
  (∀ k n, (k, n) ∈ top → n = count_if (sent_by k) emails ∧ 1 ≤ n) ∧
  (∀ k, 0 < count_if (sent_by k) emails → k ∉ top.*1 →
        length top = 20%nat ∧
        ∀ k' n', (k', n') ∈ top → count_if (sent_by k) emails ≤ n').
Proof.
  unfold _analyze_senders. split_and!.
  - apply most_common_length.
  - apply most_common_NoDup. rewrite sender_counter_update.
    apply update_NoDup. constructor.
  - apply most_common_sorted.
  - intros k n Hin%most_common_subseteq.
    apply elem_of_sender_counter in Hin as [-> Hpos]. split; [done|lia].
  - intros k Hk Hout.
    destruct (most_common_left_out 20 (sender_counter emails)
                (k, count_if (sent_by k) emails)) as [Hlen Hle].
    + by apply elem_of_sender_counter.
    + intros Hin. apply Hout. apply list_elem_of_fmap. by eexists (_, _).
    + split; [done|]. intros k' n' Hin. apply (Hle (k', n') Hin).
Qed.

(** ** Domains *)

Lemma length_bind {A B} (q : A → bool) (f : A → list B) (l : list A) :
  (∀ x, length (f x) = if q x then 1%nat else 0%nat) →
  Z.of_nat (length (l ≫= f)) = count_if q l.
Proof.
  intros Hf. induction l as [|x l IH]; [done|].
  csimpl. rewrite length_app, count_if_cons, <-IH, Hf. destruct (q x); lia.
Qed.

Lemma sumZ_app (l l' : list Z) : sumZ (l ++ l') = sumZ l + sumZ l'.
Proof.
  rewrite !sumZ_foldr. induction l as [|x l IH]; simpl; lia.
Qed.

Lemma sumZ_nonneg (l : list Z) : (∀ x, x ∈ l → 0 ≤ x) → 0 ≤ sumZ l.
Proof.
  rewrite sumZ_foldr. induction l as [|x l IH]; intros Hl; simpl; [done|].
  assert (0 ≤ x) by (apply Hl; by left).
  assert (0 ≤ foldr Z.add 0 l); [|lia].
  apply IH. intros y Hy. apply Hl. by right.
Qed.

Section counter_sizes.
Context {K : Type} `{EqDecision K}.
Implicit Types (c : list (K * Z)) (k : K) (ks : list K).

Lemma incr_length k c : (length (incr k c) ≤ S (length c))%nat.
Proof.
  unfold incr. induction c as [|[k0 v] c IH]; simpl; [done|].
  destruct (decide (k0 = k)); simpl; lia.
Qed.

Lemma update_length ks c : (length (update ks c) ≤ length c + length ks)%nat.
Proof.
  revert c. induction ks as [|k ks IH]; intros c; simpl; [lia|].
  change (update (k :: ks) c) with (update ks (incr k c)).
  pose proof (IH (incr k c)). pose proof (incr_length k c). lia.
Qed.

Lemma incr_sum k c : sumZ (incr k c).*2 = sumZ c.*2 + 1.
Proof.
  rewrite !sumZ_foldr. unfold incr.
  induction c as [|[k0 v] c IH]; csimpl; [done|].
  destruct (decide (k0 = k)); csimpl; lia.
Qed.

(** The counts of a counter filled by [update] add up to the number of
    keys it was given. *)
Lemma update_sum ks c : sumZ (update ks c).*2 = sumZ c.*2 + Z.of_nat (length ks).
Proof.
  revert c. induction ks as [|k ks IH]; intros c; simpl; [lia|].
  change (update (k :: ks) c) with (update ks (incr k c)).
  rewrite IH, incr_sum. lia.
Qed.

Lemma most_common_all (n : nat) c : (length c ≤ n)%nat → most_common n c ≡ₚ c.
Proof.
  intros Hlen. unfold most_common. rewrite take_ge.
  - apply sort_by_Permutation.
  - by rewrite sort_by_Permutation.
Qed.

Lemma most_common_sum (n : nat) c :
  (∀ kv, kv ∈ c → 0 ≤ kv.2) → sumZ (most_common n c).*2 ≤ sumZ c.*2.
Proof.
  intros Hc. unfold most_common.
  rewrite <-(sumZ_Permutation _ _ (fmap_Permutation snd _ _ (sort_by_Permutation (λ y x, x.2 <? y.2) c))).
  set (s := sort_by (λ y x, x.2 <? y.2) c).
  rewrite <-(take_drop n s) at 2. rewrite fmap_app, sumZ_app.
  assert (0 ≤ sumZ (drop n s).*2); [|lia].
  apply sumZ_nonneg. intros x (kv & -> & Hkv)%list_elem_of_fmap.
  apply Hc. rewrite <-(sort_by_Permutation (λ y x, x.2 <? y.2) c).
  fold s. rewrite <-(take_drop n s). apply elem_of_app. by right.
Qed.
End counter_sizes.

Lemma domain_counter_update (emails : list EmailMessage) :
  domain_counter emails = update (emails ≫= domain_keys) [].
Proof.
  unfold domain_counter. apply (counting_update domain_keys).
  intros c e. unfold domain_keys.
  by destruct (truthy (sender e)), (search_domain (sender e)).
Qed.

Lemma elem_of_domain_counter (k : string) (n : Z) (emails : list EmailMessage) :
  (k, n) ∈ domain_counter emails ↔ n = count_if (from_domain k) emails ∧ 0 < n.
Proof.
  rewrite domain_counter_update, elem_of_update.
  rewrite (count_if_bind _ (from_domain k)); [done|].
  intros e. unfold domain_keys, from_domain. destruct (truthy (sender e)); [|done].
  destruct (search_domain (sender e)) as [d|]; [|done].
  rewrite count_if_cons. simpl.
  destruct (decide (d = k)) as [->|Hne].
  - by rewrite !bool_decide_eq_true_2.
  - rewrite !bool_decide_eq_false_2; [done|congruence|done].
Qed.

Lemma domain_keys_length (emails : list EmailMessage) :
  Z.of_nat (length (emails ≫= domain_keys)) = count_if has_domain emails.
Proof.
  apply length_bind. intros e. unfold domain_keys, has_domain.
  destruct (truthy (sender e)); [|done].
  destruct (search_domain (sender e)) as [d|].
  - by rewrite bool_decide_eq_true_2.
  - rewrite bool_decide_eq_false_2; [done|]. by intros [? ?].
Qed.


(** ** Addresses and domains in a sender string *)

Lemma str_app (a b : list ascii) : str (a ++ b) = str a +:+ str b.
Proof. by rewrite <-(str_chars (str a +:+ str b)), chars_app, !chars_str. Qed.

Lemma span_app {A} (p : A → bool) (l : list A) : (span p l).1 ++ (span p l).2 = l.
Proof.
  induction l as [|x l IH]; [done|]. simpl.
  destruct (p x); [|done]. destruct (span p l) as [a b]. simpl in *. by rewrite IH.
Qed.

(** A match found by [search] is the match at some position. *)
Lemma search_Some {A} (m : list ascii → option A) (l : list ascii) (x : A) :
  search m l = Some x → ∃ pre suf, l = pre ++ suf ∧ m suf = Some x.
Proof.
  induction l as [|c l IH]; simpl.
  - destruct (m []) eqn:Hm; [|done]. intros [= ->]. by exists [], [].
  - destruct (m (c :: l)) eqn:Hm.
    + intros [= ->]. by exists [], (c :: l).
    + intros (pre & suf & -> & Hsuf)%IH. by exists (c :: pre), suf.
Qed.

(** [search] finds a match when some position has one. *)
Lemma search_is_Some {A} (m : list ascii → option A) (pre suf : list ascii) :
  is_Some (m suf) → is_Some (search m (pre ++ suf)).
Proof.
  intros Hsuf. induction pre as [|c pre IH]; simpl.
  - destruct suf as [|c suf]; simpl; destruct Hsuf as [x ->]; eauto.
  - destruct (m (c :: pre ++ suf)); eauto.
Qed.

Lemma last_tld_prefix (pre d : list ascii) (best : option (list ascii)) (r : list ascii) :
  last_tld pre d best = Some r → best = Some r ∨ r `prefix_of` rev pre ++ d.
Proof.
  revert pre best. induction d as [|c d IH]; intros pre best; simpl; [auto|].
  intros [Hbest|Hprefix]%IH.
  - case_bool_decide as Hc; [|auto]. right. injection Hbest as <-.
    apply prefix_app, prefix_cons.
    exists (span is_alpha d).2. by rewrite span_app.
  - right. simpl in Hprefix. by rewrite <-app_assoc in Hprefix.
Qed.

Lemma match_domain_prefix (l dom : list ascii) :
  match_domain l = Some dom → dom `prefix_of` l.
Proof.
  unfold match_domain. intros [?|Hprefix]%last_tld_prefix; [done|].
  simpl in Hprefix. etrans; [exact Hprefix|].
  exists (span is_domain l).2. by rewrite span_app.
Qed.

Lemma match_address_Some (l address : list ascii) :
  match_address l = Some address →
  ∃ loc r dom, l = loc ++ "@"%char :: r ∧ loc ≠ [] ∧
    match_domain r = Some dom ∧ address = loc ++ "@"%char :: dom.
Proof.
  unfold match_address. pose proof (span_app is_local l) as Hl.
  destruct (span is_local l) as [[|c loc] [|a r]]; try done.
  simpl in Hl.
  destruct (decide (a = "@"%char)) as [->|Hne].
  - destruct (match_domain r) as [dom|] eqn:Hdom; [|done].
    intros [= <-]. by exists (c :: loc), r, dom.
  - destruct a as [[] [] [] [] [] [] [] []]; try done.
Qed.

(** X7.  The address that the sender analysis finds in a sender string is
    a piece of the string, made of a local part that is not empty, an
    at-sign and a domain; and whenever an address is found, the domain
    analysis finds a domain in the same string. *)
Theorem address_has_domain (sender_text address : string) :
  search_address sender_text = Some address →
  (∃ before local domain after,
     sender_text = before +:+ address +:+ after ∧
     address = local +:+ "@" +:+ domain ∧ local ≠ EmptyString) ∧
  is_Some (search_domain sender_text).
Proof.
  unfold search_address, search_domain.
  destruct (search match_address (chars sender_text)) as [a|] eqn:Hsearch; [|done].
  intros [= <-].
  apply search_Some in Hsearch as (pre & suf & Hpre & Hsuf).
  apply match_address_Some in Hsuf as (loc & r & dom & -> & Hloc & Hdom & ->).
  destruct (match_domain_prefix _ _ Hdom) as [post ->].
  split.
  - exists (str pre), (str loc), (str dom), (str post). split_and!.
    + rewrite <-!str_app, <-(str_chars sender_text), Hpre.
      by rewrite <-!app_assoc.
    + by rewrite (str_app loc ("@"%char :: dom)).
    + intros Hnil. apply Hloc. by rewrite <-(chars_str loc), Hnil.
  - rewrite Hpre, (app_assoc pre loc).
    apply fmap_is_Some, search_is_Some. simpl. by rewrite Hdom.
Qed.

Lemma address_has_domain_witness :
  search_address "Bob <bob@mail.example.org>" = Some "bob@mail.example.org" ∧
  is_Some (search_domain "Bob <bob@mail.example.org>").
Proof.
  assert (search_address "Bob <bob@mail.example.org>" = Some "bob@mail.example.org")
    as Hfound by (by vm_compute).
  split; [exact Hfound|].
  exact (proj2 (address_has_domain _ _ Hfound)).
Defined.

(** ** Attachments *)

Lemma after_last_dot_None (l : list ascii) :
  "."%char ∉ l → after_last_dot l = None.
Proof.
  induction l as [|c l IH]; [done|].
  intros [Hc Hl]%not_elem_of_cons. simpl. rewrite IH by done.
  by rewrite bool_decide_eq_false_2.
Qed.

Lemma after_last_dot_app (stem ext : list ascii) :
  "."%char ∉ ext → after_last_dot (stem ++ "."%char :: ext) = Some ext.
Proof.
  intros Hext. induction stem as [|c stem IH]; simpl.
  - by rewrite after_last_dot_None.
  - by rewrite IH.
Qed.

(** X8.  The key under which an attachment name is counted: the lowered
    text after the last dot of the name, whatever comes before that dot,
    and no_extension for a name without a dot. *)
Theorem extension_of_name (stem ext : string) :
  "."%char ∉ chars ext →
  extension (stem +:+ "." +:+ ext) = lower ext ∧
  extension ext = "no_extension".
Proof.
  intros Hext. unfold extension. split.
  - rewrite chars_app. change (chars ("." +:+ ext)) with ("."%char :: chars ext).
    rewrite after_last_dot_app by done. by rewrite str_chars.
  - by rewrite after_last_dot_None.
Qed.

Lemma extension_of_name_witness :
  ("."%char ∉ chars "PDF") ∧
  extension ("report.final" +:+ "." +:+ "PDF") = "pdf" ∧
  extension "PDF" = "no_extension".
Proof.
  assert ("."%char ∉ chars "PDF") as Hext.
  { simpl. rewrite !not_elem_of_cons. split_and!; try done. apply not_elem_of_nil. }
  split; [exact Hext|].
  exact (extension_of_name "report.final" "PDF" Hext).
Defined.

Lemma foldl_sum {A} (f : A → Z) (l : list A) (a : Z) :
  foldl (λ n x, n + f x) a l = a + sumZ (f <$> l).
Proof.
  rewrite sumZ_foldr. revert a. induction l as [|x l IH]; intros a; csimpl; [lia|].
  rewrite IH. lia.
Qed.

Lemma count_if_sum {A} (q : A → bool) (l : list A) :
  count_if q l = sumZ ((λ x, if q x then 1 else 0) <$> l).
Proof.
  rewrite sumZ_foldr. induction l as [|x l IH]; [done|].
  rewrite count_if_cons. csimpl. by rewrite IH.
Qed.

Lemma sumZ_le {A} (f g : A → Z) (l : list A) :
  (∀ x, f x ≤ g x) → sumZ (f <$> l) ≤ sumZ (g <$> l).
Proof.
  intros Hfg. rewrite !sumZ_foldr. induction l as [|x l IH]; csimpl; [done|].
  specialize (Hfg x). lia.
Qed.

(** [dict(items)] of items with distinct keys. *)
Lemma dict_lookup `{Countable K} {V} (items : list (K * V)) (k : K) :
  NoDup items.*1 → dict items !! k = assoc k items.
Proof.
  unfold dict.
  enough (∀ m : gmap K V, NoDup items.*1 →
            foldl (λ m kv, <[kv.1 := kv.2]> m) m items !! k
            = match assoc k items with Some v => Some v | None => m !! k end) as Hloop.
  { intros Hitems. rewrite Hloop by done. rewrite lookup_empty. by destruct (assoc k items). }
  induction items as [|[k0 v0] items IH]; intros m; [done|].
  csimpl. intros [Hk0 Hitems]%NoDup_cons. rewrite IH by done.
  destruct (decide (k0 = k)) as [->|Hne].
  - rewrite (proj2 (assoc_None k items)) by done. by rewrite lookup_insert_eq.
  - rewrite lookup_insert_ne by done. done.
Qed.

Lemma dict_size `{Countable K} {V} (items : list (K * V)) :
  (base.size (dict items) ≤ length items)%nat.
Proof.
  unfold dict.
  enough (∀ m : gmap K V,
            (base.size (foldl (λ m kv, <[kv.1 := kv.2]> m) m items)
             ≤ base.size m + length items)%nat) as Hloop.
  { specialize (Hloop ∅). by rewrite map_size_empty in Hloop. }
  induction items as [|[k0 v0] items IH]; intros m; cbn [foldl length]; [lia|].
  etrans; [apply IH|]. pose proof (map_size_insert k0 v0 m) as Hsize.
  cbn [fst snd]. rewrite Hsize. destruct (m !! k0); unfold id; lia.
Qed.

Lemma attachment_type_counter_update (emails : list EmailMessage) :
  attachment_type_counter emails = update (emails ≫= extensions) [].
Proof. unfold attachment_type_counter. by rewrite attachments_loop_eq. Qed.


(** ** Sentiment *)

Lemma sentiment_loop_eq (emails : list EmailMessage) :
  sentiment_loop emails
  = (count_if (classified Positive) emails,
     count_if (classified Negative) emails,
     count_if (classified Neutral) emails).
Proof.
  unfold sentiment_loop.
  enough (∀ a b c,
    foldl (λ '(positive_count, negative_count, neutral_count) email,
             match classify email with
             | Positive => (positive_count + 1, negative_count, neutral_count)
             | Negative => (positive_count, negative_count + 1, neutral_count)
             | Neutral => (positive_count, negative_count, neutral_count + 1)
             end)
          (a, b, c) emails
    = (a + count_if (classified Positive) emails,
       b + count_if (classified Negative) emails,
       c + count_if (classified Neutral) emails)) as Hloop by apply Hloop.
  induction emails as [|e emails IH]; intros a b c; simpl.
  { unfold count_if. simpl. by rewrite !Z.add_0_r. }
  rewrite !count_if_cons. unfold classified at 1 3 5.
  destruct (classify e); by rewrite IH, ?Z.add_0_l, ?Z.add_assoc.
Qed.

Lemma classified_total (emails : list EmailMessage) :
  count_if (classified Positive) emails + count_if (classified Negative) emails
  + count_if (classified Neutral) emails = Z.of_nat (length emails).
Proof.
  induction emails as [|e emails IH]; [done|].
  rewrite !count_if_cons. unfold classified at 1 3 5. cbn [length].
  destruct (classify e); lia.
Qed.

Lemma pydiv_add (a b t : Z) : (pydiv a t + pydiv b t)%Qc = pydiv (a + b) t.
Proof. unfold pydiv, Qcdiv. by rewrite float_add, Qcmult_plus_distr_l. Qed.

Lemma pydiv_diag (t : Z) : t ≠ 0 → pydiv t t = 1%Qc.
Proof. intros Ht. unfold pydiv. apply Qcmult_inv_r. by apply float_ne_0. Qed.

Lemma percentage_bounds (n total : Z) :
  0 ≤ n ≤ total → (0 <= percentage n total)%Qc ∧ (percentage n total <= float 100)%Qc.
Proof.
  intros Hn. unfold percentage. destruct (Z.ltb_spec 0 total) as [Hpos|_].
  - split.
    + change 0%Qc with (float 0 * float 100)%Qc. apply Qcmult_le_compat_r.
      * apply pydiv_ge; [done|lia].
      * by apply (proj1 (float_le 0 100)).
    + rewrite <-(Qcmult_1_l (float 100)) at 2. apply Qcmult_le_compat_r.
      * apply (pydiv_le _ _ 1); [done|lia].
      * by apply (proj1 (float_le 0 100)).
  - split; [apply Qcle_refl|by apply (proj1 (float_le 0 100))].
Qed.


(** ** Keywords *)

Lemma lower_char_not_upper (c : ascii) : is_upper (lower_char c) = false.
Proof. by destruct c as [[] [] [] [] [] [] [] []]. Qed.

Lemma elem_of_runs_acc {A} (p : A → bool) (cur l r : list A) (x : A) :
  r ∈ runs_acc p cur l → x ∈ r → x ∈ cur ∨ x ∈ l.
Proof.
  revert cur. induction l as [|y l IH]; intros cur; simpl.
  - destruct cur as [|z cur]; [by intros ?%elem_of_nil|].
    intros ->%list_elem_of_singleton Hx. left.
    by apply list_elem_of_In, in_rev, list_elem_of_In.
  - destruct (p y).
    + intros Hr Hx. destruct (IH _ Hr Hx) as [Hcur|Hl].
      * apply elem_of_cons in Hcur as [->|Hcur]; [right; by left|by left].
      * right. by right.
    + destruct cur as [|z cur].
      * intros Hr Hx. destruct (IH _ Hr Hx) as [Hcur|Hl]; [by left|right; by right].
      * intros [->|Hr]%elem_of_cons Hx.
        -- left. by apply list_elem_of_In, in_rev, list_elem_of_In.
        -- destruct (IH _ Hr Hx) as [Hcur|Hl]; [by apply elem_of_nil in Hcur|].
           right. by right.
Qed.

(** The words found in a lowered text have no capital letter. *)
Lemma findall_alpha3_lower (s w : string) :
  w ∈ findall_alpha3 (lower s) →
  (3 ≤ String.length w)%nat ∧ forallb is_lower (chars w) = true.
Proof.
  unfold findall_alpha3. intros (r & -> & Hr)%list_elem_of_fmap.
  apply list_elem_of_filter in Hr as [[Halpha Hlen] Hr].
  rewrite <-chars_length, chars_str. split; [done|].
  apply forallb_forall. intros c Hc. apply list_elem_of_In in Hc.
  rewrite forallb_forall in Halpha. specialize (Halpha c (proj1 (list_elem_of_In _ _) Hc)).
  destruct (elem_of_runs_acc _ _ _ _ _ Hr Hc) as [Hnil|Hin]; [by apply elem_of_nil in Hnil|].
  unfold lower in Hin. rewrite chars_str in Hin.
  apply list_elem_of_In, in_map_iff in Hin as (c0 & <- & _).
  unfold is_alpha in Halpha. by rewrite lower_char_not_upper in Halpha.
Qed.

Lemma word_counter_update (emails : list EmailMessage) :
  word_counter emails = update (emails ≫= filtered_words) [].
Proof. unfold word_counter. by apply (counting_update filtered_words). Qed.

Lemma head_take {A} (n : nat) (l : list A) : head (take (S n) l) = head l.
Proof. by destruct l. Qed.

(** X11.  The keyword analysis: [top_keywords] has at most 50 entries; a
    listed word is counted with the number of its occurrences among the
    words kept from the texts of the records, is no stop word, has at least
    three letters and no capital letter; [most_common_word] is the first
    entry of [top_keywords], no word is counted more often than it, and it
    is missing exactly when no word was kept. *)
Theorem keyword_statistics (emails : list EmailMessage) :
  let stats := _analyze_keywords emails in
  (length (top_keywords stats) ≤ 50)%nat ∧
  (∀ w n, (w, n) ∈ top_keywords stats →
     n = count_if (λ x, bool_decide (x = w)) (emails ≫= filtered_words) ∧ 1 ≤ n ∧
     (w ∉ stop_words) ∧ (3 ≤ String.length w)%nat ∧
     forallb is_lower (chars w) = true) ∧
  most_common_word stats = head (top_keywords stats) ∧
  (∀ w n, most_common_word stats = Some (w, n) →
     ∀ w', count_if (λ x, bool_decide (x = w')) (emails ≫= filtered_words) ≤ n) ∧
  (most_common_word stats = None ↔ emails ≫= filtered_words = []) ∧
  0 ≤ total_unique_words stats ≤ Z.of_nat (length (emails ≫= filtered_words)).
Proof.
  unfold _analyze_keywords. cbn [top_keywords most_common_word total_unique_words].
  rewrite word_counter_update. set (words := emails ≫= filtered_words).
  assert (∀ w, w ∈ words →
            (w ∉ stop_words) ∧ (3 ≤ String.length w)%nat ∧
            forallb is_lower (chars w) = true) as Hwords.
  { intros w (e & Hw & _)%list_elem_of_bind. unfold filtered_words in Hw.
    apply list_elem_of_filter in Hw as [Hstop Hw]. split; [done|].
    unfold text_of in Hw. by apply findall_alpha3_lower in Hw. }
  assert (∀ w, 0 < count_if (λ x, bool_decide (x = w)) words → w ∈ words) as Hcount.
  { intros w Hw. unfold count_if in Hw.
    destruct (filter _ words) as [|x l] eqn:Hfilter; [simpl in Hw; lia|].
    assert (x ∈ filter (λ x, bool_decide (x = w) = true) words) as Hx
      by (rewrite Hfilter; by left).
    apply list_elem_of_filter in Hx as [Hxw Hx].
    by apply bool_decide_eq_true_1 in Hxw as <-. }
  split_and!.
  - apply most_common_length.
  - intros w n Hin%most_common_subseteq.
    apply elem_of_update in Hin as [-> Hpos].
    split_and!; [done|lia|apply Hwords; auto..].
  - unfold most_common. by rewrite !head_take.
  - unfold most_common. rewrite head_take. intros w n Hhead w'.
    pose proof (counts_sorted (update words [])) as Hsorted.
    destruct (sort_by _ (update words [])) as [|kv s] eqn:Hs; [done|].
    injection Hhead as ->.
    pose proof (count_if_nonneg (λ x, bool_decide (x = w')) words) as Hpos.
    assert ((w, n) ∈ update words []) as Hin.
    { rewrite <-(sort_by_Permutation (λ y x, x.2 <? y.2)), Hs. by left. }
    apply elem_of_update in Hin as [Hn Hnpos].
    destruct (decide (count_if (λ x, bool_decide (x = w')) words = 0)) as [->|Hne]; [lia|].
    assert ((w', count_if (λ x, bool_decide (x = w')) words) ∈ (w, n) :: s) as Hin'.
    { rewrite <-Hs, sort_by_Permutation. apply elem_of_update. split; [done|lia]. }
    apply elem_of_cons in Hin' as [[= <- <-]|Hin']; [lia|].
    apply StronglySorted_inv in Hsorted as [_ Hall].
    rewrite Forall_forall in Hall. exact (Hall _ Hin').
  - unfold most_common. rewrite head_take. split.
    + intros Hhead. destruct words as [|w words0] eqn:Hw; [done|exfalso].
      assert (0 < count_if (λ x, bool_decide (x = w)) (w :: words0)) as Hpos.
      { rewrite count_if_cons, bool_decide_eq_true_2 by done.
        pose proof (count_if_nonneg (λ x, bool_decide (x = w)) words0). lia. }
      assert ((w, count_if (λ x, bool_decide (x = w)) (w :: words0))
              ∈ sort_by (λ y x : string * Z, x.2 <? y.2) (update (w :: words0) [])) as Hin.
      { rewrite sort_by_Permutation. by apply elem_of_update. }
      destruct (sort_by _ (update (w :: words0) [])); [by apply elem_of_nil in Hin|done].
    + by intros ->.
  - lia.
  - pose proof (update_length words []). simpl in *. lia.
Qed.

(** ** Subjects *)

Lemma elem_of_subject_lengths (n : Z) (emails : list EmailMessage) :
  n ∈ emails ≫= subject_length ↔
  ∃ e, e ∈ emails ∧ subject e ≠ EmptyString ∧ n = len (subject e).
Proof.
  rewrite list_elem_of_bind. unfold subject_length, truthy. split.
  - intros (e & Hn & He). exists e. case_bool_decide; [|by apply elem_of_nil in Hn].
    by apply list_elem_of_singleton in Hn.
  - intros (e & He & Hs & ->). exists e. rewrite bool_decide_eq_true_2 by done.
    split; [by left|done].
Qed.

Lemma subject_lengths_nil (emails : list EmailMessage) :
  emails ≫= subject_length = [] ↔
  forallb (λ e, negb (truthy (subject e))) emails = true.
Proof.
  induction emails as [|e emails IH]; [done|].
  csimpl. unfold subject_length at 1. destruct (truthy (subject e)); simpl; [|done].
  split; done.
Qed.

(** X12.  The subject analysis.  When no record has a subject the lengths
    are 0 and there is no word.  Otherwise [min_length] and [max_length]
    are the lengths of the subjects of two records, they bound the length
    of every subject, [min_length] is at least 1 and [avg_length] lies
    between them.  [total_words] is the number of words of all subjects;
    [common_words] has at most 20 entries, each with the number of
    occurrences of the word, and these add up to at most [total_words]. *)
Theorem subject_statistics (emails : list EmailMessage) :
  let stats := _analyze_subjects emails in
  (if forallb (λ e, negb (truthy (subject e))) emails
   then avg_length stats = 0%Qc ∧ max_length stats = 0 ∧ min_length stats = 0 ∧
        common_words stats = [] ∧ total_words stats = 0
   else (∀ e, e ∈ emails → subject e ≠ EmptyString →
              1 ≤ min_length stats ≤ len (subject e) ∧
              len (subject e) ≤ max_length stats) ∧
        (∃ e, e ∈ emails ∧ subject e ≠ EmptyString ∧ len (subject e) = min_length stats) ∧
        (∃ e, e ∈ emails ∧ subject e ≠ EmptyString ∧ len (subject e) = max_length stats) ∧
        (float (min_length stats) <= avg_length stats)%Qc ∧
        (avg_length stats <= float (max_length stats))%Qc) ∧
  total_words stats = Z.of_nat (length (emails ≫= subject_words)) ∧
  (length (common_words stats) ≤ 20)%nat ∧
  (∀ w n, (w, n) ∈ common_words stats →
     n = count_if (λ x, bool_decide (x = w)) (emails ≫= subject_words) ∧ 1 ≤ n) ∧
  sumZ (common_words stats).*2 ≤ total_words stats.
Proof.
  unfold _analyze_subjects. rewrite subjects_loop_eq.
  set (lengths := emails ≫= subject_length).
  set (words := emails ≫= subject_words).
  split_and!.
  - destruct (forallb _ emails) eqn:Hnone.
    + assert (lengths = []) as Hnil by (by apply subject_lengths_nil).
      assert (words = []) as Hwords.
      { clear -Hnone. subst words. induction emails as [|e emails IH]; [done|].
        simpl in Hnone. apply andb_prop in Hnone as [He Hnone].
        csimpl. rewrite IH by done. unfold subject_words.
        by destruct (truthy (subject e)). }
      rewrite Hnil, Hwords. done.
    + assert (lengths ≠ []) as Hne.
      { intros Hnil%subject_lengths_nil. congruence. }
      destruct lengths as [|n0 lengths0] eqn:Hlengths; [done|].
      rewrite <-Hlengths in *.
      cbn [avg_length max_length min_length].
      split_and!.
      * intros e He Hs.
        assert (len (subject e) ∈ lengths) as Hin.
        { apply elem_of_subject_lengths. by exists e. }
        destruct (proj1 (elem_of_subject_lengths _ _) (minZ_elem_of _ Hne))
          as (e' & _ & Hs' & Hmin).
        split_and!; [|by apply minZ_le|by apply maxZ_ge].
        rewrite Hmin. unfold len. destruct (subject e'); [done|simpl; lia].
      * destruct (proj1 (elem_of_subject_lengths _ _) (minZ_elem_of _ Hne))
          as (e & He & Hs & Hmin). by exists e.
      * destruct (proj1 (elem_of_subject_lengths _ _) (maxZ_elem_of _ Hne))
          as (e & He & Hs & Hmax). by exists e.
      * by apply average_bounds.
      * by apply average_bounds.
  - by destruct lengths.
  - destruct lengths; apply most_common_length.
  - assert (∀ w n, (w, n) ∈ most_common 20 (update words []) →
              n = count_if (λ x, bool_decide (x = w)) words ∧ 1 ≤ n) as Hcommon.
    { intros w n Hin%most_common_subseteq.
      apply elem_of_update in Hin as [-> ?]. split; [done|lia]. }
    by destruct lengths.
  - assert (sumZ (most_common 20 (update words [])).*2 ≤ Z.of_nat (length words)) as Hsum.
    { etrans; [apply most_common_sum|].
      - intros [w n] [-> ?]%elem_of_update. simpl. lia.
      - rewrite update_sum. unfold sumZ. simpl. lia. }
    by destruct lengths.
Qed.

(** ** Threads *)

Lemma sort_by_count_sorted {A} (count : A → Z) (l : list A) :
  StronglySorted (λ a b, count b ≤ count a) (sort_by (λ y x, count x <? count y) l).
Proof.
  apply (StronglySorted_weaken (λ a b, (count a <? count b) = false)).
  - intros a b Hab%Z.ltb_ge. done.
  - apply (sort_by_sorted (λ y x, count x <? count y)).
    + intros x y Hxy%Z.ltb_lt. apply Z.ltb_ge. lia.
    + intros x y z Hzy%Z.ltb_ge Hyx%Z.ltb_ge. apply Z.ltb_ge. lia.
Qed.

Lemma append_to_sizes {K A} `{EqDecision K} (k : K) (x : A) (g : list (K * list A)) :
  sumZ ((λ group, Z.of_nat (length group.2)) <$> append_to k x g)
  = sumZ ((λ group, Z.of_nat (length group.2)) <$> g) + 1.
Proof.
  rewrite !sumZ_foldr. unfold append_to.
  induction g as [|[k0 xs] g IH]; csimpl; [done|].
  destruct (decide (k0 = k)); csimpl; [rewrite length_app; simpl|]; lia.
Qed.

(** The groups share out the records that have a subject. *)
Lemma thread_groups_sizes (emails : list EmailMessage) :
  sumZ ((λ group, Z.of_nat (length group.2)) <$> thread_groups emails)
  = count_if (λ e, truthy (subject e)) emails.
Proof.
  unfold thread_groups.
  enough (∀ g,
    sumZ ((λ group, Z.of_nat (length group.2)) <$>
          foldl (λ groups email,
                   if truthy (subject email)
                   then append_to (thread_key (subject email)) email groups
                   else groups) g emails)
    = sumZ ((λ group : string * list EmailMessage, Z.of_nat (length group.2)) <$> g)
      + count_if (λ e, truthy (subject e)) emails) as Hloop.
  { rewrite Hloop. unfold sumZ. simpl. lia. }
  induction emails as [|e emails IH]; intros g; simpl.
  { unfold count_if. simpl. lia. }
  rewrite IH, count_if_cons. destruct (truthy (subject e)); [|lia].
  rewrite append_to_sizes. lia.
Qed.

(** X13.  The thread analysis: [top_threads] has at most 10 entries, in
    non-increasing order of size; [largest_thread] is its first entry, is
    missing exactly when there is no thread, and no group has more members
    than it; the average size is 0 without a thread and otherwise lies
    between 2 and the size of the largest thread; twice the number of
    threads is at most the number of records that have a subject. *)
Theorem thread_statistics (emails : list EmailMessage) :
  let stats := _analyze_threads emails in
  (length (top_threads stats) ≤ 10)%nat ∧
  StronglySorted (λ a b, count b ≤ count a) (top_threads stats) ∧
  largest_thread stats = head (top_threads stats) ∧
  (largest_thread stats = None ↔ total_threads stats = 0) ∧
  (∀ t key group, largest_thread stats = Some t →
     (key, group) ∈ thread_groups emails → Z.of_nat (length group) ≤ count t) ∧
  match largest_thread stats with
  | None => avg_thread_size stats = 0%Qc
  | Some t =>
      (float 2 <= avg_thread_size stats)%Qc ∧
      (avg_thread_size stats <= float (count t))%Qc
  end ∧
  2 * total_threads stats ≤ count_if (λ e, truthy (subject e)) emails.
Proof.
  pose proof (_analyze_threads_total emails) as Htotal.
  pose proof (thread_entries_length emails) as Hlength.
  unfold _analyze_threads in *.
  cbn [top_threads largest_thread total_threads avg_thread_size] in *.
  pose proof (sort_by_count_sorted count (thread_entries emails)) as Hsorted.
  pose proof (sorted_threads_Permutation emails) as Hperm.
  fold (sorted_threads emails) in Hsorted.
  assert (∀ t, t ∈ sorted_threads emails → 2 ≤ count t) as Hsize.
  { intros t Ht. rewrite Hperm in Ht.
    apply elem_of_thread_entries in Ht as (key & group & _ & Hlen & ->). simpl. lia. }
  split_and!.
  - rewrite length_take. lia.
  - rewrite <-(take_drop 10 (sorted_threads emails)) in Hsorted.
    by apply StronglySorted_app in Hsorted as (_ & Htake & _).
  - by rewrite head_take.
  - rewrite Htotal, <-Hlength, <-(Permutation_length Hperm).
    destruct (sorted_threads emails); simpl; split; try done; lia.
  - intros t key group Hhead Hgroup.
    destruct (sorted_threads emails) as [|t0 s] eqn:Hs; [done|].
    injection Hhead as ->.
    destruct (Z.ltb_spec 1 (Z.of_nat (length group))) as [Hlen|Hlen].
    + assert ({| thread_subject := key; count := Z.of_nat (length group);
                 thread_date_range := _get_date_range group |} ∈ t :: s) as Hin.
      { rewrite Hperm. apply elem_of_thread_entries. by exists key, group. }
      apply elem_of_cons in Hin as [<-|Hin]; [done|].
      apply StronglySorted_inv in Hsorted as [_ Hall].
      rewrite Forall_forall in Hall. exact (Hall _ Hin).
    + specialize (Hsize t). rewrite elem_of_cons in Hsize.
      assert (2 ≤ count t) by auto. lia.
  - destruct (sorted_threads emails) as [|t s] eqn:Hs; [done|]. simpl head.
    assert (0 < Z.of_nat (length (t :: s))) as Hpos by (simpl; lia).
    destruct (sumZ_bounds (count <$> t :: s) 2 (count t)) as [Hlow Hhigh].
    { intros n (t' & -> & Hin)%list_elem_of_fmap. split; [by apply Hsize|].
      apply elem_of_cons in Hin as [->|Hin]; [done|].
      apply StronglySorted_inv in Hsorted as [_ Hall].
      rewrite Forall_forall in Hall. exact (Hall _ Hin). }
    rewrite length_fmap in Hlow, Hhigh.
    split; [by apply pydiv_ge|by apply pydiv_le].
  - rewrite Htotal, <-thread_groups_sizes, count_if_sum.
    replace (2 * sumZ ((λ x, if is_thread x then 1 else 0) <$> thread_groups emails))
      with (sumZ ((λ x, if is_thread x then 2 else 0) <$> thread_groups emails)).
    + apply sumZ_le. intros [key group]. unfold is_thread. simpl.
      destruct (Z.ltb_spec 1 (Z.of_nat (length group))); lia.
    + rewrite !sumZ_foldr. clear.
      induction (thread_groups emails) as [|g gs IH]; [done|].
      csimpl. rewrite IH. destruct (is_thread g); lia.
Qed.

(** ** Response times *)

Lemma gaps_length (ds : list datetime) : length (gaps ds) = pred (length ds).
Proof.
  induction ds as [|d ds IH]; [done|].
  destruct ds as [|d' ds]; [done|].
  change (gaps (d :: d' :: ds)) with (hours d' d :: gaps (d' :: ds)).
  cbn [length] in *. by rewrite IH.
Qed.

Lemma omap_date_length (l : list EmailMessage) :
  forallb dated l = true → length (omap date l) = length l.
Proof.
  induction l as [|e l IH]; [done|]. csimpl.
  intros [He Hl]%andb_prop. unfold dated in He.
  destruct (date e); [|done]. simpl. by rewrite IH.
Qed.

(** A thread of [n] records gives [n - 1] response times. *)
Lemma thread_gaps_length (thread_emails : list EmailMessage) :
  unsortable thread_emails = false →
  Z.of_nat (length (thread_gaps thread_emails))
  = if 1 <? Z.of_nat (length thread_emails)
    then Z.of_nat (length thread_emails) - 1 else 0.
Proof.
  unfold unsortable, thread_gaps.
  destruct (Z.ltb_spec 1 (Z.of_nat (length thread_emails))) as [Hlen|_]; [|done].
  simpl. intros Hdated%negb_false_iff.
  rewrite gaps_length, omap_date_length.
  - rewrite (Permutation_length (sort_by_Permutation _ _)). lia.
  - by rewrite (forallb_Permutation _ _ _ (sort_by_Permutation _ _)).
Qed.

Lemma thread_entries_sum (emails : list EmailMessage) :
  sumZ (count <$> thread_entries emails)
  = sumZ ((λ group, if is_thread group then Z.of_nat (length group.2) else 0)
          <$> thread_groups emails).
Proof.
  unfold thread_entries. rewrite !sumZ_foldr.
  induction (thread_groups emails) as [|[key group] gs IH]; [done|].
  csimpl. unfold thread_entry at 1, is_thread at 1. simpl.
  destruct (1 <? Z.of_nat (length group)); csimpl; lia.
Qed.

Lemma response_samples_sum (groups : list (string * list EmailMessage)) :
  existsb (λ group, unsortable group.2) groups = false →
  Z.of_nat (length (concat ((λ group, thread_gaps group.2) <$> groups)))
  + count_if is_thread groups
  = sumZ ((λ group, if is_thread group then Z.of_nat (length group.2) else 0)
          <$> groups).
Proof.
  rewrite sumZ_foldr. induction groups as [|[key group] gs IH]; [done|].
  cbn [existsb]. intros [Hg Hgs]%orb_false_iff. csimpl.
  rewrite length_app, count_if_cons, <-IH by done.
  rewrite Nat2Z.inj_add, thread_gaps_length by done.
  unfold is_thread. simpl. destruct (1 <? Z.of_nat (length group)); lia.
Qed.

Lemma response_stats_of_samples (times : list Qc) :
  response_time_samples (response_stats_of times) = Z.of_nat (length times).
Proof. by destruct times. Qed.

Lemma no_thread_no_sample (groups : list (string * list EmailMessage)) :
  count_if is_thread groups = 0 →
  concat ((λ group, thread_gaps group.2) <$> groups) = [].
Proof.
  induction groups as [|[key group] gs IH]; [done|].
  rewrite count_if_cons. intros Hnone.
  pose proof (count_if_nonneg is_thread gs). csimpl.
  unfold is_thread in Hnone at 1. unfold thread_gaps at 1. simpl in Hnone.
  destruct (1 <? Z.of_nat (length group)); [lia|]. apply IH. lia.
Qed.

(** The records in threads are among the records that have a subject. *)
Lemma records_in_threads (emails : list EmailMessage) :
  sumZ ((λ group, if is_thread group then Z.of_nat (length group.2) else 0)
        <$> thread_groups emails)
  ≤ count_if (λ e, truthy (subject e)) emails.
Proof.
  rewrite <-thread_groups_sizes. apply sumZ_le. intros g. destruct (is_thread g); lia.
Qed.



(** *** The calendar *)

Ltac month_cases m :=
  let H := fresh in
  assert (m = 1 ∨ m = 2 ∨ m = 3 ∨ m = 4 ∨ m = 5 ∨ m = 6 ∨ m = 7 ∨ m = 8 ∨
          m = 9 ∨ m = 10 ∨ m = 11 ∨ m = 12) as H by lia;
  destruct H as [->|[->|[->|[->|[->|[->|[->|[->|[->|[->|[->| ->]]]]]]]]]]].

Lemma days_before_year_succ (y : Z) :
  days_before_year (y + 1)
  = days_before_year y + 365 + (if is_leap y then 1 else 0).
Proof.
  unfold days_before_year, is_leap.
  replace (y + 1 - 1) with y by lia.
  destruct (Z.eqb_spec (y `mod` 4) 0), (Z.eqb_spec (y `mod` 100) 0),
    (Z.eqb_spec (y `mod` 400) 0); simpl; Z.div_mod_to_equations; lia.
Qed.

Lemma days_before_year_mono (y y' : Z) :
  y ≤ y' → days_before_year y ≤ days_before_year y'.
Proof. unfold days_before_year. intros Hy. Z.div_mod_to_equations. lia. Qed.

(** The day of the year is at most the length of the year. *)
Lemma day_of_year_bounds (y m d : Z) :
  1 ≤ m ≤ 12 → 1 ≤ d ≤ days_in_month y m →
  1 ≤ days_before_month y m + d ≤ 365 + (if is_leap y then 1 else 0).
Proof.
  intros Hm. month_cases m; unfold days_before_month, days_in_month;
    destruct (is_leap y); simpl; lia.
Qed.

Lemma days_before_month_lt (y m m' d : Z) :
  1 ≤ m → m < m' → m' ≤ 12 → 1 ≤ d ≤ days_in_month y m →
  days_before_month y m + d ≤ days_before_month y m'.
Proof.
  intros Hm Hlt Hm'. month_cases m; month_cases m'; try lia;
    unfold days_before_month, days_in_month; destruct (is_leap y); simpl; lia.
Qed.

(** A later day has a greater ordinal. *)
Lemma toordinal_lt (a b : datetime) :
  valid_datetime a → valid_datetime b →
  year a < year b ∨
  (year a = year b ∧
   (month a < month b ∨ (month a = month b ∧ day a < day b))) →
  toordinal a < toordinal b.
Proof.
  intros (Hya & Hma & Hda & _) (Hyb & Hmb & Hdb & _) Hlt. unfold toordinal.
  destruct Hlt as [Hy|[Hy [Hm|[Hm Hd]]]].
  - pose proof (day_of_year_bounds _ _ _ Hma Hda) as Ha.
    pose proof (day_of_year_bounds _ _ _ Hmb Hdb) as Hb.
    pose proof (days_before_year_succ (year a)) as Hsucc.
    pose proof (days_before_year_mono (year a + 1) (year b)). lia.
  - rewrite Hy in *.
    pose proof (days_before_month_lt (year b) (month a) (month b) (day a)). lia.
  - rewrite Hy, Hm. lia.
Qed.

Lemma lex_ltb_cons_false (x y : Z) (a b : list Z) :
  lex_ltb (x :: a) (y :: b) = false ↔ y < x ∨ (x = y ∧ lex_ltb a b = false).
Proof.
  simpl. destruct (Z.ltb_spec x y), (Z.eqb_spec x y); simpl;
    split; try tauto; try lia; intros [?|[? ?]]; try done; lia.
Qed.

(** The time from a timestamp to one that is not earlier is not
    negative. *)
Lemma microseconds_between_nonneg (a b : datetime) :
  valid_datetime a → valid_datetime b →
  datetime_ltb b a = false → 0 ≤ microseconds_between b a.
Proof.
  intros Ha Hb. unfold datetime_ltb, datetime_key.
  rewrite !lex_ltb_cons_false. intros Horder.
  pose proof (toordinal_lt a b Ha Hb) as Hlt.
  pose proof (toordinal_lt b a Hb Ha) as Hgt.
  destruct Ha as (_ & _ & _ & Hha & Hmia & Hsa & Hua).
  destruct Hb as (_ & _ & _ & Hhb & Hmib & Hsb & Hub).
  unfold microseconds_between.
  assert (toordinal a < toordinal b ∨
          (toordinal a = toordinal b ∧
           (hour a < hour b ∨
            (hour a = hour b ∧
             (minute a < minute b ∨
              (minute a = minute b ∧
               (second a < second b ∨
                (second a = second b ∧ microsecond a ≤ microsecond b)))))))) as Hcases.
  { destruct Horder as [Hy|[Hy [Hm|[Hm [Hd|[Hd Hrest]]]]]].
    - left. apply Hlt. lia.
    - left. apply Hlt. lia.
    - left. apply Hlt. lia.
    - right. split; [unfold toordinal; congruence|].
      destruct Hrest as [?|[? [?|[? [?|[? [?|[? _]]]]]]]]; lia. }
  lia.
Qed.

Lemma hours_nonneg (a b : datetime) :
  0 ≤ microseconds_between b a → (0 <= hours b a)%Qc.
Proof.
  intros Hpos. unfold hours.
  apply (Qcmult_lt_0_le_reg_r _ _ (float 3600)); [by apply (proj1 (float_lt 0 3600))|].
  rewrite Qcmult_0_l, Qcmult_comm, Qcmult_div_r by (by apply float_ne_0).
  unfold Qcle. cbn [this Q2Qc]. rewrite !Qred_correct.
  apply Qle_shift_div_l; [done|]. rewrite Qmult_0_l.
  by rewrite <-(Zle_Qle 0).
Qed.

(** *** Averages of floats *)

Lemma sumQ_foldr (l : list Qc) : sumQ l = foldr Qcplus 0%Qc l.
Proof.
  unfold sumQ.
  enough (∀ acc, foldl Qcplus acc l = (acc + foldr Qcplus 0 l)%Qc) as Hacc.
  { by rewrite Hacc, Qcplus_0_l. }
  induction l as [|x l IH]; intros acc; simpl.
  - by rewrite Qcplus_0_r.
  - by rewrite IH, Qcplus_assoc.
Qed.

Lemma float_S (n : nat) : float (Z.of_nat (S n)) = (float (Z.of_nat n) + 1)%Qc.
Proof. rewrite Nat2Z.inj_succ, <-Z.add_1_r, float_add. done. Qed.

Lemma sumQ_bounds (l : list Qc) (a b : Qc) :
  (∀ x, x ∈ l → (a <= x)%Qc ∧ (x <= b)%Qc) →
  (a * float (Z.of_nat (length l)) <= sumQ l)%Qc ∧
  (sumQ l <= b * float (Z.of_nat (length l)))%Qc.
Proof.
  rewrite sumQ_foldr. induction l as [|x l IH]; intros Hl.
  - simpl. change (float 0) with 0%Qc. rewrite !Qcmult_0_r. split; apply Qcle_refl.
  - destruct (Hl x) as [Hax Hxb]; [by left|].
    destruct IH as [IHa IHb]; [intros y Hy; apply Hl; by right|].
    cbn [length foldr]. rewrite float_S, !Qcmult_plus_distr_r, !Qcmult_1_r.
    rewrite (Qcplus_comm (a * _)), (Qcplus_comm (b * _)).
    split; by apply Qcplus_le_compat.
Qed.

Lemma minQ_elem_of (l : list Qc) : l ≠ [] → minQ l ∈ l.
Proof. destruct l as [|x l]; [done|]. intros _. apply select_elem_of. Qed.

Lemma maxQ_elem_of (l : list Qc) : l ≠ [] → maxQ l ∈ l.
Proof. destruct l as [|x l]; [done|]. intros _. apply select_elem_of. Qed.

Lemma minQ_le (l : list Qc) (x : Qc) : x ∈ l → (minQ l <= x)%Qc.
Proof.
  destruct l as [|x0 l]; [by intros ?%elem_of_nil|]. intros Hx.
  apply Qcnot_lt_le. apply (bool_decide_eq_false_1 (x < minQ (x0 :: l))%Qc).
  apply (select_best (λ y best, bool_decide (y < best)%Qc)); [| |done].
  - intros z. apply bool_decide_eq_false_2. intros Hz. by apply Qclt_not_eq in Hz.
  - intros a b c Hab%bool_decide_eq_true_1 Hbc%bool_decide_eq_true_1.
    apply bool_decide_eq_true_2. by apply (Qclt_trans _ b).
Qed.

Lemma maxQ_ge (l : list Qc) (x : Qc) : x ∈ l → (x <= maxQ l)%Qc.
Proof.
  destruct l as [|x0 l]; [by intros ?%elem_of_nil|]. intros Hx.
  apply Qcnot_lt_le. apply (bool_decide_eq_false_1 (maxQ (x0 :: l) < x)%Qc).
  apply (select_best (λ y best, bool_decide (best < y)%Qc)); [| |done].
  - intros z. apply bool_decide_eq_false_2. intros Hz. by apply Qclt_not_eq in Hz.
  - intros a b c Hab%bool_decide_eq_true_1 Hbc%bool_decide_eq_true_1.
    apply bool_decide_eq_true_2. by apply (Qclt_trans _ b).
Qed.

Lemma averageQ_bounds (l : list Qc) :
  l ≠ [] →
  (minQ l <= sumQ l / float (Z.of_nat (length l)))%Qc ∧
  (sumQ l / float (Z.of_nat (length l)) <= maxQ l)%Qc.
Proof.
  intros Hl.
  assert (0 < Z.of_nat (length l)) as Hlen by (destruct l; [done|simpl; lia]).
  assert (0 < float (Z.of_nat (length l)))%Qc as Hpos by (by apply (proj1 (float_lt 0 _))).
  destruct (sumQ_bounds l (minQ l) (maxQ l)) as [Hmin Hmax].
  { intros x Hx. split; [by apply minQ_le|by apply maxQ_ge]. }
  assert (sumQ l / float (Z.of_nat (length l)) * float (Z.of_nat (length l)) = sumQ l)%Qc
    as Hdiv.
  { rewrite Qcmult_comm. apply Qcmult_div_r. apply float_ne_0. lia. }
  split; apply (Qcmult_lt_0_le_reg_r _ _ _ Hpos); by rewrite Hdiv.
Qed.

(** *** Response times of timestamps that are [datetime] objects *)

Lemma gaps_nonneg (ds : list datetime) :
  Forall valid_datetime ds →
  StronglySorted (λ a b, datetime_ltb b a = false) ds →
  ∀ x, x ∈ gaps ds → (0 <= x)%Qc.
Proof.
  induction ds as [|d ds IH]; [by intros _ _ x ?%elem_of_nil|].
  destruct ds as [|d' ds]; [by intros _ _ x ?%elem_of_nil|].
  change (gaps (d :: d' :: ds)) with (hours d' d :: gaps (d' :: ds)).
  intros [Hd Hds]%Forall_cons [Hsorted Hall]%StronglySorted_inv x.
  intros [->|Hx]%elem_of_cons; [|by apply IH].
  apply hours_nonneg, microseconds_between_nonneg; [done|exact (Forall_inv Hds)|].
  exact (Forall_inv Hall).
Qed.

Lemma thread_gaps_nonneg (thread_emails : list EmailMessage) :
  valid_dates thread_emails → unsortable thread_emails = false →
  ∀ x, x ∈ thread_gaps thread_emails → (0 <= x)%Qc.
Proof.
  unfold unsortable, thread_gaps. intros Hvalid.
  destruct (1 <? Z.of_nat (length thread_emails)); [|by intros _ x ?%elem_of_nil].
  simpl. intros Hdated%negb_false_iff. rewrite sort_by_dates by done.
  apply gaps_nonneg.
  - apply Forall_forall. intros d. rewrite sort_by_Permutation, list_elem_of_omap.
    intros (e & He & Hd). unfold valid_dates in Hvalid.
    rewrite Forall_forall in Hvalid. specialize (Hvalid e He). by rewrite Hd in Hvalid.
  - apply sort_by_sorted.
    + apply total_asym; [apply datetime_ltb_irrefl|apply datetime_ltb_trans].
    + apply total_negtrans;
        [apply datetime_ltb_trans|apply datetime_ltb_total].
Qed.



(** * Properties of the fetching *)

(** ** Addresses *)

Lemma findall_head (m : list ascii → option (list ascii)) (l : list ascii) :
  head (findall m O l) = search m l.
Proof.
  induction l as [|c l IH]; simpl.
  - by destruct (m []).
  - by destruct (m (c :: l)).
Qed.

(** A match listed by [findall] is the match at some position. *)
Lemma elem_of_findall (m : list ascii → option (list ascii)) (skip : nat)
    (l x : list ascii) :
  x ∈ findall m skip l → ∃ pre suf, l = pre ++ suf ∧ m suf = Some x.
Proof.
  revert skip. induction l as [|c l IH]; intros [|skip]; simpl.
  - destruct (m []) eqn:Hm; [|by intros ?%elem_of_nil].
    intros ->%list_elem_of_singleton. by exists [], [].
  - by intros ?%elem_of_nil.
  - destruct (m (c :: l)) eqn:Hm.
    + intros [->|Hx]%elem_of_cons; [by exists [], (c :: l)|].
      destruct (IH _ Hx) as (pre & suf & -> & Hsuf). by exists (c :: pre), suf.
    + intros Hx. destruct (IH _ Hx) as (pre & suf & -> & Hsuf). by exists (c :: pre), suf.
  - intros Hx. destruct (IH _ Hx) as (pre & suf & -> & Hsuf). by exists (c :: pre), suf.
Qed.

(** X16.  [_parse_addresses] and the sender analysis read a header with
    the same pattern: the address the sender analysis finds is the first
    one [_parse_addresses] lists.  Each listed address is a piece of the
    header made of a local part that is not empty, an at-sign and a
    domain. *)
Theorem parsed_addresses (addresses : string) :
  search_address addresses = head (_parse_addresses addresses) ∧
  sender_key addresses = default addresses (head (_parse_addresses addresses)) ∧
  ∀ address, address ∈ _parse_addresses addresses →
    ∃ before local domain after,
      addresses = before +:+ address +:+ after ∧
      address = local +:+ "@" +:+ domain ∧ local ≠ EmptyString.
Proof.
  assert (search_address addresses = head (_parse_addresses addresses)) as Hhead.
  { unfold search_address, _parse_addresses, truthy. case_bool_decide as Hs.
    - rewrite <-findall_head. by destruct (findall match_address 0 (chars addresses)).
    - by rewrite Hs. }
  split_and!; [done| |].
  - unfold sender_key. rewrite Hhead. by destruct (head (_parse_addresses addresses)).
  - intros address. unfold _parse_addresses. destruct (truthy addresses);
      [|by intros ?%elem_of_nil].
    intros (a & -> & Ha)%list_elem_of_fmap.
    apply elem_of_findall in Ha as (pre & suf & Hpre & Hsuf).
    apply match_address_Some in Hsuf as (loc & r & dom & -> & Hloc & Hdom & ->).
    destruct (match_domain_prefix _ _ Hdom) as [post ->].
    exists (str pre), (str loc), (str dom), (str post). split_and!.
    + rewrite <-!str_app, <-(str_chars addresses), Hpre.
      by rewrite <-!app_assoc.
    + by rewrite (str_app loc ("@"%char :: dom)).
    + intros Hnil. apply Hloc. by rewrite <-(chars_str loc), Hnil.
Qed.

(** ** The window of [fetch_emails] *)

Lemma omap_length_le {A B} (f : A → option B) (l : list A) :
  (length (omap f l) ≤ length l)%nat.
Proof.
  induction l as [|x l IH]; [done|]. csimpl. destruct (f x); simpl; lia.
Qed.

Lemma slice_in_range {A} (l : list A) (a b : Z) :
  0 ≤ a ≤ b → b ≤ Z.of_nat (length l) →
  slice l a b = take (Z.to_nat (b - a)) (drop (Z.to_nat a) l).
Proof.
  intros Ha Hb. unfold slice, slice_index.
  rewrite (proj2 (Z.ltb_ge a 0)), (proj2 (Z.ltb_ge b 0)) by lia.
  by rewrite !Z.min_l by lia.
Qed.

(** X17.  A page of [fetch_emails] inside the mailbox: with an offset of
    at most the number of messages found, the window is the [limit]
    messages that come before the last [offset] ones (fewer when the
    mailbox starts before), in the order of the search; the next page ends
    where this one starts; the messages returned are those of the window
    whose fetch succeeds, in order, so there are at most [limit]. *)
Theorem fetch_page {U} (fetch : U → option EmailMessage) (uids : list U)
    (limit offset : Z) :
  0 ≤ limit → 0 ≤ offset ≤ Z.of_nat (length uids) →
  let n := Z.of_nat (length uids) in
  let page := target_uids uids limit offset in
  Z.of_nat (length page) = Z.min limit (n - offset) ∧
  page ++ drop (Z.to_nat (n - offset)) uids = drop (Z.to_nat (n - offset - limit)) uids ∧
  (offset + limit ≤ n →
   target_uids uids limit (offset + limit) ++ page = target_uids uids (2 * limit) offset) ∧
  (∀ e, e ∈ fetch_emails fetch uids limit offset ↔ ∃ uid, uid ∈ page ∧ fetch uid = Some e) ∧
  Z.of_nat (length (fetch_emails fetch uids limit offset)) ≤ limit.
Proof.
  intros Hlimit Hoffset n page.
  assert (∀ limit offset, 0 ≤ limit → 0 ≤ offset ≤ n →
            target_uids uids limit offset
            = take (Z.to_nat (Z.min limit (n - offset)))
                   (drop (Z.to_nat (n - offset - limit)) uids)) as Hwindow.
  { intros lim off Hlim Hoff. unfold target_uids. fold n.
    rewrite slice_in_range by (fold n; lia).
    destruct (Z.max_spec 0 (n - off - lim)) as [[? ->]|[? ->]].
    - f_equal. lia.
    - replace (Z.to_nat (n - off - lim)) with 0%nat by lia. f_equal. lia. }
  assert (Z.of_nat (length page) = Z.min limit (n - offset)) as Hlength.
  { subst page. rewrite Hwindow by done. rewrite length_take, length_drop. fold n. lia. }
  split_and!.
  - done.
  - subst page. rewrite Hwindow by done.
    rewrite <-(take_drop (Z.to_nat (Z.min limit (n - offset)))
                 (drop (Z.to_nat (n - offset - limit)) uids)) at 2.
    f_equal. rewrite drop_drop. f_equal. lia.
  - intros Hnext. subst page. rewrite !Hwindow by lia.
    replace (n - (offset + limit) - limit) with (n - offset - 2 * limit) by lia.
    set (rest := drop (Z.to_nat (n - offset - 2 * limit)) uids).
    replace (drop (Z.to_nat (n - offset - limit)) uids)
      with (drop (Z.to_nat (Z.min limit (n - (offset + limit)))) rest).
    + rewrite take_take_drop. f_equal. lia.
    + subst rest. rewrite drop_drop. f_equal. lia.
  - intros e. unfold fetch_emails. fold page. rewrite list_elem_of_omap. done.
  - unfold fetch_emails. fold page.
    pose proof (omap_length_le fetch page) as Hle. lia.
Qed.

Lemma fetch_page_witness :
  0 ≤ 2 ∧ 0 ≤ 1 ≤ Z.of_nat (length [10; 20; 30; 40; 50]) ∧
  target_uids [10; 20; 30; 40; 50] 2 1 = [30; 40] ∧
  target_uids [10; 20; 30; 40; 50] 2 3 ++ target_uids [10; 20; 30; 40; 50] 2 1
  = target_uids [10; 20; 30; 40; 50] 4 1.
Proof.
  assert (0 ≤ 2) as H1 by lia.
  assert (0 ≤ 1 ≤ Z.of_nat (length [10; 20; 30; 40; 50])) as H2 by (simpl; lia).
  destruct (fetch_page (λ _, None) [10; 20; 30; 40; 50] 2 1 H1 H2) as (_ & _ & Hnext & _).
  split_and!; [done..|by vm_compute|].
  apply Hnext. simpl. lia.
Defined.

(** X18.  A page of [fetch_emails] past the end of the mailbox: with an
    offset greater than the number n of messages found, the end of the
    slice is negative and counts from the end of the sequence, so the
    window is not empty: it is the first 2n - offset messages, whatever
    [limit] is. *)
Theorem fetch_past_the_end {U} (uids : list U) (limit offset : Z) :
  0 ≤ limit → Z.of_nat (length uids) < offset →
  target_uids uids limit offset
  = take (Z.to_nat (2 * Z.of_nat (length uids) - offset)) uids.
Proof.
  intros Hlimit Hoffset. unfold target_uids, slice, slice_index.
  set (n := Z.of_nat (length uids)) in *.
  rewrite (Z.max_l 0 (n - offset - limit)) by lia.
  rewrite (proj2 (Z.ltb_ge 0 0)) by lia.
  rewrite (proj2 (Z.ltb_lt (n - offset) 0)) by lia.
  rewrite (Z.min_l 0 n) by lia. simpl. f_equal. lia.
Qed.

Lemma fetch_past_the_end_witness :
  0 ≤ 1 ∧ Z.of_nat (length [10; 20; 30; 40; 50]) < 7 ∧
  target_uids [10; 20; 30; 40; 50] 1 7 = [10; 20; 30].
Proof.
  assert (0 ≤ 1) as H1 by lia.
  assert (Z.of_nat (length [10; 20; 30; 40; 50]) < 7) as H2 by (simpl; lia).
  split_and!; [done..|].
  by rewrite (fetch_past_the_end [10; 20; 30; 40; 50] 1 7 H1 H2).
Defined.

(** * Further properties of the thread keys *)

Lemma lower_char_idemp (c : ascii) : lower_char (lower_char c) = lower_char c.
Proof. by destruct c as [[] [] [] [] [] [] [] []]. Qed.

Lemma is_space_lower_char (c : ascii) : is_space (lower_char c) = is_space c.
Proof. by destruct c as [[] [] [] [] [] [] [] []]. Qed.

Lemma lower_chars (s1 s2 : string) :
  lower s1 = lower s2 → map lower_char (chars s1) = map lower_char (chars s2).
Proof.
  unfold lower. intros Heq. apply (f_equal chars) in Heq. by rewrite !chars_str in Heq.
Qed.

(** Two texts that differ in case only. *)
Lemma starts_with_ci_lower (p l1 l2 : list ascii) :
  map lower_char l1 = map lower_char l2 →
  match starts_with_ci p l1, starts_with_ci p l2 with
  | Some r1, Some r2 => map lower_char r1 = map lower_char r2
  | None, None => True
  | _, _ => False
  end.
Proof.
  revert l1 l2. induction p as [|a p IH]; intros l1 l2 Heq; simpl; [done|].
  destruct l1 as [|b1 l1], l2 as [|b2 l2]; try done.
  injection Heq as Hb Hl. rewrite Hb.
  case_bool_decide; [by apply IH|done].
Qed.

Lemma match_prefix_lower (l1 l2 : list ascii) :
  map lower_char l1 = map lower_char l2 →
  match match_prefix l1, match_prefix l2 with
  | Some r1, Some r2 => map lower_char r1 = map lower_char r2
  | None, None => True
  | _, _ => False
  end.
Proof.
  intros Heq. unfold match_prefix.
  induction prefixes as [|p ps IH]; simpl; [done|].
  pose proof (starts_with_ci_lower (chars p) l1 l2 Heq) as Hp.
  by destruct (starts_with_ci (chars p) l1), (starts_with_ci (chars p) l2).
Qed.

Lemma span_space_lower (l1 l2 : list ascii) :
  map lower_char l1 = map lower_char l2 →
  map lower_char (span is_space l1).2 = map lower_char (span is_space l2).2.
Proof.
  revert l2. induction l1 as [|c1 l1 IH]; intros [|c2 l2] Heq; try done.
  injection Heq as Hc Hl. simpl.
  rewrite <-(is_space_lower_char c1), <-(is_space_lower_char c2), Hc.
  destruct (is_space (lower_char c2)).
  - specialize (IH l2 Hl).
    by destruct (span is_space l1), (span is_space l2).
  - simpl. by rewrite Hc, Hl.
Qed.

(** X19.  Thread keys ignore case: subjects that differ only in the case
    of their letters have the same key (the prefix is matched in any case
    and the rest is lowered); and a key is in lower case. *)
Theorem thread_key_ignores_case (subject1 subject2 : string) :
  lower subject1 = lower subject2 →
  thread_key subject1 = thread_key subject2 ∧
  lower (thread_key subject1) = thread_key subject1.
Proof.
  intros Heq%lower_chars. split.
  - unfold thread_key, strip_prefix.
    pose proof (match_prefix_lower _ _ Heq) as Hprefix.
    destruct (match_prefix (chars subject1)) as [r1|],
      (match_prefix (chars subject2)) as [r2|]; try done.
    + unfold lower. rewrite !chars_str. f_equal. by apply span_space_lower.
    + unfold lower. by rewrite Heq.
  - unfold thread_key, lower. rewrite chars_str, map_map. f_equal.
    apply map_ext. intros c. apply lower_char_idemp.
Qed.

Lemma thread_key_ignores_case_witness :
  lower "RE: Budget Q1" = lower "re: BUDGET q1" ∧
  thread_key "RE: Budget Q1" = thread_key "re: BUDGET q1".
Proof.
  assert (lower "RE: Budget Q1" = lower "re: BUDGET q1") as Heq by (by vm_compute).
  split; [exact Heq|].
  exact (proj1 (thread_key_ignores_case _ _ Heq)).
Defined.

(** * Further properties of the sentiment classes *)

(** X20.  The class of a record from the words of its text: a text with a
    positive word and no negative word is positive, a text with a negative
    word and no positive word is negative, and a text with neither is
    neutral. *)
Theorem sentiment_of_words (email : EmailMessage) :
  let words := findall_words (text_of email) in
  ((∃ w, w ∈ words ∧ w ∈ positive_words) →
   (∀ w, w ∈ words → w ∉ negative_words) → classify email = Positive) ∧
  ((∃ w, w ∈ words ∧ w ∈ negative_words) →
   (∀ w, w ∈ words → w ∉ positive_words) → classify email = Negative) ∧
  ((∀ w, w ∈ words → (w ∉ positive_words) ∧ (w ∉ negative_words)) →
   classify email = Neutral).
Proof.
  intros words. unfold classify. fold words.
  set (W := list_to_set words : gset string).
  assert (∀ S : gset string, (∀ w, w ∈ words → w ∉ S) → base.size (W ∩ S) = 0%nat) as Hnone.
  { intros S HS. apply size_empty_iff, elem_of_equiv_empty.
    intros w [Hw HwS]%elem_of_intersection.
    apply elem_of_list_to_set in Hw. by apply (HS w). }
  assert (∀ S : gset string, (∃ w, w ∈ words ∧ w ∈ S) → base.size (W ∩ S) ≠ 0%nat) as Hsome.
  { intros S (w & Hw & HwS) Hsize%size_empty_iff.
    rewrite elem_of_equiv_empty in Hsize. apply (Hsize w).
    apply elem_of_intersection. split; [by apply elem_of_list_to_set|done]. }
  split_and!.
  - intros Hpos Hneg. specialize (Hsome _ Hpos). rewrite (Hnone _ Hneg).
    destruct (Z.ltb_spec (Z.of_nat 0) (Z.of_nat (base.size (W ∩ positive_words))));
      [done|lia].
  - intros Hneg Hpos. specialize (Hsome _ Hneg). rewrite (Hnone _ Hpos).
    destruct (Z.ltb_spec (Z.of_nat (base.size (W ∩ negative_words))) (Z.of_nat 0)); [lia|].
    destruct (Z.ltb_spec (Z.of_nat 0) (Z.of_nat (base.size (W ∩ negative_words))));
      [done|lia].
  - intros Hneither.
    rewrite (Hnone positive_words), (Hnone negative_words); [done|..];
      intros w Hw; by apply Hneither.
Qed.

(** * The bundle and its charts *)

Lemma emails_with_attachments_count (emails : list EmailMessage) :
  emails_with_attachments (_analyze_attachments emails) = count_if has_attachments emails.
Proof.
  unfold _analyze_attachments. rewrite attachments_loop_eq.
  cbn [emails_with_attachments]. rewrite foldl_sum, Z.add_0_l, count_if_sum.
  f_equal. apply list_fmap_ext. intros _ e _.
  unfold has_attachments. by destruct (attachments e).
Qed.

Lemma total_domains_le (emails : list EmailMessage) :
  total_domains (_analyze_domains emails) ≤ count_if has_domain emails.
Proof.
  unfold _analyze_domains. cbn [total_domains].
  rewrite <-domain_keys_length, domain_counter_update.
  pose proof (update_length (emails ≫= domain_keys) []). simpl in *. lia.
Qed.

Lemma sentiment_total (emails : list EmailMessage) :
  positive (_analyze_sentiment emails) + negative (_analyze_sentiment emails)
  + neutral (_analyze_sentiment emails) = Z.of_nat (length emails).
Proof.
  unfold _analyze_sentiment. rewrite sentiment_loop_eq.
  cbn [positive negative neutral]. apply classified_total.
Qed.

Lemma sentiment_nonneg (emails : list EmailMessage) :
  0 ≤ positive (_analyze_sentiment emails) ∧ 0 ≤ negative (_analyze_sentiment emails) ∧
  0 ≤ neutral (_analyze_sentiment emails).
Proof.
  unfold _analyze_sentiment. rewrite sentiment_loop_eq.
  cbn [positive negative neutral]. split_and!; apply count_if_nonneg.
Qed.

Lemma key_total_sum `{Countable K} (ks : list K) (histogram : gmap K Z) :
  sumZ ((λ k, get0 k histogram) <$> ks) = key_total ks histogram.
Proof.
  rewrite sumZ_foldr. unfold key_total.
  induction ks as [|k ks IH]; [done|]. csimpl. by rewrite IH.
Qed.

Lemma key_total_empty `{Countable K} (ks : list K) : key_total ks (∅ : gmap K Z) = 0.
Proof.
  unfold key_total. induction ks as [|k ks IH]; [done|].
  simpl. rewrite IH. unfold get0. by rewrite lookup_empty.
Qed.

Lemma time_bands_total (emails : list EmailMessage) :
  band_total time_bands (_analyze_time_activity emails) = count_if dated emails.
Proof.
  unfold band_total, time_bands. cbn [foldr].
  rewrite !time_activity_get0. apply (time_band_partition emails).
Qed.

(** X21.  The counts of a bundle returned for an input that is not empty
    fit together: the three sentiment counts add up to [total_emails]; the
    number of records with attachments, the number of domains, the number
    of records with a timestamp (which the seven daily counts and the four
    time-of-day counts both add up to) and the number of response-time
    samples plus the number of threads are each at most [total_emails];
    so there are fewer samples than records. *)
Theorem bundle_counts_bounded (emails : list EmailMessage) (r : results) :
  emails ≠ [] → analyze_emails emails = Ok r →
  ∃ attachment threads domains sentiments response,
    attachment_analysis r = Some attachment ∧ thread_analysis r = Some threads ∧
    domain_analysis r = Some domains ∧ sentiment_analysis r = Some sentiments ∧
    response_time_analysis r = Some response ∧
    positive sentiments + negative sentiments + neutral sentiments = total_emails r ∧
    emails_with_attachments attachment ≤ total_emails r ∧
    total_domains domains ≤ total_emails r ∧
    key_total day_names (activity_by_day r)
    = band_total time_bands (activity_by_time r) ∧
    band_total time_bands (activity_by_time r) ≤ total_emails r ∧
    response_time_samples response + total_threads threads ≤ total_emails r ∧
    response_time_samples response < total_emails r.
Proof.
  intros Hne. rewrite analyze_emails_eq.
  destruct emails as [|e0 emails0]; [done|]. set (emails := e0 :: emails0) in *.
  rewrite _analyze_response_times_eq.
  destruct (has_unsortable_thread emails) eqn:Hsortable; [done|].
  intros [= <-]. unfold has_unsortable_thread in Hsortable.
  eexists _, _, _, _, _. split_and!; try reflexivity;
    cbn [total_emails activity_by_day activity_by_time results_of].
  - apply sentiment_total.
  - rewrite emails_with_attachments_count. apply count_if_le.
  - etrans; [apply total_domains_le|apply count_if_le].
  - by rewrite daily_activity_total, time_bands_total.
  - rewrite time_bands_total. apply count_if_le.
  - rewrite response_stats_of_samples, _analyze_threads_total.
    rewrite (response_samples_sum _ Hsortable).
    etrans; [apply records_in_threads|apply count_if_le].
  - rewrite response_stats_of_samples.
    pose proof (response_samples_sum _ Hsortable) as Hsum.
    pose proof (records_in_threads emails) as Hrecords.
    pose proof (count_if_le (λ e, truthy (subject e)) emails) as Hle.
    pose proof (count_if_nonneg is_thread (thread_groups emails)) as Hpos.
    destruct (decide (count_if is_thread (thread_groups emails) = 0)) as [Hnone|Hsome].
    + rewrite (no_thread_no_sample _ Hnone). subst emails. simpl. lia.
    + lia.
Qed.

Lemma bundle_counts_bounded_witness :
  hello_thread ≠ [] ∧ analyze_emails hello_thread = Ok (returned hello_thread) ∧
  ∃ response, response_time_analysis (returned hello_thread) = Some response ∧
    response_time_samples response < total_emails (returned hello_thread).
Proof.
  assert (hello_thread ≠ []) as Hne by done.
  assert (analyze_emails hello_thread = Ok (returned hello_thread)) as Hreturned
    by (vm_compute; reflexivity).
  split; [exact Hne|]. split; [exact Hreturned|].
  destruct (bundle_counts_bounded hello_thread (returned hello_thread) Hne Hreturned)
    as (_ & _ & _ & _ & response & _ & _ & _ & _ & Hresponse & _ & _ & _ & _ & _ & _ & Hlt).
  by exists response.
Defined.

(** X22.  The charts lose no record.  For a bundle returned for records
    whose timestamps are [datetime] objects: the seven bars of the daily
    chart and the 24 bars of the hourly chart each add up to the number of
    records with a timestamp (and the chart is not drawn only if there is
    none); the two slices of the attachment pie and the three sentiment
    bars are not negative and each add up to the number of records (they
    are missing only for the empty input); the bars of the sender chart are
    the 10 most common senders. *)
Theorem charts_account_for_records (emails : list EmailMessage) (r : results) :
  valid_dates emails → analyze_emails emails = Ok r →
  match daily_counts r with
  | Some counts => length counts = 7%nat ∧ sumZ counts = count_if dated emails
  | None => count_if dated emails = 0
  end ∧
  match hourly_counts r with
  | Some counts => length counts = 24%nat ∧ sumZ counts = count_if dated emails
  | None => count_if dated emails = 0
  end ∧
  match attachment_sizes r with
  | Some sizes =>
      ∃ with_attachments without, sizes = [with_attachments; without] ∧
        0 ≤ with_attachments ∧ 0 ≤ without ∧
        with_attachments + without = Z.of_nat (length emails)
  | None => emails = []
  end ∧
  match sentiment_counts r with
  | Some counts =>
      ∃ p n u, counts = [p; n; u] ∧ 0 ≤ p ∧ 0 ≤ n ∧ 0 ≤ u ∧
        p + n + u = Z.of_nat (length emails)
  | None => emails = []
  end ∧
  top_10 r = match most_common 10 (sender_counter emails) with
             | [] => None
             | top => Some top
             end.
Proof.
  intros Hvalid. rewrite analyze_emails_eq.
  destruct emails as [|e0 emails0]; [by intros [= <-]|].
  set (emails := e0 :: emails0) in *.
  destruct (_analyze_response_times emails) as [response|]; [|done].
  intros [= <-].
  unfold daily_counts, hourly_counts, attachment_sizes, sentiment_counts, top_10.
  cbn [total_emails activity_by_day activity_by_hour attachment_analysis
       sentiment_analysis top_senders results_of].
  pose proof (daily_activity_total emails) as Hdaily.
  pose proof (hourly_activity_total emails Hvalid) as Hhourly.
  split_and!.
  - case_decide as Hempty.
    + by rewrite Hempty, key_total_empty in Hdaily.
    + split; [done|]. by rewrite <-Hdaily, <-key_total_sum.
  - case_decide as Hempty.
    + by rewrite Hempty, key_total_empty in Hhourly.
    + split; [done|]. by rewrite <-Hhourly, <-key_total_sum.
  - eexists _, _. split; [reflexivity|].
    rewrite emails_with_attachments_count.
    pose proof (count_if_le has_attachments emails).
    pose proof (count_if_nonneg has_attachments emails).
    split_and!; lia.
  - eexists _, _, _. split; [reflexivity|].
    pose proof (sentiment_nonneg emails) as (? & ? & ?).
    split_and!; [done..|apply sentiment_total].
  - assert (most_common 10 (sender_counter emails) = take 10 (_analyze_senders emails))
      as ->.
    { unfold _analyze_senders, most_common. by rewrite take_take. }
    by destruct (_analyze_senders emails).
Qed.

Lemma charts_account_for_records_witness :
  valid_dates hello_thread ∧
  analyze_emails hello_thread = Ok (returned hello_thread) ∧
  ∃ counts, daily_counts (returned hello_thread) = Some counts ∧ sumZ counts = 3.
Proof.
  pose proof hello_thread_valid as Hvalid.
  assert (analyze_emails hello_thread = Ok (returned hello_thread)) as Hreturned
    by (vm_compute; reflexivity).
  split; [exact Hvalid|]. split; [exact Hreturned|].
  destruct (charts_account_for_records hello_thread (returned hello_thread)
              Hvalid Hreturned) as (Hdaily & _).
  destruct (daily_counts (returned hello_thread)) as [counts|] eqn:Hcounts;
    [|by vm_compute in Hdaily].
  exists counts. split; [done|]. destruct Hdaily as [_ ->]. by vm_compute.
Defined.
